(** * Tournament pairing engine: a shallow embedding of [tournament.py]

    The development follows the source class by class: [Participant] and
    [Match] objects live in two heaps, a tournament owns the ordered match
    list and the participant list, and the two formats ([Swiss],
    [SingleElimination]) supply [seed_players] and [process_match_result]
    to the base-class operations [start] and [report_result].

    Conventions of the embedding.
    - A [Participant] is identified by its [id] (this is what
      [Participant.__eq__] compares); distinct objects that carry the same
      [id] are not modelled.
    - A [Match] has no [__eq__]: it is identified by its allocation index
      in the match heap (the role of [uuid]).
    - Handlers registered with [add_callback] are external observers:
      [trigger_event] is modelled by the ordered log of the events fired.
    - Python exceptions are results; the state reached when an exception
      is raised is kept, as in Python.
    - [math.log(n, 2)] is taken as the exact logarithm. *)

From Stdlib Require Import ZArith Lia Permutation Sorted.
From stdpp Require Import gmap strings list fin_maps.

Local Open Scope Z_scope.

(** ** Values *)

(** The values used as [Participant.id]: integers in [example.py], the
    string ["BY"] for the bye sentinel. *)
Inductive pid : Type :=
| PInt (z : Z)
| PStr (s : string).

Global Instance pid_eq_dec : EqDecision pid.
Proof. solve_decision. Defined.

Global Instance pid_countable : Countable pid.
Proof.
  refine (inj_countable'
            (λ p, match p with PInt z => inl z | PStr s => inr s end)
            (λ x, match x with inl z => PInt z | inr s => PStr s end) _).
  by intros [].
Defined.

(** [BY = Participant("BY")] *)
Definition BY : pid := PStr "BY".

(** References to [Match] objects. *)
Abbreviation mref := nat (only parsing).

(** What [report_result] receives and [Match.winner] stores, when it is
    not [None]: the marker [Match.TIE] or a participant. *)
Inductive result : Type :=
| TIE
| P (p : pid).

Global Instance result_eq_dec : EqDecision result.
Proof. solve_decision. Defined.

(** ** Objects *)

Record Participant : Type := mkParticipant {
  current_match : option mref;
  match_history : list mref;
  tournament_score : Z;
  score : option Z   (* the attribute [score] set by the bracket seeding *)
}.

(** [Participant(pid)] as its constructor leaves it. *)
Definition new_Participant : Participant :=
  {| current_match := None; match_history := []; tournament_score := 0;
     score := None |}.

Record Match : Type := mkMatch {
  home : option pid;
  away : option pid;
  winner : option result;
  loser : option result   (* assigned by [report_result] only *)
}.

(** [Match(tournament, home, away)] *)
Definition new_Match (h a : option pid) : Match :=
  {| home := h; away := a; winner := None; loser := None |}.

(** [Match.active] *)
Definition active (m : Match) : bool :=
  bool_decide (home m ≠ None) && bool_decide (away m ≠ None)
  && bool_decide (winner m = None).

(** [Match.is_complete] *)
Definition is_complete (m : Match) : bool :=
  bool_decide (winner m ≠ None).

Inductive event : Type :=
| on_start
| on_match_ready (m : mref)
| on_match_complete (m : mref)
| on_start_round
| on_complete.

Global Instance event_eq_dec : EqDecision event.
Proof. solve_decision. Defined.

(** ** State *)

(** The heaps, the event log and the attributes of [Tournament]; [fmt]
    holds the attributes the subclass adds. *)
Record State (F : Type) : Type := mkState {
  pheap : gmap pid Participant;
  mheap : list Match;
  fired : list event;
  matches : list mref;
  participants : list pid;
  num_players : option nat;
  fmt : F
}.
Arguments mkState {F}.
Arguments pheap {F}.
Arguments mheap {F}.
Arguments fired {F}.
Arguments matches {F}.
Arguments participants {F}.
Arguments num_players {F}.
Arguments fmt {F}.

Section Setters.
Context {F : Type}.
Implicit Type s : State F.

Definition upd_pheap (f : gmap pid Participant → gmap pid Participant) s :=
  mkState (f (pheap s)) (mheap s) (fired s) (matches s) (participants s)
          (num_players s) (fmt s).
Definition upd_mheap (f : list Match → list Match) s :=
  mkState (pheap s) (f (mheap s)) (fired s) (matches s) (participants s)
          (num_players s) (fmt s).
Definition upd_fired (f : list event → list event) s :=
  mkState (pheap s) (mheap s) (f (fired s)) (matches s) (participants s)
          (num_players s) (fmt s).
Definition upd_matches (f : list mref → list mref) s :=
  mkState (pheap s) (mheap s) (fired s) (f (matches s)) (participants s)
          (num_players s) (fmt s).
Definition set_num_players (n : nat) s :=
  mkState (pheap s) (mheap s) (fired s) (matches s) (participants s)
          (Some n) (fmt s).
Definition upd_fmt (f : F → F) s :=
  mkState (pheap s) (mheap s) (fired s) (matches s) (participants s)
          (num_players s) (f (fmt s)).

(** The participant object with identity [p]; an object the map does
    not hold yet is in its constructor state. *)
Definition participant s (p : pid) : Participant :=
  default new_Participant (pheap s !! p).
End Setters.

(** ** Exceptions and the state monad *)

Inductive exn : Type :=
| IndexError
| AttributeError
| KeyError
| ValueError
| Undefined.  (* no Python behaviour: a dangling match reference or an
                 exhausted loop bound *)

Inductive res (A : Type) : Type :=
| Ok (a : A)
| Raise (e : exn).
Arguments Ok {A}.
Arguments Raise {A}.

Definition M (F A : Type) : Type := State F → State F * res A.

Definition ret {F A} (a : A) : M F A := λ s, (s, Ok a).
Definition raise {F A} (e : exn) : M F A := λ s, (s, Raise e).
Definition bind {F A B} (c : M F A) (k : A → M F B) : M F B :=
  λ s, match c s with
       | (s', Ok a) => k a s'
       | (s', Raise e) => (s', Raise e)
       end.
Definition gets {F A} (f : State F → A) : M F A := λ s, (s, Ok (f s)).
Definition modify {F} (f : State F → State F) : M F unit := λ s, (f s, Ok tt).

Notation "'let*' x ':=' c 'in' k" := (bind c (λ x, k))
  (at level 10, x name, c at level 100, k at level 200).
Notation "c1 '>>' c2" := (bind c1 (λ _, c2))
  (at level 100, c2 at level 200, right associativity).

(** The state and the outcome of running [c] from [s]. *)
Definition exec {F A} (c : M F A) (s : State F) : State F := fst (c s).
Definition outcome {F A} (c : M F A) (s : State F) : res A := snd (c s).

(** ** Heap access *)

Section Heap.
Context {F : Type}.

(** Attribute assignment on the participant [p]. *)
Definition upd_participant (p : pid) (f : Participant → Participant)
  : M F unit :=
  modify (λ s, upd_pheap (λ h, <[p := f (participant s p)]> h) s).

(** An attribute access [x.attr] where [x] may be [None] or an integer:
    only a participant has the attribute. *)
Definition upd_attr (x : option result) (f : Participant → Participant)
  : M F unit :=
  match x with
  | Some (P p) => upd_participant p f
  | _ => raise AttributeError
  end.

Definition read_match (m : mref) : M F Match :=
  λ s, match mheap s !! m with
       | Some x => (s, Ok x)
       | None => (s, Raise Undefined)
       end.

Definition upd_match (m : mref) (f : Match → Match) : M F unit :=
  modify (upd_mheap (alter f m)).

(** [Match(self, home, away)]: the new object's reference. *)
Definition alloc_Match (h a : option pid) : M F mref :=
  λ s, (upd_mheap (λ l, l ++ [new_Match h a]) s, Ok (length (mheap s))).

(** [Participant.set_current_match] *)
Definition set_current_match (p : pid) (m : mref) : M F unit :=
  upd_participant p (λ x,
    {| current_match := Some m; match_history := match_history x ++ [m];
       tournament_score := tournament_score x; score := score x |}).

(** [CallbackMixin.trigger_event] *)
Definition trigger_event (e : event) : M F unit :=
  modify (upd_fired (λ l, l ++ [e])).

End Heap.

Definition add_score (d : Z) (x : Participant) : Participant :=
  {| current_match := current_match x; match_history := match_history x;
     tournament_score := tournament_score x + d; score := score x |}.

Definition zero_score (x : Participant) : Participant :=
  {| current_match := current_match x; match_history := match_history x;
     tournament_score := 0; score := score x |}.

Definition set_winner (w l : option result) (x : Match) : Match :=
  {| home := home x; away := away x; winner := w; loser := l |}.

Definition set_home (p : option pid) (x : Match) : Match :=
  {| home := p; away := away x; winner := winner x; loser := loser x |}.

Definition set_away (p : option pid) (x : Match) : Match :=
  {| home := home x; away := p; winner := winner x; loser := loser x |}.

(** A slot ([home], [away]) read as a value that may be compared with or
    passed as a winner. *)
Definition slot_value (x : option pid) : option result := P <$> x.

(** ** [sorted(l, key=..., reverse=True)]

    Python's sort is stable, also with [reverse=True]: the result is in
    descending key order and elements with equal keys keep the order they
    have in [l]. *)

Section Sorted.
Context {A : Type} (key : A → Z).

Fixpoint insert_desc (x : A) (l : list A) : list A :=
  match l with
  | [] => [x]
  | y :: l' => if key x <? key y then y :: insert_desc x l' else x :: l
  end.

Fixpoint sorted_reverse (l : list A) : list A :=
  match l with
  | [] => []
  | x :: l' => insert_desc x (sorted_reverse l')
  end.

End Sorted.

(** ** [CallbackMixin]

    The registry of handlers by event name.  A handler is an opaque
    callable, of type [Handler]; [trigger_event] is given by the handlers
    it calls, in the order of the calls. *)

Module CallbackMixin.
Section Handlers.
Context {Handler : Type}.

(** [self._callbacks = dict()] *)
Definition init : gmap string (list Handler) := ∅.

(** [self._callbacks.setdefault(event, []).append(handler)] *)
Definition add_callback (event : string) (handler : Handler)
  (callbacks : gmap string (list Handler)) : gmap string (list Handler) :=
  <[event := default [] (callbacks !! event) ++ [handler]]> callbacks.

(** [for handler in self._callbacks.get(event, []): handler(...)] *)
Definition trigger_event (event : string)
  (callbacks : gmap string (list Handler)) : list Handler :=
  default [] (callbacks !! event).

End Handlers.
End CallbackMixin.

(** ** The base class [Tournament] *)

Module Tournament.
Section Base.
Context {F : Type}.

(** [Tournament.calc_match_points] *)
Definition calc_match_points (m : mref) : M F unit :=
  let* x := read_match m in
  if bool_decide (winner x = Some TIE) then
    upd_attr (slot_value (home x)) (add_score 1) >>
    upd_attr (slot_value (away x)) (add_score 1)
  else
    upd_attr (winner x) (add_score 3) >>
    upd_attr (loser x) (add_score 0).

(** [Tournament.get_players_by_rank] *)
Definition get_players_by_rank : M F (list pid) :=
  gets (λ s, sorted_reverse (λ p, tournament_score (participant s p))
                            (participants s)).

(** [filter(pred, self.matches)], [pred] reading the match object. *)
Fixpoint filter_matches (pred : Match → bool) (ms : list mref)
  : M F (list mref) :=
  match ms with
  | [] => ret []
  | m :: ms' =>
      let* x := read_match m in
      let* r := filter_matches pred ms' in
      ret (if pred x then m :: r else r)
  end.

(** [Tournament.active_matches] *)
Definition active_matches : M F (list mref) :=
  let* ms := gets matches in
  filter_matches active ms.

(** [Tournament.completed_matches] *)
Definition completed_matches : M F (list mref) :=
  let* ms := gets matches in
  filter_matches is_complete ms.

(** The subclass hooks. *)
Variable process_match_result : mref → M F unit.
Variable seed_players : M F unit.

(** [Tournament.handle_match_result] *)
Definition handle_match_result (m : mref) : M F unit :=
  calc_match_points m >>
  trigger_event (on_match_complete m) >>
  process_match_result m.

(** [Match.report_result] *)
Definition report_result (m : mref) (w : option result) : M F unit :=
  let* x := read_match m in
  let l := if bool_decide (w = Some TIE) then Some TIE
           else if bool_decide (w = slot_value (home x)) then
                  slot_value (away x)
                else slot_value (home x) in
  upd_match m (set_winner w l) >>
  handle_match_result m.

(** [for player in self.participants: player.tournament_score = 0] *)
Fixpoint reset_scores (ps : list pid) : M F unit :=
  match ps with
  | [] => ret tt
  | p :: ps' =>
      upd_participant p zero_score >>
      reset_scores ps'
  end.

(** [Tournament.start]; [order_players_by_initial_rank] is [pass]. *)
Definition start : M F unit :=
  modify (λ s, set_num_players (length (participants s)) s) >>
  let* ps := gets participants in
  reset_scores ps >>
  trigger_event on_start >>
  seed_players.

End Base.
End Tournament.

(** ** The round-based format: [SwissTournament] *)

Module Swiss.

Record Fields : Type := mkFields {
  current_round : Z;
  rounds : Z;
  opponents : gmap pid (list pid);
  matches_per_round : option nat
}.

Definition upd_opponents (f : gmap pid (list pid) → gmap pid (list pid))
  (x : Fields) : Fields :=
  {| current_round := current_round x; rounds := rounds x;
     opponents := f (opponents x);
     matches_per_round := matches_per_round x |}.

(** [SwissTournament(rounds, participants=ps)]; [h] is the state of the
    participant objects handed in. *)
Definition SwissTournament (n : Z) (ps : list pid)
  (h : gmap pid Participant) : State Fields :=
  mkState h [] [] [] ps None
    {| current_round := 0; rounds := n; opponents := ∅;
       matches_per_round := None |}.

(** [self.opponents.setdefault(p, [])] *)
Definition setdefault (p : pid) : M Fields (list pid) :=
  λ s, match opponents (fmt s) !! p with
       | Some l => (s, Ok l)
       | None => (upd_fmt (upd_opponents <[p := []]>) s, Ok [])
       end.

(** [self.opponents.setdefault(p, []).append(q)] *)
Definition add_opponent (p q : pid) : M Fields unit :=
  let* l := setdefault p in
  modify (upd_fmt (upd_opponents <[p := l ++ [q]]>)).

(** The [for player in players] scan of [setup_round]: the first player
    not yet among the opponents of [home], [None] when the loop runs to
    its [else]. *)
Fixpoint scan (home : pid) (players : list pid) : M Fields (option pid) :=
  match players with
  | [] => ret None
  | player :: rest =>
      let* faced := setdefault home in
      if bool_decide (player ∉ faced) then ret (Some player)
      else scan home rest
  end.

(** [deque.remove]: the first element equal to [x] goes. *)
Fixpoint remove_first (x : pid) (l : list pid) : list pid :=
  match l with
  | [] => []
  | y :: l' => if decide (y = x) then l' else y :: remove_first x l'
  end.

(** The choice of [away] for [home], and the queue left. *)
Definition choose_away (home : pid) (players : list pid)
  : M Fields (pid * list pid) :=
  let* found := scan home players in
  match found with
  | Some away => ret (away, remove_first away players)
  | None =>
      match players with
      | [] => raise IndexError          (* popleft on an empty deque *)
      | away :: rest => ret (away, rest)
      end
  end.

(** One turn of the [while players] loop, [home] already popped. *)
Definition pair_next (home : pid) (players : list pid)
  : M Fields (list pid) :=
  let* c := choose_away home players in
  let away := c.1 in
  let* m := alloc_Match (Some home) (Some away) in
  set_current_match home m >>
  set_current_match away m >>
  add_opponent home away >>
  add_opponent away home >>
  modify (upd_matches (λ l, l ++ [m])) >>
  trigger_event (on_match_ready m) >>
  ret c.2.

(** [while players: ...]; the bound [fuel] is the length of the queue. *)
Fixpoint pair_all (fuel : nat) (players : list pid) : M Fields unit :=
  match players with
  | [] => ret tt
  | home :: rest =>
      match fuel with
      | O => raise Undefined
      | S fuel' =>
          let* rest' := pair_next home rest in
          pair_all fuel' rest'
      end
  end.

(** [SwissTournament.setup_round] *)
Definition setup_round : M Fields unit :=
  modify (upd_fmt (λ x,
    {| current_round := current_round x + 1; rounds := rounds x;
       opponents := opponents x;
       matches_per_round := matches_per_round x |})) >>
  let* players := Tournament.get_players_by_rank in
  pair_all (length players) players >>
  trigger_event on_start_round.

(** [filter(lambda m: not m.is_complete, self.matches)] *)
Fixpoint incomplete (ms : list mref) : M Fields (list mref) :=
  match ms with
  | [] => ret []
  | m :: ms' =>
      let* x := read_match m in
      let* r := incomplete ms' in
      ret (if is_complete x then r else m :: r)
  end.

(** [SwissTournament.is_round_complete] *)
Definition is_round_complete : M Fields bool :=
  let* ms := gets matches in
  let* l := incomplete ms in
  ret (bool_decide (length l = 0%nat)).

(** [SwissTournament.process_match_result] *)
Definition process_match_result (m : mref) : M Fields unit :=
  let* c := is_round_complete in
  if c then
    let* x := gets fmt in
    if bool_decide (current_round x ≠ rounds x) then setup_round
    else trigger_event on_complete
  else ret tt.

(** [SwissTournament.seed_players] *)
Definition seed_players : M Fields unit :=
  modify (λ s, upd_fmt (λ x,
    {| current_round := current_round x; rounds := rounds x;
       opponents := opponents x;
       matches_per_round := Some (length (participants s) / 2)%nat |}) s) >>
  setup_round.

Definition start : M Fields unit := Tournament.start seed_players.

Definition report_result (m : mref) (w : option result) : M Fields unit :=
  Tournament.report_result process_match_result m w.

End Swiss.

(** ** The elimination format: [SingleEliminationTournament] *)

Module SingleElimination.

Record Fields : Type := mkFields {
  bracket : gmap mref mref;
  sources : gmap mref (mref * mref);
  rounds : option nat;
  field_size : option nat
}.

(** [SingleEliminationTournament(participants=ps)]; [h] is the state of
    the participant objects handed in. *)
Definition SingleEliminationTournament (ps : list pid)
  (h : gmap pid Participant) : State Fields :=
  mkState h [] [] [] ps None
    {| bracket := ∅; sources := ∅; rounds := None; field_size := None |}.

(** [p.score = 0] *)
Definition set_score (p : pid) : M Fields unit :=
  upd_participant p (λ x,
    {| current_match := current_match x; match_history := match_history x;
       tournament_score := tournament_score x; score := Some 0 |}).

(** The first loop of [seed_players]: front meets back. *)
Fixpoint seed_first_round (fuel : nat) (player_queue : list pid)
  (match_queue : list mref) : M Fields (list mref) :=
  match player_queue with
  | [] => ret match_queue
  | home :: q =>
      match fuel with
      | O => raise Undefined
      | S fuel' =>
          match last q with
          | None => raise IndexError           (* pop on an empty deque *)
          | Some away =>
              set_score home >>
              set_score away >>
              let* m := alloc_Match (Some home) (Some away) in
              set_current_match home m >>
              set_current_match away m >>
              trigger_event (on_match_ready m) >>
              seed_first_round fuel' (removelast q) (match_queue ++ [m])
          end
      end
  end.

(** The second loop: [while len(match_queue) > 1]. *)
Fixpoint build_bracket (fuel : nat) (match_queue : list mref)
  : M Fields (list mref) :=
  match match_queue with
  | top :: bot :: q =>
      match fuel with
      | O => raise Undefined
      | S fuel' =>
          let* m := alloc_Match None None in
          modify (upd_fmt (λ x,
            {| bracket := <[bot := m]> (<[top := m]> (bracket x));
               sources := <[m := (top, bot)]> (sources x);
               rounds := rounds x; field_size := field_size x |})) >>
          modify (upd_matches (λ l, l ++ [top; bot])) >>
          build_bracket fuel' (q ++ [m])
      end
  | _ => ret match_queue
  end.

(** [SingleEliminationTournament.process_match_result] *)
Definition process_match_result (m : mref) : M Fields unit :=
  let* f := gets fmt in
  match bracket f !! m with
  | None => trigger_event on_complete
  | Some winner_match =>
      let* x := read_match m in
      match winner x with
      | Some (P w) =>
          set_current_match w winner_match >>
          match sources f !! winner_match with
          | None => raise KeyError
          | Some (home_source, away_source) =>
              (if decide (m = home_source)
               then upd_match winner_match (set_home (Some w))
               else upd_match winner_match (set_away (Some w))) >>
              let* y := read_match winner_match in
              if active y then trigger_event (on_match_ready winner_match)
              else ret tt
          end
      | _ => raise AttributeError
      end
  end.

Definition report_result (m : mref) (w : option result) : M Fields unit :=
  Tournament.report_result process_match_result m w.

(** The last loop: [for match in self.matches: if match.away == BY: ...] *)
Fixpoint resolve_byes (ms : list mref) : M Fields unit :=
  match ms with
  | [] => ret tt
  | m :: ms' =>
      let* x := read_match m in
      (if bool_decide (away x = Some BY)
       then report_result m (slot_value (home x))
       else ret tt) >>
      resolve_byes ms'
  end.

(** [SingleEliminationTournament.seed_players].  The number of rounds is
    [int(math.ceil(math.log(self.num_players, 2)))], which the code
    computes in double precision; [Nat.log2_up] is its value for every
    count below [2 ^ 29].  At [2 ^ 29] participants the quotient of the
    two logarithms comes out above 29 and the code takes one round
    more, and twice the field. *)
Definition seed_players : M Fields unit :=
  let* n := gets num_players in
  match n with
  | None => raise AttributeError
  | Some num =>
      if decide (num = 0%nat) then raise ValueError     (* math.log(0, 2) *)
      else
        let r := Nat.log2_up num in
        let fs := (2 ^ r)%nat in
        modify (upd_fmt (λ x,
          {| bracket := bracket x; sources := sources x;
             rounds := Some r; field_size := Some fs |})) >>
        let* ps := gets participants in
        let player_queue := ps ++ replicate (fs - num) BY in
        let* match_queue :=
          seed_first_round (length player_queue) player_queue [] in
        let* match_queue := build_bracket (length match_queue) match_queue in
        match last match_queue with
        | None => raise IndexError
        | Some final =>
            modify (upd_matches (λ l, l ++ [final])) >>
            let* ms := gets matches in
            resolve_byes ms
        end
  end.

Definition start : M Fields unit := Tournament.start seed_players.

End SingleElimination.

(** ** The driver of [example.py]

    The loop of the script, with the random numbers it draws given in
    advance: a pair for each turn, the first for the choice of the match,
    the second for the choice of the winner.  The handlers of the script
    print, but for the handler of [on_complete], which calls [sys.exit]:
    the script ends with the call that fires [on_complete].  The pause
    between two turns is left out. *)

Module Example.
Section Main.
Context {F : Type}.
Variable report_result : mref → option result → M F unit.

(** [random.choice(seq)], [r] being the number drawn. *)
Definition choice {A} (r : nat) (seq : list A) : M F A :=
  match seq !! (r `mod` length seq)%nat with
  | Some a => ret a
  | None => raise IndexError
  end.

(** One turn of the [while True] loop. *)
Definition turn (r : nat * nat) : M F unit :=
  let* l := Tournament.active_matches in
  let* m := choice r.1 l in
  let* x := read_match m in
  let* w := choice r.2 [home x; away x] in
  report_result m (slot_value w).

(** [on_complete] has been fired between [s] and [s']. *)
Definition exited (s s' : State F) : bool :=
  bool_decide (on_complete ∈ drop (length (fired s)) (fired s')).

(** [c], then [k] unless [c] has ended the script; the result is [true]
    when the script has ended. *)
Definition then_unless_exited (c : M F unit) (k : M F bool) : M F bool :=
  λ s, match c s with
       | (s', r) =>
           if exited s s' then (s', Ok true)
           else match r with
                | Ok _ => k s'
                | Raise e => (s', Raise e)
                end
       end.

(** The turns of the loop for the numbers drawn [rs]; the result is
    [false] when the script is still running after them. *)
Fixpoint loop (rs : list (nat * nat)) : M F bool :=
  match rs with
  | [] => ret false
  | r :: rs' => then_unless_exited (turn r) (loop rs')
  end.

(** [example.start()], then the loop. *)
Definition main (start : M F unit) (rs : list (nat * nat)) : M F bool :=
  then_unless_exited start (loop rs).

End Main.
End Example.

(** * The vocabulary of the properties *)

(** The cumulative score of [p] in [s]. *)
Definition score_of {F} (s : State F) (p : pid) : Z :=
  tournament_score (participant s p).

(** [p] stands before [q] in [l]. *)
Definition precedes (p q : pid) (l : list pid) : Prop :=
  ∃ i j, (i < j)%nat ∧ l !! i = Some p ∧ l !! j = Some q.

(** Equal keys keep in [r] the order they have in [prior]. *)
Definition keeps_order_of (key : pid → Z) (prior r : list pid) : Prop :=
  ∀ p q, key p = key q → precedes p q prior → precedes p q r.

(** Descending order of keys. *)
Definition desc {A} (key : A → Z) (a b : A) : Prop := key b ≤ key a.

(** [c] never changes the view [proj] of the state. *)
Definition keeps {F A B} (proj : State F → B) (c : M F A) : Prop :=
  ∀ s, proj (exec c s) = proj s.

(** What [report_result m w] does from [s] when [m] is [x], whatever
    the result [x] already holds: the call hands over to the format's
    advancement step [pmr] in a state [s1] where [m] has winner [w] and
    loser [l] and [on_match_complete] has been fired, and when it is over
    the score of [w] is 3 points higher than in [s]. *)
Definition reported {F} (pmr : mref → M F unit) (s : State F)
  (m : mref) (x : Match) (w l : pid) : Prop :=
  ∃ s1, Tournament.report_result pmr m (Some (P w)) s = pmr m s1
    ∧ mheap s1 !! m = Some (set_winner (Some (P w)) (Some (P l)) x)
    ∧ fired s1 = fired s ++ [on_match_complete m]
    ∧ score_of (exec (Tournament.report_result pmr m (Some (P w))) s) w
      = score_of s w + 3.

(** ** Scenarios of the round-based format *)

Module Scenario.
Import Swiss.

Definition A : pid := PStr "A".
Definition B : pid := PStr "B".
Definition C : pid := PStr "C".
Definition D : pid := PStr "D".

Definition ranking {F} (s : State F) : res (list pid) :=
  outcome Tournament.get_players_by_rank s.

(** Four fresh participants, [n] rounds, started. *)
Definition round1 (n : Z) : State Fields :=
  exec start (SwissTournament n [A; B; C; D] ∅).

(** [A] and [C] reported as the winners of round 1, in either order. *)
Definition round2 (n : Z) : State Fields :=
  exec (report_result 1%nat (Some (P C)))
       (exec (report_result 0%nat (Some (P A))) (round1 n)).
Definition round2' (n : Z) : State Fields :=
  exec (report_result 0%nat (Some (P A)))
       (exec (report_result 1%nat (Some (P C))) (round1 n)).

(** Two participants, two rounds; [B] wins round 1, [A] wins round 2. *)
Definition duel1 : State Fields :=
  exec (report_result 0%nat (Some (P B)))
       (exec start (SwissTournament 2 [A; B] ∅)).
Definition duel2 : State Fields :=
  exec (report_result 1%nat (Some (P A))) duel1.

(** Round 1 of four participants with [A] reported as the winner of the
    first match. *)
Definition reported_once : State Fields :=
  exec (report_result 0%nat (Some (P A))) (round1 3).

(** The match A-B, Completed in favour of [A]. *)
Definition won_by_A : Match :=
  set_winner (Some (P A)) (Some (P B)) (new_Match (Some A) (Some B)).

(** What the scenario says of the state once round 1 is reported. *)
Definition second_round (s : State Fields) : Prop :=
  score_of s <$> [A; B; C; D] = [3; 0; 3; 0]
  ∧ ranking s = Ok [A; C; B; D]
  ∧ drop 2 (mheap s)
    = [new_Match (Some A) (Some C); new_Match (Some B) (Some D)]
  ∧ matches s = [0; 1; 2; 3]%nat
  ∧ current_round (fmt s) = 2.

End Scenario.

(** ** The round-based format *)

Module Pairing.
Import Swiss.

(** The opponents recorded for [p]. *)
Definition faced (s : State Fields) (p : pid) : list pid :=
  default [] (opponents (fmt s) !! p).

(** The views [setdefault] cannot change. *)
Definition same_but_default (s s' : State Fields) : Prop :=
  pheap s' = pheap s ∧ mheap s' = mheap s ∧ fired s' = fired s
  ∧ matches s' = matches s ∧ participants s' = participants s
  ∧ (∀ q, faced s' q = faced s q).

End Pairing.

(** ** The elimination format *)

Module Bracket.
Import SingleElimination.

(** The first-round matches made from the player queue [q]: the [i]-th
    from the front meets the [i]-th from the back. *)
Definition first_round (q : list pid) : list Match :=
  zip_with (λ h a, new_Match (Some h) (Some a))
           (take (length q / 2) q) (reverse (drop (length q / 2) q)).

(** The player queue of [ps] for [k] first-round matches: the
    participants, then the byes. *)
Definition player_queue (ps : list pid) (k : nat) : list pid :=
  ps ++ replicate (2 * k - length ps) BY.

(** The bracket over [k] first-round matches, as the second loop leaves
    it: matches [0 .. k-1] are the first round, [k + j] is the placeholder
    fed by [2j] and [2j + 1], and [2k - 2] is the final. *)
Definition shape (k : nat) (s : State Fields) : Prop :=
  length (mheap s) = (2 * k - 1)%nat
  ∧ matches s = seq 0 (2 * k - 1)
  ∧ (∀ j, (j < k - 1)%nat →
       bracket (fmt s) !! (2 * j)%nat = Some (k + j)%nat
       ∧ bracket (fmt s) !! (2 * j + 1)%nat = Some (k + j)%nat
       ∧ sources (fmt s) !! (k + j)%nat
         = Some ((2 * j)%nat, (2 * j + 1)%nat))
  ∧ (∀ m, (2 * (k - 1) ≤ m)%nat → bracket (fmt s) !! m = None)
  ∧ (∀ p, ¬ (k ≤ p < 2 * k - 1)%nat → sources (fmt s) !! p = None).

(** The events a report on [m] adds after [on_match_complete m]. *)
Definition advancement_events (s s' : State Fields) (m : mref)
  : list event :=
  match bracket (fmt s) !! m with
  | None => [on_complete]
  | Some p => if from_option active false (mheap s' !! p)
              then [on_match_ready p] else []
  end.

(** A placeholder's filled slot was filled by the winner of the match
    that feeds it. *)
Definition fed (s : State Fields) : Prop :=
  ∀ p t b y, sources (fmt s) !! p = Some (t, b) → mheap s !! p = Some y →
    (home y ≠ None → ∃ x, mheap s !! t = Some x ∧ winner x ≠ None)
    ∧ (away y ≠ None → ∃ x, mheap s !! b = Some x ∧ winner x ≠ None).

(** [x] is a bye match of [p]: [p] at home, the bye sentinel away. *)
Definition bye_of (p : pid) (x : Match) : Prop :=
  home x = Some p ∧ away x = Some BY.

Global Instance bye_of_dec p x : Decision (bye_of p x).
Proof. unfold bye_of. apply _. Defined.

(** The number of bye matches of [p] among [l]. *)
Definition byes_won (p : pid) (l : list Match) : nat :=
  length (filter (bye_of p) l).

(** The state of the seeding of [ps] over [k] first-round matches once
    the last loop has gone through the first [i] matches of the list;
    [sc0] are the scores it started from. *)
Definition seeded (ps : list pid) (k i : nat) (sc0 : pid → Z)
  (s : State Fields) : Prop :=
  shape k s
  ∧ (∀ m, (m < k)%nat →
       ∃ x h a, mheap s !! m = Some x
         ∧ player_queue ps k !! m = Some h
         ∧ player_queue ps k !! (2 * k - 1 - m)%nat = Some a
         ∧ home x = Some h ∧ away x = Some a)
  ∧ (∀ m x, (k ≤ m)%nat → mheap s !! m = Some x →
       winner x = None ∧ away x ≠ Some BY)
  ∧ fed s
  ∧ (∀ m x, (m < i)%nat → mheap s !! m = Some x → away x = Some BY →
       ∃ h, home x = Some h ∧ winner x = Some (P h))
  ∧ (∀ p, score_of s p
          = sc0 p + 3 * Z.of_nat (byes_won p (take i (mheap s)))).

(** Views of the state that the seeding loops leave alone: those that
    depend neither on the heaps, the event log, the match list, nor on
    the bracket maps. *)
Definition outside_bracket {B} (proj : State Fields → B) : Prop :=
  (∀ s g, proj (upd_pheap g s) = proj s)
  ∧ (∀ s g, proj (upd_mheap g s) = proj s)
  ∧ (∀ s g, proj (upd_fired g s) = proj s)
  ∧ (∀ s g, proj (upd_matches g s) = proj s)
  ∧ (∀ s g, (∀ x, rounds (g x) = rounds x ∧ field_size (g x) = field_size x) →
            proj (upd_fmt g s) = proj s).

(** The scores a started tournament seeds from: participants at 0. *)
Definition reset_score (ps : list pid) (h : gmap pid Participant)
  (p : pid) : Z :=
  if decide (p ∈ ps) then 0
  else tournament_score (default new_Participant (h !! p)).

(** The bracket of a tournament of [ps], in the state [s] that [start]
    leaves, with field size [fs] and [half] first-round matches. *)
Definition bracket_built (ps : list pid) (s : State Fields)
  (fs half : nat) : Prop :=
  let n := length ps in
  let q := ps ++ replicate (fs - n) BY in
  (* the field: the smallest power of two that holds the participants *)
  field_size (fmt s) = Some fs
  ∧ fs = (2 ^ Nat.log2_up n)%nat ∧ (n ≤ fs)%nat
  ∧ (∀ r, (n ≤ 2 ^ r)%nat → (fs ≤ 2 ^ r)%nat)
  ∧ fs = (2 * half)%nat
  (* the first round: the front of the queue against its back *)
  ∧ (∀ i, (i < half)%nat →
       ∃ x hm aw, mheap s !! i = Some x
         ∧ q !! i = Some hm ∧ q !! (fs - 1 - i)%nat = Some aw
         ∧ home x = Some hm ∧ away x = Some aw)
  (* the match list: first round, then the placeholders, the final last *)
  ∧ matches s = seq 0 (fs - 1) ∧ length (mheap s) = (fs - 1)%nat
  ∧ (∀ p, is_Some (sources (fmt s) !! p) ↔ (half ≤ p < fs - 1)%nat)
  (* exactly one match has no parent *)
  ∧ filter (λ m, bracket (fmt s) !! m = None) (matches s) = [(fs - 2)%nat].

(** Three participants: one bye. *)
Definition trio : list pid := [PInt 1; PInt 2; PInt 3].

(** The states of an elimination tournament of [ps] in orderly use:
    started, then results reported on active matches, each naming one of
    the two participants of the match. *)
Inductive in_play (ps : list pid) (h : gmap pid Participant)
  : State Fields → Prop :=
| in_play_start :
    in_play ps h (exec start (SingleEliminationTournament ps h))
| in_play_report s m x w :
    in_play ps h s →
    mheap s !! m = Some x → active x = true →
    home x = Some w ∨ away x = Some w →
    in_play ps h (exec (report_result m (Some (P w))) s).

(** A Completed match has both slots assigned. *)
Definition filled (s : State Fields) : Prop :=
  ∀ m x, mheap s !! m = Some x → winner x ≠ None →
    home x ≠ None ∧ away x ≠ None.



End Bracket.

(** [c] keeps the invariant [I], also when it raises. *)
Definition preserves {F A} (I : State F → Prop) (c : M F A) : Prop :=
  ∀ s, I s → I (exec c s).

(** ** Results and standings *)

(** The loser [Match.report_result] stores beside the winner [w]. *)
Definition loser_for (w : option result) (x : Match) : option result :=
  if bool_decide (w = Some TIE) then Some TIE
  else if bool_decide (w = slot_value (home x)) then slot_value (away x)
  else slot_value (home x).

(** The points the result of [x] is worth to [p] under
    [calc_match_points]. *)
Definition points (p : pid) (x : Match) : Z :=
  match winner x with
  | Some TIE => (if decide (home x = Some p) then 1 else 0)
                + (if decide (away x = Some p) then 1 else 0)
  | Some (P w) => if decide (w = p) then 3 else 0
  | None => 0
  end.

(** The points of [p] over the matches [l]. *)
Definition standing (p : pid) (l : list Match) : Z :=
  foldr (λ x z, points p x + z) 0 l.

(** A result that names a tie or one of the two participants of [x]. *)
Definition names (w : result) (x : Match) : Prop :=
  match w with
  | TIE => True
  | P p => home x = Some p ∨ away x = Some p
  end.

(** The slots of a match, home first. *)
Definition slots (x : Match) : list (option pid) := [home x; away x].

(** The opponents a match gives to [p]. *)
Definition opps (p : pid) (x : Match) : list pid :=
  (if decide (home x = Some p) then option_list (away x) else [])
  ++ (if decide (away x = Some p) then option_list (home x) else []).

(** What a match, made under the reference [m], adds to the match
    history of [q]: an entry for each slot that [q] holds. *)
Definition plays (q : pid) (m : mref) (x : Match) : list mref :=
  (if decide (home x = Some q) then [m] else [])
  ++ (if decide (away x = Some q) then [m] else []).

(** The matches of [l] in which [q] holds a slot, by reference. *)
Definition played (q : pid) (l : list Match) : list mref :=
  concat (imap (plays q) l).

(** A match as the constructor leaves it, with both participants. *)
Definition fresh (x : Match) : Prop :=
  ∃ h a, x = new_Match (Some h) (Some a).

(** The matches of [l] that are not Completed. *)
Definition pending (l : list Match) : nat :=
  length (filter (λ x, is_complete x = false) l).

(** ** The bracket in use *)

Module Knockout.
Import SingleElimination.

(** The slots of a placeholder hold the winners of the two matches that
    feed it, and are empty as long as these are not Completed. *)
Definition fed_exact (s : State Fields) : Prop :=
  ∀ p t b y, sources (fmt s) !! p = Some (t, b) → mheap s !! p = Some y →
    (∀ x, mheap s !! t = Some x → slot_value (home y) = winner x)
    ∧ (∀ x, mheap s !! b = Some x → slot_value (away y) = winner x).

(** Only bye matches, among the first [i], are Completed. *)
Definition byes_only (i : nat) (s : State Fields) : Prop :=
  ∀ m x, mheap s !! m = Some x → winner x ≠ None →
    (m < i)%nat ∧ away x = Some BY.

End Knockout.

(** ** Uses of a round-based tournament *)

Module Round.
Import Swiss.

(** Any use: started, then any calls of [report_result]. *)
Inductive in_use (n : Z) (ps : list pid) (h : gmap pid Participant)
  : State Fields → Prop :=
| in_use_start :
    in_use n ps h (exec start (SwissTournament n ps h))
| in_use_report s m w :
    in_use n ps h s →
    in_use n ps h (exec (report_result m w) s).

(** Orderly use: started, then results reported on active matches, each
    a tie or one of the two participants of the match. *)
Inductive in_play (n : Z) (ps : list pid) (h : gmap pid Participant)
  : State Fields → Prop :=
| in_play_start :
    in_play n ps h (exec start (SwissTournament n ps h))
| in_play_report s m x w :
    in_play n ps h s →
    mheap s !! m = Some x → active x = true → names w x →
    in_play n ps h (exec (report_result m (Some w)) s).

(** The attributes that pairing and reporting leave alone. *)
Definition config (s : State Fields)
  : list pid * option nat * Z * option nat :=
  (participants s, num_players s, rounds (fmt s), matches_per_round (fmt s)).

(** The last round is on and every match is Completed. *)
Definition over (s : State Fields) : Prop :=
  current_round (fmt s) = rounds (fmt s)
  ∧ Forall (λ x, is_complete x = true) (mheap s).

End Round.

(** * Lemmas *)

(** ** Lists *)

Lemma filter_none {A} (P : A → Prop) `{!∀ x, Decision (P x)} l :
  Forall (λ x, ¬ P x) l → filter P l = [].
Proof.
  induction 1 as [|x l Hx _ IH]; [done|].
  by rewrite filter_cons, decide_False, IH.
Qed.


(** ** The monad *)

Lemma exec_bind {F A B} (c : M F A) (k : A → M F B) s s' a :
  c s = (s', Ok a) → bind c k s = k a s'.
Proof. intros H. unfold bind. by rewrite H. Qed.

Lemma bind_raise {F A B} (c : M F A) (k : A → M F B) s s' e :
  c s = (s', Raise e) → bind c k s = (s', Raise e).
Proof. intros H. unfold bind. by rewrite H. Qed.

Lemma bind_modify {F B} (f : State F → State F) (k : unit → M F B) s :
  bind (modify f) k s = k tt (f s).
Proof. done. Qed.

Lemma bind_gets {F A B} (f : State F → A) (k : A → M F B) s :
  bind (gets f) k s = k (f s) s.
Proof. done. Qed.

Lemma bind_ret {F A B} (a : A) (k : A → M F B) s : bind (ret a) k s = k a s.
Proof. done. Qed.

Lemma bind_read_match {F B} m x (k : Match → M F B) s :
  mheap s !! m = Some x → bind (read_match m) k s = k x s.
Proof. intros H. unfold bind, read_match. by rewrite H. Qed.

Lemma outcome_then {F} (c k : M F unit) s :
  (∀ s', outcome k s' = Ok tt) → outcome (c >> k) s = outcome c s.
Proof.
  intros Hk. unfold outcome, bind. specialize (Hk (c s).1).
  destruct (c s) as [s' [[]|e]]; [apply Hk | done].
Qed.

Lemma exec_then {F} (c k : M F unit) s :
  exec (c >> k) s
  = match outcome c s with
    | Ok _ => exec k (exec c s)
    | Raise _ => exec c s
    end.
Proof. unfold exec, outcome, bind. by destruct (c s) as [s' [[]|e]]. Qed.

(** ** Sorting *)

Section SortedFacts.
Context {A : Type} (key : A → Z).

Lemma insert_desc_perm x l : insert_desc key x l ≡ₚ x :: l.
Proof.
  induction l as [|y l IH]; simpl; [done|].
  destruct (key x <? key y); [|done].
  rewrite IH. apply Permutation_swap.
Qed.

Lemma sorted_reverse_perm l : sorted_reverse key l ≡ₚ l.
Proof.
  induction l as [|x l IH]; simpl; [done|].
  by rewrite insert_desc_perm, IH.
Qed.

Lemma insert_desc_sorted x l :
  StronglySorted (desc key) l → StronglySorted (desc key) (insert_desc key x l).
Proof.
  induction 1 as [|y l Hl IH Hy]; simpl.
  - repeat constructor.
  - destruct (Z.ltb_spec (key x) (key y)) as [Hlt|Hge].
    + constructor; [done|].
      rewrite insert_desc_perm. constructor; [unfold desc; lia | done].
    + constructor; [by constructor|].
      constructor; [done|].
      eapply Forall_impl; [exact Hy|]. unfold desc. intros; simpl in *; lia.
Qed.

Lemma sorted_reverse_sorted l : StronglySorted (desc key) (sorted_reverse key l).
Proof.
  induction l; simpl; [constructor | by apply insert_desc_sorted].
Qed.

(** Stability: the elements of any one key are in the order of the input. *)
Lemma insert_desc_filter k x l :
  filter (λ a, key a = k) (insert_desc key x l)
  = filter (λ a, key a = k) (x :: l).
Proof.
  induction l as [|y l IH]; simpl; [done|].
  destruct (Z.ltb_spec (key x) (key y)) as [Hlt|Hge]; [|done].
  rewrite !filter_cons in *.
  destruct (decide (key y = k)) as [Hy|Hy];
    destruct (decide (key x = k)) as [Hx|Hx]; try lia; by rewrite IH.
Qed.

Lemma sorted_reverse_stable k l :
  filter (λ a, key a = k) (sorted_reverse key l) = filter (λ a, key a = k) l.
Proof.
  induction l as [|x l IH]; simpl; [done|].
  rewrite insert_desc_filter, !filter_cons. by rewrite IH.
Qed.

End SortedFacts.

Lemma sorted_reverse_length {A} (key : A → Z) l :
  length (sorted_reverse key l) = length l.
Proof. by rewrite sorted_reverse_perm. Qed.

(** ** What an operation leaves alone *)

Section Keeps.
Context {F B : Type} (proj : State F → B).

Lemma keeps_ret {A} (a : A) : keeps proj (ret a).
Proof. done. Qed.

Lemma keeps_raise {A} e : keeps proj (raise (A:=A) e).
Proof. done. Qed.

Lemma keeps_gets {A} (f : State F → A) : keeps proj (gets f).
Proof. done. Qed.

Lemma keeps_modify f : (∀ s, proj (f s) = proj s) → keeps proj (modify f).
Proof. intros H s. apply H. Qed.

Lemma keeps_bind {A C} (c : M F A) (k : A → M F C) :
  keeps proj c → (∀ a, keeps proj (k a)) → keeps proj (bind c k).
Proof.
  intros Hc Hk s. unfold exec, bind. specialize (Hc s). unfold exec in Hc.
  destruct (c s) as [s' [a|e]]; simpl in *; [|done].
  rewrite <- Hc. apply Hk.
Qed.

Lemma keeps_read_match m : keeps proj (read_match m).
Proof. intros s. unfold exec, read_match. by destruct (mheap s !! m). Qed.

Lemma keeps_trigger_event e :
  (∀ s f, proj (upd_fired f s) = proj s) → keeps proj (trigger_event e).
Proof. intros H. apply keeps_modify. intros; apply H. Qed.

Lemma keeps_upd_participant p f :
  (∀ s g, proj (upd_pheap g s) = proj s) → keeps proj (upd_participant p f).
Proof. intros H s. apply H. Qed.

Lemma keeps_upd_attr x f :
  (∀ s g, proj (upd_pheap g s) = proj s) → keeps proj (upd_attr x f).
Proof.
  intros H. destruct x as [[|p]|]; try apply keeps_raise.
  by apply keeps_upd_participant.
Qed.

Lemma keeps_upd_match m f :
  (∀ s g, proj (upd_mheap g s) = proj s) → keeps proj (upd_match m f).
Proof. intros H s. apply H. Qed.

Lemma keeps_alloc_Match h a :
  (∀ s g, proj (upd_mheap g s) = proj s) → keeps proj (alloc_Match h a).
Proof. intros H s. apply H. Qed.

End Keeps.

(** The score of a participant is touched by updates of the participant
    heap only, and not by [set_current_match]. *)
Lemma score_of_upd_participant {F} (s : State F) p q f :
  score_of (exec (upd_participant p f) s) q
  = if decide (p = q) then tournament_score (f (participant s p))
    else score_of s q.
Proof.
  unfold score_of, participant, exec, upd_participant, modify; simpl.
  rewrite lookup_insert. by destruct (decide (p = q)); subst.
Qed.

Lemma keeps_score_set_current_match {F} p m q :
  keeps (F:=F) (λ s, score_of s q) (set_current_match p m).
Proof.
  intros s. unfold set_current_match. rewrite score_of_upd_participant.
  by destruct (decide (p = q)); subst.
Qed.

Lemma reset_scores_ok {F} ps (s : State F) :
  Tournament.reset_scores ps s = (exec (Tournament.reset_scores ps) s, Ok tt).
Proof.
  revert s. induction ps as [|p ps IH]; intros s; [done|].
  unfold exec. simpl. unfold bind; simpl. rewrite IH. done.
Qed.

Lemma keeps_reset_scores {F B} (proj : State F → B) ps :
  (∀ s g, proj (upd_pheap g s) = proj s) →
  keeps proj (Tournament.reset_scores ps).
Proof.
  intros H. induction ps; simpl; [apply keeps_ret|].
  apply keeps_bind; [by apply keeps_upd_participant | done].
Qed.

Lemma reset_scores_score {F} ps : ∀ (s : State F) p,
  score_of (exec (Tournament.reset_scores ps) s) p
  = if decide (p ∈ ps) then 0 else score_of s p.
Proof.
  induction ps as [|p0 ps IH]; intros s p.
  - by rewrite decide_False by apply not_elem_of_nil.
  - change (exec (Tournament.reset_scores (p0 :: ps)) s)
      with (exec (Tournament.reset_scores ps)
                 (exec (upd_participant p0 zero_score) s)).
    rewrite IH. destruct (decide (p ∈ ps)) as [Hin|Hnin].
    + rewrite decide_True; [done | by right].
    + rewrite score_of_upd_participant.
      destruct (decide (p0 = p)) as [->|Hne]; simpl.
      * rewrite decide_True; [done | by left].
      * rewrite decide_False; [done|].
        intros [->|?]%elem_of_cons; done.
Qed.

Lemma active_inv x :
  active x = true →
  ∃ h a, home x = Some h ∧ away x = Some a ∧ winner x = None.
Proof.
  unfold active. intros H.
  apply andb_prop in H as [H Hw]. apply andb_prop in H as [Hh Ha].
  apply bool_decide_eq_true in Hw, Hh, Ha.
  destruct (home x) as [h|]; [|done]. destruct (away x) as [a|]; [|done].
  by exists h, a.
Qed.

(** ** Reporting a result *)

(** The state in which [report_result] hands over to the format's
    [process_match_result]. *)
Lemma report_result_handover {F} (pmr : mref → M F unit) (s : State F)
  m x h a w :
  mheap s !! m = Some x → home x = Some h → away x = Some a →
  w = h ∨ w = a →
  let l := if decide (w = h) then a else h in
  let s1 := upd_fired (λ e, e ++ [on_match_complete m])
             (exec (upd_participant l (add_score 0))
               (exec (upd_participant w (add_score 3))
                 (upd_mheap (alter (set_winner (Some (P w)) (Some (P l))) m)
                            s))) in
  Tournament.report_result pmr m (Some (P w)) s = pmr m s1
  ∧ mheap s1 = alter (set_winner (Some (P w)) (Some (P l))) m (mheap s)
  ∧ fired s1 = fired s ++ [on_match_complete m]
  ∧ matches s1 = matches s ∧ fmt s1 = fmt s
  ∧ ∀ q, score_of s1 q = score_of s q + if decide (q = w) then 3 else 0.
Proof.
  intros Hm Hh Ha Hw l s1.
  split; [|split; [done|split; [done|split; [done|split; [done|]]]]].
  - unfold Tournament.report_result, read_match. unfold bind at 1. rewrite Hm.
    rewrite bool_decide_false by done. rewrite Hh, Ha. simpl.
    unfold upd_match. rewrite bind_modify.
    unfold Tournament.handle_match_result, Tournament.calc_match_points,
      read_match.
    unfold bind at 1. unfold bind at 1. unfold bind at 1. simpl.
    rewrite list_lookup_alter_eq, Hm. simpl.
    subst l s1. destruct (decide (w = h)) as [->|Hne].
    + by rewrite bool_decide_true.
    + rewrite bool_decide_false by congruence. done.
  - intros q. subst s1.
    change (score_of (upd_fired ?f ?s) q) with (score_of s q).
    rewrite !score_of_upd_participant.
    change (score_of (upd_mheap ?f ?s) q) with (score_of s q).
    destruct (decide (l = q)) as [e|Hlq]; simpl.
    + unfold participant, exec, upd_participant; simpl.
      rewrite lookup_insert. rewrite <- e.
      destruct (decide (w = l)) as [e'|Hwl]; simpl.
      * rewrite e'. rewrite decide_True by done.
        unfold score_of, participant; simpl. lia.
      * rewrite decide_False by done. unfold score_of, participant; simpl.
        lia.
    + destruct (decide (w = q)) as [e'|Hwq]; simpl.
      * rewrite decide_True by done. by rewrite <- e'.
      * rewrite decide_False by done. lia.
Qed.

Lemma single_process_keeps_score m q :
  keeps (λ s, score_of s q) (SingleElimination.process_match_result m).
Proof.
  unfold SingleElimination.process_match_result.
  apply keeps_bind; [apply keeps_gets|]. intros f.
  destruct (_ !! m) as [wm|]; [|by apply keeps_trigger_event].
  apply keeps_bind; [apply keeps_read_match|]. intros x.
  destruct (winner x) as [[|w]|]; try apply keeps_raise.
  apply keeps_bind; [apply keeps_score_set_current_match|]. intros _.
  destruct (_ !! wm) as [[hs ws]|]; [|apply keeps_raise].
  apply keeps_bind.
  { destruct (decide _); by apply keeps_upd_match. }
  intros _. apply keeps_bind; [apply keeps_read_match|]. intros y.
  destruct (active y); [by apply keeps_trigger_event | apply keeps_ret].
Qed.

(** ** The round-based format *)

Module SwissFacts.
Import Swiss Pairing.

Lemma same_but_default_refl s : same_but_default s s.
Proof. by repeat split. Qed.

Lemma same_but_default_trans s1 s2 s3 :
  same_but_default s1 s2 → same_but_default s2 s3 → same_but_default s1 s3.
Proof.
  unfold same_but_default. intros (?&?&?&?&?&Hf1) (?&?&?&?&?&Hf2).
  repeat split; try congruence.
Qed.

Lemma setdefault_spec p s :
  ∃ s', setdefault p s = (s', Ok (faced s p)) ∧ same_but_default s s'.
Proof.
  unfold setdefault, faced.
  destruct (opponents (fmt s) !! p) as [l|] eqn:E.
  - exists s. split; [done | apply same_but_default_refl].
  - eexists. split; [done|]. repeat split. intros q. unfold faced; simpl.
    rewrite lookup_insert. destruct (decide (p = q)); subst; by rewrite ?E.
Qed.

Lemma scan_spec home players s :
  ∃ s', scan home players s
        = (s', Ok (snd <$> list_find (λ q, q ∉ faced s home) players))
        ∧ same_but_default s s'.
Proof.
  revert s. induction players as [|q players IH]; intros s; simpl.
  - exists s. split; [done | apply same_but_default_refl].
  - destruct (setdefault_spec home s) as (s1 & H1 & Hs1).
    rewrite (exec_bind _ _ _ _ _ H1).
    destruct (decide (q ∉ faced s home)) as [Hq|Hq].
    + rewrite bool_decide_true by done. by exists s1.
    + rewrite bool_decide_false by done.
      destruct (IH s1) as (s2 & H2 & Hs2). exists s2. split.
      * rewrite H2. destruct Hs1 as (_&_&_&_&_&Hf). rewrite Hf.
        do 2 f_equal. rewrite <- option_fmap_compose.
        apply option_fmap_ext. by intros [].
      * by eapply same_but_default_trans.
Qed.

Lemma remove_first_head a l : remove_first a (a :: l) = l.
Proof. simpl. by rewrite decide_True. Qed.

Lemma remove_first_length a l :
  a ∈ l → S (length (remove_first a l)) = length l.
Proof.
  induction l as [|y l IH]; intros Hin; [by apply elem_of_nil in Hin|].
  simpl. destruct (decide (y = a)); [done|].
  apply elem_of_cons in Hin as [->|Hin]; [done|]. simpl. by rewrite IH.
Qed.

(** The choice of [away]: an exception only on an empty queue; else the
    first player of the queue that [home] has not faced, or the front of
    the queue when [home] has faced them all. *)
Lemma choose_away_spec home players s :
  match choose_away home players s with
  | (s', Ok (away, rest)) =>
      same_but_default s s' ∧ away ∈ players
      ∧ rest = remove_first away players
      ∧ (away ∉ faced s home ∨ ∀ q, q ∈ players → q ∈ faced s home)
  | (s', Raise e) => players = [] ∧ e = IndexError ∧ s' = s
  end.
Proof.
  destruct players as [|p players]; [done|].
  unfold choose_away.
  destruct (scan_spec home (p :: players) s) as (s1 & H1 & Hs1).
  rewrite (exec_bind _ _ _ _ _ H1).
  destruct (list_find _ (p :: players)) as [[i a]|] eqn:E; simpl.
  - apply list_find_Some in E as (Hi & Ha & _).
    split; [done|]. split; [by eapply list_elem_of_lookup_2|]. split; [done|].
    by left.
  - split; [done|]. split; [by left|].
    split; [by rewrite decide_True|]. right.
    intros q Hq. eapply list_find_None in E.
    rewrite Forall_forall in E. specialize (E q Hq). simpl in E.
    by apply dec_stable.
Qed.

(** One turn of the pairing loop. *)
Lemma pair_next_spec home players s :
  match pair_next home players s with
  | (s', Ok rest) =>
      ∃ away, away ∈ players ∧ rest = remove_first away players
        ∧ (away ∉ faced s home ∨ ∀ q, q ∈ players → q ∈ faced s home)
        ∧ mheap s' = mheap s ++ [new_Match (Some home) (Some away)]
        ∧ matches s' = matches s ++ [length (mheap s)]
        ∧ participants s' = participants s
        ∧ (∀ q, score_of s' q = score_of s q)
        ∧ fired s' = fired s ++ [on_match_ready (length (mheap s))]
  | (s', Raise e) => players = [] ∧ e = IndexError ∧ s' = s
  end.
Proof.
  unfold pair_next. pose proof (choose_away_spec home players s) as H.
  unfold bind at 1.
  destruct (choose_away home players s) as [s1 [[away rest]|e]]; [|done].
  destruct H as ((Hp & Hm & Hf & Hms & Hps & _) & Hin & -> & Hforced).
  set (c := bind _ _).
  assert (Hc : ∃ s2, c s1 = (s2, Ok (remove_first away players))
            ∧ mheap s2 = mheap s1 ++ [new_Match (Some home) (Some away)]
            ∧ matches s2 = matches s1 ++ [length (mheap s1)]
            ∧ participants s2 = participants s1
            ∧ fired s2 = fired s1 ++ [on_match_ready (length (mheap s1))]
            ∧ ∀ q, score_of s2 q = score_of s1 q).
  { subst c. unfold bind, add_opponent, bind, setdefault; simpl.
    repeat match goal with
           | |- context [match ?x !! ?k with _ => _ end] =>
               destruct (x !! k) eqn:?; simpl
           end.
    all: eexists; split; [reflexivity|]; simpl; repeat split.
    all: intros q; unfold score_of, participant; simpl.
    all: rewrite !lookup_insert; repeat case_decide; subst; simpl; try done.
    all: rewrite ?lookup_insert; repeat case_decide; subst; simpl; done. }
  destruct Hc as (s2 & -> & Hm2 & Hms2 & Hps2 & Hf2 & Hsc2).
  exists away. repeat split; try done; try congruence.
  intros q. rewrite Hsc2. unfold score_of, participant. by rewrite Hp.
Qed.

(** The pairing loop: it consumes the queue two by two, announcing each
    match it creates, and fails on the participant left alone when the
    queue is odd. *)
Lemma pair_all_spec fuel : ∀ players s,
  (length players ≤ fuel)%nat →
  let s' := exec (pair_all fuel players) s in
  let made := seq (length (mheap s)) (Nat.div2 (length players)) in
  participants s' = participants s
  ∧ (∀ q, score_of s' q = score_of s q)
  ∧ outcome (pair_all fuel players) s
    = (if Nat.even (length players) then Ok tt else Raise IndexError)
  ∧ length (mheap s') = (length (mheap s) + Nat.div2 (length players))%nat
  ∧ matches s' = matches s ++ made
  ∧ fired s' = fired s ++ (on_match_ready <$> made).
Proof.
  induction fuel as [|fuel IH]; intros [|home rest] s Hlen;
    simpl in Hlen; try lia.
  1,2: by cbn; rewrite !app_nil_r, Nat.add_0_r.
  unfold exec, outcome. cbn [pair_all].
  pose proof (pair_next_spec home rest s) as H. unfold bind.
  destruct (pair_next home rest s) as [s1 [rest'|e]].
  - destruct H as (away & Hin & -> & _ & Hmh & Hms & Hps & Hsc & Hf).
    apply remove_first_length in Hin.
    destruct (IH (remove_first away rest) s1)
      as (IH1 & IH2 & IH3 & IH4 & IH5 & IH6); [lia|].
    unfold exec, outcome in *.
    rewrite Hmh, length_app in IH4, IH5, IH6. simpl in IH4, IH5, IH6.
    cbn [length]. rewrite <- Hin. cbn [Nat.div2 Nat.even].
    split; [congruence|]. split; [intros q; by rewrite IH2|].
    split; [done|]. split; [lia|].
    rewrite IH5, IH6, Hms, Hf, <- !app_assoc. cbn.
    by rewrite !Nat.add_1_r.
  - destruct H as (-> & -> & ->). cbn.
    by rewrite !app_nil_r, Nat.add_0_r.
Qed.

Lemma setup_round_outcome s :
  outcome setup_round s
  = if Nat.even (length (participants s)) then Ok tt else Raise IndexError.
Proof.
  unfold outcome, setup_round, Tournament.get_players_by_rank.
  rewrite bind_modify, bind_gets.
  set (players := sorted_reverse _ _). set (s2 := upd_fmt _ _).
  rewrite (outcome_then (pair_all (length players) players)
                        (trigger_event on_start_round) s2 (λ _, eq_refl)
            : snd _ = _).
  destruct (pair_all_spec (length players) players s2)
    as (_ & _ & -> & _); [lia|].
  subst players. by rewrite sorted_reverse_length.
Qed.

(** [start] on any state of the round-based format. *)
Lemma start_outcome s :
  outcome start s
  = if Nat.even (length (participants s)) then Ok tt else Raise IndexError.
Proof.
  unfold outcome, start, Tournament.start.
  rewrite bind_modify, bind_gets.
  rewrite (exec_bind _ _ _ _ _ (reset_scores_ok _ _)).
  set (s1 := exec (Tournament.reset_scores _) _).
  assert (Hps : participants s1 = participants s)
    by apply (keeps_reset_scores participants _ (λ _ _, eq_refl)
                (set_num_players _ s)).
  unfold trigger_event, seed_players. rewrite !bind_modify.
  rewrite <- Hps. apply (setup_round_outcome (upd_fmt _ (upd_fired _ s1))).
Qed.

End SwissFacts.

(** [start] on a new tournament of the round-based format: the matches
    it creates and the events it fires. *)
Lemma swiss_start_spec n ps h :
  let t := Swiss.SwissTournament n ps h in
  let s := exec Swiss.start t in
  let made := seq 0 (Nat.div2 (length ps)) in
  outcome Swiss.start t
  = (if Nat.even (length ps) then Ok tt else Raise IndexError)
  ∧ matches s = made ∧ length (mheap s) = Nat.div2 (length ps)
  ∧ fired s = on_start :: (on_match_ready <$> made)
              ++ (if Nat.even (length ps) then [on_start_round] else []).
Proof.
  intros t s made.
  split; [by rewrite SwissFacts.start_outcome|].
  subst s. unfold exec. destruct (Swiss.start t) as [S r] eqn:E. cbn [fst].
  unfold Swiss.start, Tournament.start in E.
  rewrite bind_modify, bind_gets in E.
  rewrite (exec_bind _ _ _ _ _ (reset_scores_ok _ _)) in E.
  set (s1 := exec (Tournament.reset_scores _) _) in E.
  assert (Hkeep : ∀ B (proj : State Swiss.Fields → B),
            (∀ s g, proj (upd_pheap g s) = proj s) →
            (∀ s k, proj (set_num_players k s) = proj s) →
            proj s1 = proj t).
  { intros B proj H1 H2. unfold s1.
    by rewrite (keeps_reset_scores proj _ H1), H2. }
  unfold trigger_event at 1, Swiss.seed_players in E.
  rewrite !bind_modify in E.
  unfold Swiss.setup_round, Tournament.get_players_by_rank in E.
  rewrite bind_modify, bind_gets in E.
  set (players := sorted_reverse _ _) in E. set (s2 := upd_fmt _ _) in E.
  assert (Hlen : length players = length ps).
  { subst players. rewrite sorted_reverse_perm.
    cbn [participants upd_fmt upd_fired].
    by rewrite (Hkeep _ participants). }
  assert (Hmh2 : mheap s2 = []) by (by apply (Hkeep _ mheap)).
  assert (Hms2 : matches s2 = []) by (by apply (Hkeep _ matches)).
  assert (Hf2 : fired s2 = [on_start]).
  { change (fired s2) with (fired s1 ++ [on_start]).
    by rewrite (Hkeep _ fired). }
  clearbody players s2. clear Hkeep.
  destruct (SwissFacts.pair_all_spec (length players) players s2)
    as (_ & _ & Hout & Hmh & Hms & Hf); [lia|].
  rewrite Hmh2, Hms2, Hf2, Hlen in *.
  assert (HS : S = exec (Swiss.pair_all (length ps) players
                         >> trigger_event on_start_round) s2)
    by (unfold exec; by rewrite E).
  rewrite exec_then, Hout in HS.
  set (X := exec (Swiss.pair_all _ _) s2) in *. clearbody X.
  cbn in Hmh, Hms, Hf. subst S.
  destruct (Nat.even (length ps)).
  - cbn. rewrite Hms, Hmh, Hf. done.
  - rewrite Hms, Hmh, Hf. by rewrite app_nil_r.
Qed.

(** Neither format's advancement step touches a score. *)
Lemma swiss_process_keeps_score m q :
  keeps (λ s, score_of s q) (Swiss.process_match_result m).
Proof.
  assert (Hinc : ∀ ms, keeps (λ s, score_of s q) (Swiss.incomplete ms)).
  { induction ms as [|m' ms IH]; simpl; [apply keeps_ret|].
    apply keeps_bind; [apply keeps_read_match|]. intros x.
    apply keeps_bind; [done|]. intros r. apply keeps_ret. }
  assert (Hsetup : keeps (λ s, score_of s q) Swiss.setup_round).
  { unfold Swiss.setup_round. apply keeps_bind; [by apply keeps_modify|].
    intros _. apply keeps_bind; [apply keeps_gets|]. intros players.
    apply keeps_bind; [|intros _; by apply keeps_trigger_event].
    intros s.
    by destruct (SwissFacts.pair_all_spec (length players) players s)
      as (_ & Hsc & _); [lia|]. }
  unfold Swiss.process_match_result, Swiss.is_round_complete.
  apply keeps_bind.
  { apply keeps_bind; [apply keeps_gets|]. intros ms.
    apply keeps_bind; [apply Hinc|]. intros l. apply keeps_ret. }
  intros [|]; [|apply keeps_ret].
  apply keeps_bind; [apply keeps_gets|]. intros x.
  destruct (bool_decide _); [done|]. by apply keeps_trigger_event.
Qed.

(** ** The elimination format: seeding *)

Module SingleFacts.
Import SingleElimination Bracket.

Lemma half_double k : (2 * k / 2)%nat = k.
Proof. rewrite Nat.mul_comm. apply Nat.div_mul. lia. Qed.

Lemma first_round_nil : first_round [] = [].
Proof. done. Qed.

Lemma first_round_cons h mid a k :
  length mid = (2 * k)%nat →
  first_round (h :: mid ++ [a])
  = new_Match (Some h) (Some a) :: first_round mid.
Proof.
  intros Hlen. unfold first_round.
  replace (length (h :: mid ++ [a])) with (2 * S k)%nat
    by (rewrite length_cons, length_app, Hlen; simpl; lia).
  rewrite Hlen, !half_double.
  simpl. rewrite take_app_le, drop_app_le by lia.
  by rewrite reverse_app.
Qed.

Lemma first_round_length q k :
  length q = (2 * k)%nat → length (first_round q) = k.
Proof.
  intros Hlen. unfold first_round.
  replace (length q / 2)%nat with k by (by rewrite Hlen, half_double).
  rewrite length_zip_with, length_take, length_reverse, length_drop. lia.
Qed.

(** Front meets back, by position. *)
Lemma first_round_lookup q k i :
  length q = (2 * k)%nat → (i < k)%nat →
  ∃ h a, q !! i = Some h ∧ q !! (2 * k - 1 - i)%nat = Some a
         ∧ first_round q !! i = Some (new_Match (Some h) (Some a)).
Proof.
  intros Hlen Hi. unfold first_round.
  replace (length q / 2)%nat with k by (by rewrite Hlen, half_double).
  destruct (lookup_lt_is_Some_2 q i) as [h Hh]; [lia|].
  destruct (lookup_lt_is_Some_2 q (2 * k - 1 - i)) as [a Ha]; [lia|].
  exists h, a. split; [done|]. split; [done|].
  rewrite lookup_zip_with. rewrite lookup_take_lt, Hh by done. simpl.
  rewrite reverse_lookup by (rewrite length_drop; lia).
  rewrite length_drop, lookup_drop.
  replace (k + (length q - k - S i))%nat with (2 * k - 1 - i)%nat by lia.
  by rewrite Ha.
Qed.

(** The first loop of [seed_players] on a queue of even length. *)
Lemma seed_first_round_spec k : ∀ fuel q mq s,
  length q = (2 * k)%nat → (length q ≤ fuel)%nat →
  ∃ s', seed_first_round fuel q mq s
        = (s', Ok (mq ++ seq (length (mheap s)) k))
    ∧ mheap s' = mheap s ++ first_round q
    ∧ matches s' = matches s ∧ fmt s' = fmt s
    ∧ ∀ p, score_of s' p = score_of s p.
Proof.
  induction k as [|k IH]; intros fuel q mq s Hlen Hfuel.
  - destruct q; [|done]. exists s. destruct fuel; simpl;
      rewrite !app_nil_r; done.
  - destruct q as [|h q1]; [done|]. simpl in Hlen.
    destruct fuel as [|fuel]; [simpl in Hfuel; lia|].
    destruct (exists_last (l:=q1)) as (mid & a & ->);
      [intros ->; simpl in Hlen; lia|].
    rewrite length_app in Hlen. simpl in *.
    rewrite last_snoc, removelast_last.
    unfold set_score, set_current_match, upd_participant, alloc_Match,
      trigger_event.
    rewrite !bind_modify. unfold bind at 1. rewrite bind_modify.
    rewrite !bind_modify. simpl.
    match goal with |- context [seed_first_round fuel mid ?mq' ?s1] =>
      destruct (IH fuel mid mq' s1) as (s' & -> & Hm & Hms & Hf & Hsc);
      [lia | simpl in Hfuel; rewrite length_app in Hfuel; simpl in Hfuel; lia |]
    end.
    exists s'. simpl in *. rewrite length_app in *. simpl in *.
    split; [|split; [|split; [done|split; [done|]]]].
    + rewrite <- app_assoc. simpl. by rewrite Nat.add_1_r.
    + rewrite Hm, <- app_assoc. f_equal.
      by rewrite (first_round_cons h mid a k) by lia.
    + intros p. rewrite Hsc. clear.
      unfold score_of, participant; simpl.
      repeat (rewrite lookup_insert; case_decide; simpl; subst); done.
Qed.

(** The second loop of [seed_players], from a queue holding the [n]
    matches allocated last. *)
Lemma build_bracket_spec n : ∀ fuel a s,
  length (mheap s) = (a + S n)%nat → (S n ≤ fuel)%nat →
  ∃ s', build_bracket fuel (seq a (S n)) s = (s', Ok [(a + 2 * n)%nat])
    ∧ mheap s' = mheap s ++ replicate n (new_Match None None)
    ∧ matches s' = matches s ++ seq a (2 * n)
    ∧ pheap s' = pheap s
    ∧ (∀ j, (j < n)%nat →
         bracket (fmt s') !! (a + 2 * j)%nat = Some (a + S n + j)%nat
         ∧ bracket (fmt s') !! (a + 2 * j + 1)%nat = Some (a + S n + j)%nat
         ∧ sources (fmt s') !! (a + S n + j)%nat
           = Some ((a + 2 * j)%nat, (a + 2 * j + 1)%nat))
    ∧ (∀ m, ¬ (a ≤ m < a + 2 * n)%nat →
         bracket (fmt s') !! m = bracket (fmt s) !! m)
    ∧ (∀ p, ¬ (a + S n ≤ p < a + S n + n)%nat →
         sources (fmt s') !! p = sources (fmt s) !! p).
Proof.
  induction n as [|n IH]; intros fuel a s Hlen Hfuel.
  - exists s. destruct fuel; [lia|]. simpl.
    rewrite !app_nil_r, Nat.add_0_r.
    repeat split; try done; intros; exfalso; lia.
  - destruct fuel as [|fuel]; [lia|].
    change (seq a (S (S n))) with (a :: S a :: seq (S (S a)) n).
    cbn [build_bracket]. unfold alloc_Match. unfold bind at 1.
    rewrite !bind_modify.
    assert (Hq : seq (S (S a)) n ++ [length (mheap s)] = seq (S (S a)) (S n)).
    { rewrite Hlen. replace (a + S (S n))%nat with (S (S a) + n)%nat by lia.
      by rewrite <- seq_S. }
    rewrite Hq.
    match goal with |- context [build_bracket fuel _ ?s1] =>
      destruct (IH fuel (S (S a)) s1)
        as (s' & -> & Hm & Hms & Hp & Hj & Hb & Hs);
      [simpl; rewrite length_app; simpl; lia | lia |]
    end.
    exists s'.
    cbn [mheap matches pheap fmt upd_matches upd_fmt upd_mheap bracket
         sources] in *.
    split; [do 3 f_equal; lia|].
    split; [rewrite Hm, <- app_assoc; done|].
    split.
    { rewrite Hms, <- app_assoc. f_equal.
      by replace (2 * S n)%nat with (S (S (2 * n))) by lia. }
    split; [done|]. rewrite Hlen in *.
    split; [|split].
    + intros j Hjlt. destruct j as [|j].
      * replace (a + 2 * 0)%nat with a by lia.
        replace (a + S (S n) + 0)%nat with (a + S (S n))%nat by lia.
        rewrite Hb by lia. rewrite Hb by lia. rewrite Hs by lia.
        rewrite lookup_insert_ne by lia. rewrite lookup_insert_eq.
        replace (a + 1)%nat with (S a) by lia.
        rewrite !lookup_insert_eq. done.
      * destruct (Hj j) as (H1 & H2 & H3); [lia|].
        replace (a + 2 * S j)%nat with (S (S a) + 2 * j)%nat by lia.
        replace (a + S (S n) + S j)%nat with (S (S a) + S n + j)%nat by lia.
        done.
    + intros m Hm'. rewrite Hb by lia.
      rewrite !lookup_insert_ne by lia. done.
    + intros p Hp'. rewrite Hs by lia.
      rewrite lookup_insert_ne by lia. done.
Qed.

(** A report on a match with both slots assigned, in a state whose
    parent lookup leads to matches that exist: the effect on the state. *)
Lemma report_step s m x h a w :
  mheap s !! m = Some x → home x = Some h → away x = Some a →
  w = h ∨ w = a →
  (∀ p, bracket (fmt s) !! m = Some p →
        ∃ t b y, sources (fmt s) !! p = Some (t, b) ∧ mheap s !! p = Some y) →
  let l := if decide (w = h) then a else h in
  let mh1 := alter (set_winner (Some (P w)) (Some (P l))) m (mheap s) in
  ∃ s', report_result m (Some (P w)) s = (s', Ok tt)
    ∧ fmt s' = fmt s ∧ matches s' = matches s
    ∧ (∀ q, score_of s' q = score_of s q + if decide (q = w) then 3 else 0)
    ∧ match bracket (fmt s) !! m with
      | None =>
          mheap s' = mh1
          ∧ fired s' = fired s ++ [on_match_complete m; on_complete]
      | Some p =>
          ∃ t b, sources (fmt s) !! p = Some (t, b)
            ∧ mheap s' = alter (if decide (m = t) then set_home (Some w)
                                else set_away (Some w)) p mh1
            ∧ fired s' = fired s ++ on_match_complete m ::
                (if from_option active false (mheap s' !! p)
                 then [on_match_ready p] else [])
      end.
Proof.
  intros Hm Hh Ha Hw Hpar l mh1.
  destruct (report_result_handover process_match_result s m x h a w
              Hm Hh Ha Hw) as (Heq & Hm1 & Hf1 & Hms1 & Hfmt1 & Hsc1).
  fold l in Heq, Hm1, Hsc1. fold mh1 in Hm1.
  set (s1 := upd_fired _ _) in *. clearbody s1.
  assert (Hsc : ∀ q, score_of (exec (process_match_result m) s1) q
                     = score_of s q + if decide (q = w) then 3 else 0).
  { intros q. rewrite <- Hsc1. apply (single_process_keeps_score m q). }
  unfold report_result. rewrite Heq. clear Heq.
  cut (∃ s', process_match_result m s1 = (s', Ok tt)
    ∧ fmt s' = fmt s ∧ matches s' = matches s
    ∧ match bracket (fmt s) !! m with
      | None =>
          mheap s' = mh1
          ∧ fired s' = fired s ++ [on_match_complete m; on_complete]
      | Some p =>
          ∃ t b, sources (fmt s) !! p = Some (t, b)
            ∧ mheap s' = alter (if decide (m = t) then set_home (Some w)
                                else set_away (Some w)) p mh1
            ∧ fired s' = fired s ++ on_match_complete m ::
                (if from_option active false (mheap s' !! p)
                 then [on_match_ready p] else [])
      end).
  { intros (s' & Hrun & ? & ? & ?). exists s'.
    split; [done|]. split; [done|]. split; [done|]. split; [|done].
    intros q. specialize (Hsc q). unfold exec in Hsc.
    by rewrite Hrun in Hsc. }
  clear Hsc.
  unfold process_match_result. rewrite bind_gets, Hfmt1.
  destruct (bracket (fmt s) !! m) as [p|] eqn:Hb.
  - destruct (Hpar p eq_refl) as (t & b & y & Hsrc & Hy).
    assert (Hm1' : mheap s1 !! m
                   = Some (set_winner (Some (P w)) (Some (P l)) x)).
    { rewrite Hm1. unfold mh1. by rewrite list_lookup_alter_eq, Hm. }
    rewrite (bind_read_match _ _ _ _ Hm1'). cbn [winner set_winner].
    rewrite Hsrc.
    unfold set_current_match, upd_participant, upd_match.
    rewrite !bind_modify.
    destruct (lookup_lt_is_Some_2 mh1 p) as [y1 Hy1].
    { unfold mh1. rewrite length_alter. by eapply lookup_lt_Some. }
    set (f := if decide (m = t) then set_home (Some w) else set_away (Some w)).
    assert (Hread : ∀ s2 : State Fields, mheap s2 = alter f p mh1 →
              mheap s2 !! p = Some (f y1)).
    { intros s2 Hs2. by rewrite Hs2, list_lookup_alter_eq, Hy1. }
    subst f.
    destruct (decide (m = t)) as [Hmt|Hmt]; rewrite !bind_modify;
      (erewrite bind_read_match by (apply Hread; simpl; by rewrite Hm1));
      match goal with |- context [active ?z] =>
        destruct (active z) eqn:Hact end;
      eexists; (split; [reflexivity|]); simpl;
      (split; [done|]); (split; [done|]);
      exists t, b; (split; [done|]); rewrite Hm1;
      [rewrite (decide_True (P:=m = t)) by done
      |rewrite (decide_True (P:=m = t)) by done
      |rewrite (decide_False (P:=m = t)) by done
      |rewrite (decide_False (P:=m = t)) by done];
      (split; [done|]);
      rewrite list_lookup_alter_eq, Hy1; simpl; rewrite Hact, Hf1;
      by rewrite <- ?app_assoc.
  - eexists. split; [reflexivity|]. simpl.
    split; [done|]. split; [done|].
    split; [done|]. rewrite Hf1. by rewrite <- app_assoc.
Qed.

Lemma shape_parent k s m p :
  shape k s → bracket (fmt s) !! m = Some p →
  ∃ j, (j < k - 1)%nat ∧ p = (k + j)%nat
       ∧ (m = (2 * j)%nat ∨ m = (2 * j + 1)%nat)
       ∧ sources (fmt s) !! p = Some ((2 * j)%nat, (2 * j + 1)%nat)
       ∧ is_Some (mheap s !! p).
Proof.
  intros (Hlen & _ & Hj & Hnone & _) Hb.
  destruct (decide (2 * (k - 1) ≤ m)%nat) as [Hge|Hlt];
    [by rewrite Hnone in Hb|].
  destruct (Nat.Even_or_Odd m) as [[j ->]|[j ->]].
  - destruct (Hj j) as (H1 & _ & H3); [lia|].
    rewrite H1 in Hb. inversion Hb; subst. exists j.
    split; [lia|]. split; [done|]. split; [by left|]. split; [done|].
    apply lookup_lt_is_Some_2. lia.
  - destruct (Hj j) as (_ & H2 & H3); [lia|].
    rewrite H2 in Hb. inversion Hb; subst. exists j.
    split; [lia|]. split; [done|]. split; [by right|]. split; [done|].
    apply lookup_lt_is_Some_2. lia.
Qed.

Lemma shape_sources k s p t b :
  shape k s → sources (fmt s) !! p = Some (t, b) →
  ∃ j, (j < k - 1)%nat ∧ p = (k + j)%nat
       ∧ t = (2 * j)%nat ∧ b = (2 * j + 1)%nat.
Proof.
  intros (Hlen & _ & Hj & _ & Hnone) Hs.
  destruct (decide (k ≤ p < 2 * k - 1)%nat) as [Hin|Hout];
    [|by rewrite Hnone in Hs].
  exists (p - k)%nat. destruct (Hj (p - k)%nat) as (_ & _ & H3); [lia|].
  replace (k + (p - k))%nat with p in H3 by lia.
  rewrite H3 in Hs. inversion Hs. repeat split; lia.
Qed.

(** The match heap after a report: the reported match [m] gets its
    result, its parent [p] (if any) gets a slot. *)
Lemma alter2_lookup (mh : list Match) m p (g f : Match → Match) i x :
  mh !! i = Some x →
  alter f p (alter g m mh) !! i
  = Some ((if decide (p = i) then f else id)
            ((if decide (m = i) then g else id) x)).
Proof.
  intros H. rewrite !list_lookup_alter.
  repeat case_decide; subst; rewrite ?H; simpl; congruence.
Qed.

(** A report in a bracket of the shape above. *)
Lemma report_effect k s m x h a w :
  shape k s →
  mheap s !! m = Some x → home x = Some h → away x = Some a →
  w = h ∨ w = a →
  ∃ s', report_result m (Some (P w)) s = (s', Ok tt)
    ∧ shape k s' ∧ fmt s' = fmt s
    ∧ (∀ q, score_of s' q = score_of s q + if decide (q = w) then 3 else 0)
    ∧ mheap s' !! m
      = Some (set_winner (Some (P w))
                (Some (P (if decide (w = h) then a else h))) x)
    ∧ (∀ i, i ≠ m → bracket (fmt s) !! m ≠ Some i →
            mheap s' !! i = mheap s !! i)
    ∧ (∀ p y, bracket (fmt s) !! m = Some p → mheap s !! p = Some y →
         ∃ t b, sources (fmt s) !! p = Some (t, b)
           ∧ (m = t ∨ m = b) ∧ t ≠ b ∧ p ≠ m
           ∧ mheap s' !! p
             = Some (if decide (m = t) then set_home (Some w) y
                     else set_away (Some w) y))
    ∧ fired s' = fired s ++ on_match_complete m :: advancement_events s s' m.
Proof.
  intros Hshape Hm Hh Ha Hw.
  destruct (report_step s m x h a w Hm Hh Ha Hw) as
    (s' & Hrun & Hfmt & Hms & Hsc & Hcase).
  { intros p Hb.
    destruct (shape_parent k s m p Hshape Hb) as (j & _ & _ & _ & Hs & [y Hy]).
    eauto. }
  exists s'. split; [done|].
  assert (Hlen : length (mheap s') = length (mheap s)).
  { destruct (bracket (fmt s) !! m) as [p|].
    - destruct Hcase as (t & b & _ & -> & _). by rewrite !length_alter.
    - destruct Hcase as (-> & _). by rewrite length_alter. }
  split.
  { destruct Hshape as (H1 & H2 & H3). unfold shape.
    by rewrite Hlen, Hms, Hfmt. }
  split; [done|]. split; [done|].
  unfold advancement_events.
  destruct (bracket (fmt s) !! m) as [p|] eqn:Hb.
  - destruct Hcase as (t & b & Hsrc & Hmh & Hf).
    destruct (shape_parent k s m p Hshape Hb)
      as (j & Hj & -> & Hmj & Hsrc' & _).
    rewrite Hsrc in Hsrc'. inversion Hsrc'; subst t b. clear Hsrc'.
    assert (Hpm : (k + j)%nat ≠ m) by (destruct Hmj; lia).
    split.
    { rewrite Hmh. erewrite alter2_lookup by done.
      rewrite decide_False by done. by rewrite decide_True. }
    split.
    { intros i Him Hip. rewrite Hmh, !list_lookup_alter_ne; [done|done|].
      congruence. }
    split; [|done].
    intros p y Hp Hy. inversion Hp; subst p.
    exists (2 * j)%nat, (2 * j + 1)%nat.
    split; [done|]. split; [done|]. split; [lia|]. split; [done|].
    rewrite Hmh. erewrite alter2_lookup by done.
    rewrite decide_True by done.
    rewrite (decide_False (P:=m = (k + j)%nat)) by lia.
    simpl. by destruct (decide (m = (j + (j + 0))%nat)).
  - destruct Hcase as (Hmh & Hf).
    split; [by rewrite Hmh, list_lookup_alter_eq, Hm|].
    split; [intros i Him _; by rewrite Hmh, list_lookup_alter_ne|].
    split; [done|]. done.
Qed.

(** Winners are never taken back by a report, and slots never emptied. *)
Lemma report_effect_lookup k s m x h a w s' i y :
  shape k s →
  mheap s !! m = Some x → home x = Some h → away x = Some a →
  w = h ∨ w = a →
  report_result m (Some (P w)) s = (s', Ok tt) →
  mheap s !! i = Some y →
  ∃ y', mheap s' !! i = Some y'
    ∧ (i = m → winner y' = Some (P w) ∧ home y' = home y ∧ away y' = away y)
    ∧ (i ≠ m → winner y' = winner y
               ∧ (home y' = home y ∨ home y' = Some w)
               ∧ (away y' = away y ∨ away y' = Some w))
    ∧ (bracket (fmt s) !! m ≠ Some i → i ≠ m → y' = y).
Proof.
  intros Hshape Hm Hh Ha Hw Hrun Hy.
  destruct (report_effect k s m x h a w Hshape Hm Hh Ha Hw)
    as (s'' & Hrun' & _ & _ & _ & Hmi & Hother & Hpar & _).
  rewrite Hrun in Hrun'. inversion Hrun'; subst s''. clear Hrun'.
  destruct (decide (i = m)) as [->|Him].
  - rewrite Hm in Hy. inversion Hy; subst y. eexists. split; [exact Hmi|].
    split; [done|]. split; [done|]. done.
  - destruct (decide (bracket (fmt s) !! m = Some i)) as [Hb|Hb].
    + destruct (Hpar i y Hb Hy) as (t & b & _ & _ & _ & _ & Hi).
      eexists. split; [exact Hi|]. split; [done|].
      split; [|done]. intros _.
      destruct (decide (m = t)); simpl; auto.
    + eexists. split; [by rewrite Hother|]. split; [done|].
      split; [auto|]. done.
Qed.

Lemma fed_report k s m x h a w s' :
  shape k s → fed s →
  mheap s !! m = Some x → home x = Some h → away x = Some a →
  w = h ∨ w = a →
  report_result m (Some (P w)) s = (s', Ok tt) →
  fed s'.
Proof.
  intros Hshape Hfed Hm Hh Ha Hw Hrun.
  destruct (report_effect k s m x h a w Hshape Hm Hh Ha Hw)
    as (s'' & Hrun' & Hshape' & Hfmt & _ & Hmi & Hother & Hpar & _).
  rewrite Hrun in Hrun'. inversion Hrun'; subst s''. clear Hrun'.
  assert (Hmono : ∀ i y, mheap s !! i = Some y → winner y ≠ None →
            ∃ y', mheap s' !! i = Some y' ∧ winner y' ≠ None).
  { intros i y Hy Hwin.
    destruct (report_effect_lookup k s m x h a w s' i y)
      as (y' & Hy' & Heq & Hne & _); try done.
    exists y'. split; [done|]. destruct (decide (i = m)) as [e|n].
    - destruct (Heq e) as (-> & _). done.
    - destruct (Hne n) as (-> & _). done. }
  intros p t b y' Hsrc Hy'. rewrite Hfmt in Hsrc.
  destruct (lookup_lt_is_Some_2 (mheap s) p) as [y Hy].
  { destruct Hshape as (Hl & _), Hshape' as (Hl' & _).
    apply lookup_lt_Some in Hy'. lia. }
  destruct (Hfed p t b y Hsrc Hy) as (Hhome & Haway).
  set (xm := set_winner (Some (P w))
               (Some (P (if decide (w = h) then a else h))) x) in *.
  destruct (decide (p = m)) as [->|Hpm].
  { rewrite Hm in Hy. inversion Hy; subst y. rewrite Hmi in Hy'.
    inversion Hy'; subst y'. simpl.
    split; intros Hs; [destruct (Hhome Hs) as (x1 & Hx1 & Hw1)
                      |destruct (Haway Hs) as (x1 & Hx1 & Hw1)]; eauto. }
  destruct (decide (bracket (fmt s) !! m = Some p)) as [Hb|Hb].
  - destruct (Hpar _ y Hb Hy) as (t' & b' & Hsrc' & Hmt & Htb & _ & Hnew).
    rewrite Hsrc in Hsrc'. inversion Hsrc'; subst t' b'. clear Hsrc'.
    rewrite Hnew in Hy'. inversion Hy'; subst y'. clear Hy'.
    destruct (decide (m = t)) as [e|n]; simpl.
    + split; [intros _; exists xm; by rewrite <- e|].
      intros Haw. destruct (Haway Haw) as (x1 & Hx1 & Hw1). eauto.
    + destruct Hmt as [?|e]; [done|].
      split; [intros Hho; destruct (Hhome Hho) as (x1 & Hx1 & Hw1); eauto|].
      intros _. exists xm. by rewrite <- e.
  - rewrite Hother in Hy' by done. rewrite Hy in Hy'.
    inversion Hy'; subst y'.
    split; intros Hs; [destruct (Hhome Hs) as (x1 & Hx1 & Hw1)
                      |destruct (Haway Hs) as (x1 & Hx1 & Hw1)]; eauto.
Qed.

Lemma byes_won_snoc p l x :
  byes_won p (l ++ [x])
  = (byes_won p l + if decide (bye_of p x) then 1 else 0)%nat.
Proof.
  unfold byes_won. rewrite filter_app, length_app, filter_cons, filter_nil.
  by destruct (decide (bye_of p x)).
Qed.

Section Seeding.
Variables (ps : list pid) (k : nat).
Hypothesis Hk : (k ≤ length ps ≤ 2 * k)%nat.
Hypothesis Hps : (2 ≤ length ps)%nat.
Hypothesis HBY : BY ∉ ps.
Local Abbreviation player_queue := (Bracket.player_queue ps k).
Local Abbreviation seeded := (Bracket.seeded ps k).

Lemma player_queue_length : length player_queue = (2 * k)%nat.
Proof. unfold player_queue. rewrite length_app, length_replicate. lia. Qed.

Lemma player_queue_front i h :
  (i < k)%nat → player_queue !! i = Some h → ps !! i = Some h ∧ h ≠ BY.
Proof.
  intros Hi Hq. unfold player_queue in Hq.
  rewrite lookup_app_l in Hq by lia. split; [done|].
  intros ->. apply HBY. by eapply list_elem_of_lookup_2.
Qed.

Lemma player_queue_bye i :
  player_queue !! i = Some BY → (length ps ≤ i)%nat.
Proof.
  intros Hq. destruct (decide (length ps ≤ i)%nat) as [|Hlt]; [done|].
  unfold player_queue in Hq. rewrite lookup_app_l in Hq by lia.
  exfalso. apply HBY. by eapply list_elem_of_lookup_2.
Qed.

Lemma seeded_skip i sc0 s x :
  seeded i sc0 s → mheap s !! i = Some x → away x ≠ Some BY →
  seeded (S i) sc0 s.
Proof.
  intros (Hsh & HB & HC & HD & HE & HF) Hx Hnb.
  split; [done|]. split; [done|]. split; [done|]. split; [done|]. split.
  - intros m y Hm Hy Haw. destruct (decide (m = i)) as [->|Hne].
    + rewrite Hx in Hy. by inversion Hy; subst.
    + apply (HE m y); [lia|done|done].
  - intros p. rewrite HF. erewrite take_S_r by done.
    rewrite byes_won_snoc. rewrite decide_False; [lia|].
    intros [_ ?]. done.
Qed.

Lemma seeded_bye i sc0 s x :
  seeded i sc0 s → mheap s !! i = Some x → away x = Some BY →
  ∃ h s', home x = Some h
    ∧ report_result i (Some (P h)) s = (s', Ok tt)
    ∧ seeded (S i) sc0 s'.
Proof.
  intros (Hsh & HB & HC & HD & HE & HF) Hx Hbye.
  assert (Hik : (i < k)%nat).
  { destruct (decide (i < k)%nat) as [|Hge]; [done|].
    destruct (HC i x) as (_ & Hn); [lia|done|done]. }
  destruct (HB i Hik) as (x' & h & a & Hx' & Hqh & Hqa & Hh & Ha).
  rewrite Hx in Hx'. inversion Hx'; subst x'. clear Hx'.
  rewrite Hbye in Ha. inversion Ha; subst a. clear Ha.
  destruct (player_queue_front i h Hik Hqh) as (Hpsi & HhBY).
  apply player_queue_bye in Hqa.
  destruct (report_effect k s i x h BY h Hsh Hx Hh Hbye (or_introl eq_refl))
    as (s' & Hrun & Hsh' & Hfmt & Hsc & Hmi & Hother & Hpar & _).
  rewrite decide_True in Hmi by done.
  exists h, s'. split; [done|]. split; [done|].
  assert (Hparent : ∀ p, bracket (fmt s) !! i = Some p → (k ≤ p)%nat).
  { intros p Hb. destruct (shape_parent k s i p Hsh Hb) as (j & _ & -> & _).
    lia. }
  assert (Hlow : ∀ m, (m < k)%nat → m ≠ i → mheap s' !! m = mheap s !! m).
  { intros m Hm Hne. apply Hother; [done|]. intros Hb.
    apply Hparent in Hb. lia. }
  split; [done|]. split; [|split; [|split; [|split]]].
  - intros m Hm. destruct (decide (m = i)) as [->|Hne].
    + exists (set_winner (Some (P h)) (Some (P BY)) x), h, BY.
      destruct (HB i Hik) as (x' & h' & a' & Hx' & Hqh' & Hqa' & Hh' & Ha').
      rewrite Hx in Hx'. inversion Hx'; subst x'.
      rewrite Hh in Hh'. inversion Hh'; subst h'.
      rewrite Hbye in Ha'. inversion Ha'; subst a'. done.
    + destruct (HB m Hm) as (y & h' & a' & Hy & ?). exists y, h', a'.
      by rewrite Hlow.
  - intros m y' Hm Hy'.
    destruct (lookup_lt_is_Some_2 (mheap s) m) as [y Hy].
    { destruct Hsh as (Hl & _), Hsh' as (Hl' & _).
      apply lookup_lt_Some in Hy'. lia. }
    destruct (HC m y Hm Hy) as (Hwy & Hay).
    destruct (decide (bracket (fmt s) !! i = Some m)) as [Hb|Hb].
    + destruct (Hpar m y Hb Hy) as (t & b & _ & _ & _ & _ & Hnew).
      rewrite Hnew in Hy'. inversion Hy'; subst y'.
      destruct (decide (i = t)); simpl; split; try done. congruence.
    + rewrite Hother in Hy' by (done || lia). rewrite Hy in Hy'.
      by inversion Hy'; subst y'.
  - exact (fed_report k s i x h BY h s' Hsh HD Hx Hh Hbye
             (or_introl eq_refl) Hrun).
  - intros m y' Hm Hy' Haw. destruct (decide (m = i)) as [->|Hne].
    + rewrite Hmi in Hy'. inversion Hy'; subst y'. by exists h.
    + rewrite Hlow in Hy' by (done || lia). apply (HE m y'); [lia|done|done].
  - intros p. rewrite Hsc, HF. erewrite take_S_r by done.
    rewrite byes_won_snoc.
    replace (take i (mheap s')) with (take i (mheap s)).
    2:{ apply list_eq. intros j. destruct (decide (j < i)%nat) as [Hj|Hj].
        - rewrite !lookup_take_lt by done. symmetry. apply Hlow; lia.
        - rewrite !lookup_take_ge by lia. done. }
    destruct (decide (p = h)) as [->|Hne].
    + rewrite decide_True by done. lia.
    + rewrite decide_False; [lia|]. intros [Hhp _]. simpl in Hhp. congruence.
Qed.

Lemma resolve_byes_spec n : ∀ i sc0 s,
  (i + n = 2 * k - 1)%nat → seeded i sc0 s →
  ∃ s', resolve_byes (seq i n) s = (s', Ok tt) ∧ seeded (2 * k - 1) sc0 s'.
Proof.
  induction n as [|n IH]; intros i sc0 s Hin Hseed.
  - exists s. split; [done|]. by replace (2 * k - 1)%nat with i by lia.
  - destruct (lookup_lt_is_Some_2 (mheap s) i) as [x Hx].
    { destruct Hseed as ((Hl & _) & _). lia. }
    simpl. rewrite (bind_read_match _ _ _ _ Hx).
    destruct (decide (away x = Some BY)) as [Hbye|Hnb].
    + rewrite bool_decide_true by done.
      destruct (seeded_bye i sc0 s x Hseed Hx Hbye)
        as (h & s' & Hh & Hrun & Hseed').
      rewrite Hh. simpl. rewrite (exec_bind _ _ _ _ _ Hrun).
      apply IH; [lia|done].
    + rewrite bool_decide_false by done. rewrite bind_ret.
      apply IH; [lia|]. by eapply seeded_skip.
Qed.

End Seeding.

Section OutsideBracket.
Context {B : Type} (proj : State Fields → B).
Hypothesis Hproj : outside_bracket proj.

Lemma keeps_seed_first_round fuel : ∀ q mq,
  keeps proj (seed_first_round fuel q mq).
Proof.
  pose proof Hproj as (H1 & H2 & H3 & H4 & H5).
  induction fuel as [|fuel IH]; intros [|h q] mq; simpl;
    try apply keeps_ret; try apply keeps_raise.
  destruct (last q); [|apply keeps_raise].
  repeat (apply keeps_bind;
          [first [by apply keeps_upd_participant
                 |by apply keeps_alloc_Match
                 |by apply keeps_trigger_event]|intros ?]).
  apply IH.
Qed.

Lemma keeps_build_bracket fuel : ∀ mq, keeps proj (build_bracket fuel mq).
Proof.
  pose proof Hproj as (H1 & H2 & H3 & H4 & H5).
  induction fuel as [|fuel IH]; intros [|t [|b mq]]; simpl;
    try apply keeps_ret; try apply keeps_raise.
  apply keeps_bind; [by apply keeps_alloc_Match|]. intros m.
  apply keeps_bind; [apply keeps_modify; intros s; by apply H5|]. intros _.
  apply keeps_bind; [by apply keeps_modify|]. intros _. apply IH.
Qed.

Lemma keeps_process_match_result m : keeps proj (process_match_result m).
Proof.
  pose proof Hproj as (H1 & H2 & H3 & H4 & H5).
  unfold process_match_result.
  apply keeps_bind; [apply keeps_gets|]. intros f.
  destruct (_ !! m) as [wm|]; [|by apply keeps_trigger_event].
  apply keeps_bind; [apply keeps_read_match|]. intros x.
  destruct (winner x) as [[|w]|]; try apply keeps_raise.
  apply keeps_bind; [by apply keeps_upd_participant|]. intros _.
  destruct (_ !! wm) as [[hs ws]|]; [|apply keeps_raise].
  apply keeps_bind.
  { destruct (decide _); by apply keeps_upd_match. }
  intros _. apply keeps_bind; [apply keeps_read_match|]. intros y.
  destruct (active y); [by apply keeps_trigger_event | apply keeps_ret].
Qed.

Lemma keeps_report_result m w : keeps proj (report_result m w).
Proof.
  pose proof Hproj as (H1 & H2 & H3 & H4 & H5).
  unfold report_result, Tournament.report_result.
  apply keeps_bind; [apply keeps_read_match|]. intros x.
  apply keeps_bind; [by apply keeps_upd_match|]. intros _.
  unfold Tournament.handle_match_result, Tournament.calc_match_points.
  apply keeps_bind.
  { apply keeps_bind; [apply keeps_read_match|]. intros y.
    destruct (bool_decide _);
      (apply keeps_bind; [by apply keeps_upd_attr|]; intros _;
       by apply keeps_upd_attr). }
  intros _. apply keeps_bind; [by apply keeps_trigger_event|]. intros _.
  apply keeps_process_match_result.
Qed.

Lemma keeps_resolve_byes ms : keeps proj (resolve_byes ms).
Proof.
  induction ms as [|m ms IH]; simpl; [apply keeps_ret|].
  apply keeps_bind; [apply keeps_read_match|]. intros x.
  apply keeps_bind; [|done].
  destruct (bool_decide _); [apply keeps_report_result | apply keeps_ret].
Qed.

Lemma keeps_seeding fuel q :
  keeps proj
    (let* mq := seed_first_round fuel q [] in
     let* mq := build_bracket (length mq) mq in
     match last mq with
     | None => raise IndexError
     | Some final =>
         modify (upd_matches (λ l, l ++ [final])) >>
         let* ms := gets matches in
         resolve_byes ms
     end).
Proof.
  apply keeps_bind; [apply keeps_seed_first_round|]. intros mq.
  apply keeps_bind; [apply keeps_build_bracket|]. intros mq'.
  destruct (last mq'); [|apply keeps_raise].
  apply keeps_bind.
  { apply keeps_modify. intros s. apply Hproj. }
  intros _. apply keeps_bind; [apply keeps_gets|]. intros ms.
  apply keeps_resolve_byes.
Qed.

End OutsideBracket.

Lemma outside_bracket_participants : outside_bracket participants.
Proof. by repeat split. Qed.

Lemma outside_bracket_field :
  outside_bracket (λ s, (rounds (fmt s), field_size (fmt s))).
Proof.
  repeat split; try done. intros s g Hg. simpl.
  by destruct (Hg (fmt s)) as [-> ->].
Qed.

(** The field: for [n >= 2] participants, [2 ^ log2_up n] is twice a
    power of two that is below [n]. *)
Lemma field_half n :
  (2 ≤ n)%nat →
  let k := (2 ^ (Nat.log2_up n - 1))%nat in
  (2 ^ Nat.log2_up n = 2 * k)%nat ∧ (1 ≤ k)%nat ∧ (k < n ≤ 2 * k)%nat.
Proof.
  intros Hn k. subst k.
  pose proof (Nat.log2_up_spec n ltac:(lia)) as [Hlo Hhi].
  pose proof (Nat.log2_up_pos n ltac:(lia)) as Hpos.
  replace (Nat.log2_up n - 1)%nat with (Nat.pred (Nat.log2_up n)) by lia.
  assert (Hpow : (2 ^ Nat.log2_up n = 2 * 2 ^ Nat.pred (Nat.log2_up n))%nat).
  { rewrite <- Nat.pow_succ_r'. f_equal. lia. }
  split; [done|]. split; [|lia].
  pose proof (Nat.pow_nonzero 2 (Nat.pred (Nat.log2_up n))). lia.
Qed.

(** [seed_players] on a tournament that holds no match yet. *)
Lemma seed_players_spec ps s0 :
  (2 ≤ length ps)%nat → BY ∉ ps →
  mheap s0 = [] → matches s0 = [] →
  bracket (fmt s0) = ∅ → sources (fmt s0) = ∅ →
  participants s0 = ps → num_players s0 = Some (length ps) →
  let k := (2 ^ (Nat.log2_up (length ps) - 1))%nat in
  ∃ s', seed_players s0 = (s', Ok tt)
    ∧ seeded ps k (2 * k - 1) (score_of s0) s'
    ∧ participants s' = ps
    ∧ field_size (fmt s') = Some (2 * k)%nat
    ∧ rounds (fmt s') = Some (Nat.log2_up (length ps)).
Proof.
  intros Hn HBY Hmh Hms Hbr Hsrc Hps Hnum k.
  destruct (field_half (length ps) Hn) as (Hfs & Hk1 & Hkn).
  fold k in Hfs, Hk1, Hkn.
  unfold seed_players. rewrite bind_gets, Hnum.
  clearbody k. rewrite decide_False by lia. cbv zeta.
  rewrite bind_modify, bind_gets.
  set (s1 := upd_fmt _ s0).
  assert (Hq : participants s1
               ++ replicate (2 ^ Nat.log2_up (length ps) - length ps) BY
               = player_queue ps k).
  { unfold player_queue. by rewrite Hfs, <- Hps. }
  rewrite Hq. clear Hq.
  assert (Hmh1 : mheap s1 = []) by done.
  assert (Hms1 : matches s1 = []) by done.
  assert (Hbr1 : bracket (fmt s1) = ∅) by done.
  assert (Hsrc1 : sources (fmt s1) = ∅) by done.
  assert (Hps1 : participants s1 = ps) by done.
  assert (Hsc1 : ∀ p, score_of s1 p = score_of s0 p) by done.
  assert (Hfield1 : (rounds (fmt s1), field_size (fmt s1))
                    = (Some (Nat.log2_up (length ps)), Some (2 * k)%nat)).
  { simpl. by rewrite Hfs. }
  clearbody s1.
  pose proof (player_queue_length ps k ltac:(lia) Hn) as Hql.
  pose proof (keeps_seeding participants outside_bracket_participants
                (length (player_queue ps k)) (player_queue ps k) s1) as Hkp.
  pose proof (keeps_seeding _ outside_bracket_field
                (length (player_queue ps k)) (player_queue ps k) s1) as Hkf.
  unfold exec in Hkp, Hkf. revert Hkp Hkf.
  destruct (seed_first_round_spec k (length (player_queue ps k))
              (player_queue ps k) [] s1 Hql ltac:(lia))
    as (s2 & Hrun2 & Hmh2 & Hms2 & Hfmt2 & Hsc2).
  rewrite (exec_bind _ _ _ _ _ Hrun2). clear Hrun2.
  rewrite Hmh1, app_nil_l in *. change (length (@nil Match)) with 0%nat.
  replace (seq 0 k) with (seq 0 (S (k - 1))) by (f_equal; lia).
  destruct (build_bracket_spec (k - 1) (length (seq 0 (S (k - 1)))) 0 s2)
    as (s3 & Hrun3 & Hmh3 & Hms3 & Hph3 & Hj3 & Hb3 & Hs3).
  { rewrite Hmh2, (first_round_length _ k Hql). lia. }
  { rewrite length_seq. lia. }
  rewrite (exec_bind _ _ _ _ _ Hrun3). clear Hrun3.
  change (last [(0 + 2 * (k - 1))%nat]) with (Some (0 + 2 * (k - 1))%nat).
  cbv iota. rewrite bind_modify, bind_gets.
  set (s4 := upd_matches _ s3).
  assert (Hms4 : matches s4 = seq 0 (2 * k - 1)).
  { unfold s4. cbn [matches upd_matches]. rewrite Hms3, Hms2, Hms1, app_nil_l.
    replace (2 * k - 1)%nat with (S (2 * (k - 1))) by lia.
    by rewrite seq_S. }
  rewrite Hms4.
  assert (Hmh4 : mheap s4 = first_round (player_queue ps k)
                            ++ replicate (k - 1) (new_Match None None)).
  { unfold s4. cbn [mheap upd_matches]. by rewrite Hmh3, Hmh2. }
  assert (Hfr : length (first_round (player_queue ps k)) = k)
    by apply (first_round_length _ k Hql).
  assert (Hbr4 : ∀ m, (2 * (k - 1) ≤ m)%nat → bracket (fmt s4) !! m = None).
  { intros m Hm. unfold s4. cbn [fmt upd_matches]. rewrite Hb3 by lia.
    by rewrite Hfmt2, Hbr1. }
  assert (Hsrc4 : ∀ p, ¬ (k ≤ p < 2 * k - 1)%nat →
                       sources (fmt s4) !! p = None).
  { intros p Hp. unfold s4. cbn [fmt upd_matches]. rewrite Hs3 by lia.
    by rewrite Hfmt2, Hsrc1. }
  assert (Hj4 : ∀ j, (j < k - 1)%nat →
       bracket (fmt s4) !! (2 * j)%nat = Some (k + j)%nat
       ∧ bracket (fmt s4) !! (2 * j + 1)%nat = Some (k + j)%nat
       ∧ sources (fmt s4) !! (k + j)%nat
         = Some ((2 * j)%nat, (2 * j + 1)%nat)).
  { intros j Hj. destruct (Hj3 j Hj) as (H1 & H2 & H3).
    unfold s4. cbn [fmt upd_matches].
    replace (0 + S (k - 1) + j)%nat with (k + j)%nat in * by lia.
    done. }
  assert (Hsc4 : ∀ p, score_of s4 p = score_of s0 p).
  { intros p. rewrite <- Hsc1, <- (Hsc2 p). unfold score_of, participant, s4.
    cbn [pheap upd_matches]. by rewrite Hph3. }
  clearbody s4.
  destruct (resolve_byes_spec ps k ltac:(lia) Hn HBY (2 * k - 1) 0
              (score_of s0) s4) as (s' & Hrun & Hseed); [lia| |].
  - split; [|split; [|split; [|split; [|split]]]].
    + split; [|split; [done|split; [done|split; done]]].
      rewrite Hmh4, length_app, length_replicate, Hfr. lia.
    + intros m Hm.
      destruct (first_round_lookup (player_queue ps k) k m Hql Hm)
        as (h & a & Hh & Ha & Hfrl).
      exists (new_Match (Some h) (Some a)), h, a.
      split; [|done]. rewrite Hmh4. by rewrite lookup_app_l by lia.
    + intros m x Hm Hx. rewrite Hmh4 in Hx.
      rewrite lookup_app_r in Hx by lia.
      apply lookup_replicate in Hx as (-> & _). done.
    + intros p t b y Hs Hy.
      destruct (decide (k ≤ p < 2 * k - 1)%nat) as [Hp|Hp].
      * rewrite Hmh4 in Hy. rewrite lookup_app_r in Hy by lia.
        apply lookup_replicate in Hy as (-> & _). done.
      * by rewrite Hsrc4 in Hs.
    + intros m x Hm. lia.
    + intros p. rewrite take_0. unfold byes_won. simpl.
      rewrite Z.add_0_r. apply Hsc4.
  - rewrite Hrun. simpl. intros Hkp Hkf.
    exists s'. split; [done|]. split; [done|].
    split; [by rewrite Hkp|].
    rewrite Hfield1 in Hkf. by inversion Hkf.
Qed.

(** [start] on a new elimination tournament of at least two
    participants, none of them the bye sentinel. *)
Lemma start_spec ps h :
  (2 ≤ length ps)%nat → BY ∉ ps →
  let k := (2 ^ (Nat.log2_up (length ps) - 1))%nat in
  ∃ s', start (SingleEliminationTournament ps h) = (s', Ok tt)
    ∧ seeded ps k (2 * k - 1) (reset_score ps h) s'
    ∧ participants s' = ps
    ∧ field_size (fmt s') = Some (2 * k)%nat
    ∧ rounds (fmt s') = Some (Nat.log2_up (length ps)).
Proof.
  intros Hn HBY k. unfold start, Tournament.start.
  rewrite bind_modify, bind_gets.
  set (s0 := set_num_players _ _).
  rewrite (exec_bind _ _ _ _ _ (reset_scores_ok _ s0)).
  unfold trigger_event. rewrite bind_modify.
  set (s1 := upd_fired _ _).
  assert (Hkeep : ∀ B (proj : State Fields → B),
            (∀ s g, proj (upd_pheap g s) = proj s) →
            (∀ s g, proj (upd_fired g s) = proj s) →
            proj s1 = proj s0).
  { intros B proj H1 H2. unfold s1. rewrite H2.
    apply (keeps_reset_scores proj _ H1 s0). }
  destruct (seed_players_spec ps s1) as (s' & Hrun & Hseed & Hrest);
    try done.
  - by rewrite (Hkeep _ mheap).
  - by rewrite (Hkeep _ matches).
  - by rewrite (Hkeep _ (λ s, bracket (fmt s))).
  - by rewrite (Hkeep _ (λ s, sources (fmt s))).
  - by rewrite (Hkeep _ participants).
  - by rewrite (Hkeep _ num_players).
  - exists s'. split; [done|]. split; [|done].
    destruct Hseed as (H1 & H2 & H3 & H4 & H5 & H6).
    repeat (split; [done|]). intros p. rewrite H6. f_equal.
    change (score_of s1 p)
      with (score_of (exec (Tournament.reset_scores (participants s0)) s0) p).
    by rewrite reset_scores_score.
Qed.

End SingleFacts.

Lemma BY_not_in_trio : BY ∉ Bracket.trio.
Proof.
  intros H. unfold Bracket.trio in H.
  repeat (apply elem_of_cons in H as [H|H]; [discriminate|]).
  by apply elem_of_nil in H.
Qed.

(** ** The elimination format: orderly use *)

(** In orderly use the bracket keeps its shape, a placeholder's filled
    slots come from Completed matches, and Completed matches are full. *)
Lemma in_play_inv ps h s :
  (2 ≤ length ps)%nat → BY ∉ ps → Bracket.in_play ps h s →
  ∃ k, Bracket.shape k s ∧ Bracket.fed s ∧ Bracket.filled s.
Proof.
  intros Hn HBY. induction 1 as [|s m x w Hplay IH Hm Hact Hw].
  - destruct (SingleFacts.start_spec ps h Hn HBY)
      as (s' & Hrun & Hseed & _).
    unfold exec. rewrite Hrun. simpl.
    destruct Hseed as (Hsh & HB & HC & HD & _).
    eexists. split; [exact Hsh|]. split; [done|].
    intros m x Hx Hwin.
    match type of Hsh with Bracket.shape ?k _ =>
      destruct (decide (m < k)%nat) as [Hlt|Hge] end.
    + destruct (HB m Hlt) as (x' & h' & a' & Hx' & _ & _ & Hh & Ha).
      rewrite Hx in Hx'. inversion Hx'; subst x'. by rewrite Hh, Ha.
    + destruct (HC m x) as (Hnone & _); [lia|done|done].
  - destruct IH as (k & Hsh & Hfed & Hfill).
    destruct (active_inv x Hact) as (h' & a' & Hh & Ha & Hnone).
    assert (Hw' : w = h' ∨ w = a').
    { rewrite Hh, Ha in Hw. destruct Hw as [Hw|Hw]; inversion Hw; auto. }
    destruct (SingleFacts.report_effect k s m x h' a' w Hsh Hm Hh Ha Hw')
      as (s' & Hrun & Hsh' & _).
    unfold exec. rewrite Hrun. simpl.
    exists k. split; [done|]. split.
    { by eapply (SingleFacts.fed_report k s m x h' a' w s'). }
    intros i y' Hy' Hwin.
    destruct (lookup_lt_is_Some_2 (mheap s) i) as [y Hy].
    { destruct Hsh as (Hl & _), Hsh' as (Hl' & _).
      apply lookup_lt_Some in Hy'. lia. }
    destruct (SingleFacts.report_effect_lookup k s m x h' a' w s' i y
                Hsh Hm Hh Ha Hw' Hrun Hy) as (y'' & Hy'' & Heq & Hne & _).
    rewrite Hy' in Hy''. inversion Hy''; subst y''.
    destruct (decide (i = m)) as [->|Him].
    + destruct (Heq eq_refl) as (_ & -> & ->).
      rewrite Hm in Hy. inversion Hy; subst y. by rewrite Hh, Ha.
    + destruct (Hne Him) as (Hwy & Hhy & Hay). rewrite Hwy in Hwin.
      destruct (Hfill i y Hy Hwin) as (Hh0 & Ha0).
      split; [destruct Hhy as [->| ->] | destruct Hay as [->| ->]]; done.
Qed.

(** * The claims *)

(** ** C1: reporting twice *)

(** C1, the claim as stated fails: a second [report_result] on a
    Completed match raises nothing and scores the winner again. *)
Lemma report_result_twice :
  let s := Scenario.reported_once in
  let A := Scenario.A in
  is_complete <$> mheap s !! 0%nat = Some true
  ∧ score_of s A = 3
  ∧ outcome (Swiss.report_result 0%nat (Some (P A))) s = Ok tt
  ∧ score_of (exec (Swiss.report_result 0%nat (Some (P A))) s) A = 6.
Proof. vm_compute. repeat split. Qed.

(** C1 (as amended): [report_result] checks nothing about the match it
    is called on.  In both formats, on any match with both slots
    assigned, Completed or not, a call naming one of its two participants
    as the winner records that winner and the other slot as the loser,
    fires [on_match_complete], hands over to the format's advancement
    step, and leaves the winner's score 3 points higher than before the
    call. *)
Theorem report_result_unguarded m x h a w :
  home x = Some h → away x = Some a → w = h ∨ w = a →
  let l := if decide (w = h) then a else h in
  (∀ s : State Swiss.Fields, mheap s !! m = Some x →
     reported Swiss.process_match_result s m x w l)
  ∧ (∀ s : State SingleElimination.Fields, mheap s !! m = Some x →
     reported SingleElimination.process_match_result s m x w l).
Proof.
  intros Hh Ha Hw l.
  assert (H : ∀ F (pmr : mref → M F unit) (s : State F),
            (∀ q, keeps (λ s, score_of s q) (pmr m)) →
            mheap s !! m = Some x → reported pmr s m x w l).
  { intros F pmr s Hpmr Hm.
    destruct (report_result_handover pmr s m x h a w Hm Hh Ha Hw)
      as (Heq & Hm1 & Hf1 & _ & _ & Hsc1).
    eexists. split; [exact Heq|].
    split; [rewrite Hm1, list_lookup_alter_eq, Hm; done|].
    split; [exact Hf1|].
    unfold exec at 1. rewrite Heq.
    etrans; [apply (Hpmr w)|]. rewrite Hsc1. by rewrite decide_True. }
  split; intros s Hm; apply H; try done; intros q.
  - apply swiss_process_keeps_score.
  - apply single_process_keeps_score.
Qed.

Lemma report_result_unguarded_witness :
  let '(A, B) := (Scenario.A, Scenario.B) in
  let x := Scenario.won_by_A in
  is_complete x = true
  ∧ mheap Scenario.reported_once !! 0%nat = Some x
  ∧ (∀ s : State Swiss.Fields, mheap s !! 0%nat = Some x →
       reported Swiss.process_match_result s 0%nat x A B)
  ∧ (∀ s : State SingleElimination.Fields, mheap s !! 0%nat = Some x →
       reported SingleElimination.process_match_result s 0%nat x A B).
Proof.
  split; [reflexivity|]. split; [vm_compute; reflexivity|].
  apply (report_result_unguarded 0%nat Scenario.won_by_A
           Scenario.A Scenario.B Scenario.A).
  - reflexivity.
  - reflexivity.
  - left. reflexivity.
Defined.

(** ** C2: ranking *)

(** C2, the claim as stated fails: in a two-round duel won first by [B]
    and then by [A], the ranking made for round 2 is [B; A]; the next
    ranking, at equal scores, is [A; B], the insertion order. *)
Lemma rank_forgets_prior_ranking :
  let '(A, B) := (Scenario.A, Scenario.B) in
  Scenario.ranking Scenario.duel1 = Ok [B; A]
  ∧ mheap Scenario.duel1 !! 1%nat = Some (new_Match (Some B) (Some A))
  ∧ last (fired Scenario.duel2) = Some on_complete
  ∧ score_of Scenario.duel2 A = score_of Scenario.duel2 B
  ∧ Scenario.ranking Scenario.duel2 = Ok [A; B]
  ∧ ¬ keeps_order_of (score_of Scenario.duel2) [B; A] [A; B].
Proof.
  repeat (split; [vm_compute; reflexivity|]).
  intros H.
  destruct (H Scenario.B Scenario.A) as (i & j & Hij & Hi & Hj).
  - vm_compute; reflexivity.
  - exists 0%nat, 1%nat. split; [lia | done].
  - destruct i as [|[|i]], j as [|[|j]]; simpl in *; try lia; discriminate.
Qed.

(** C2 (as amended): [get_players_by_rank] returns the participants in
    descending score order, and participants with equal scores stand in
    the order of the tournament's participant list (the insertion order),
    whatever an earlier ranking was. *)
Theorem get_players_by_rank_stable {F} (s : State F) :
  ∃ r, outcome Tournament.get_players_by_rank s = Ok r
       ∧ r ≡ₚ participants s
       ∧ StronglySorted (λ p q, score_of s q ≤ score_of s p) r
       ∧ ∀ k, filter (λ p, score_of s p = k) r
              = filter (λ p, score_of s p = k) (participants s).
Proof.
  eexists. split; [reflexivity|]. split; [apply sorted_reverse_perm|].
  split; [apply (sorted_reverse_sorted (score_of s))|].
  intros k. apply (sorted_reverse_stable (score_of s)).
Qed.

(** ** C3: repeat pairings *)

(** C3: in every turn of the pairing loop that creates a match for [home]
    out of the queue [players] of the participants still unpaired, the
    [away] chosen either is not among the opponents recorded for [home] at
    that moment, or every participant of the queue is among them; the loop
    creates no match only when the queue is empty. *)
Theorem no_repeat_unless_forced home players (s : State Swiss.Fields) :
  match Swiss.pair_next home players s with
  | (s', Ok rest) =>
      ∃ away,
        mheap s' = mheap s ++ [new_Match (Some home) (Some away)]
        ∧ matches s' = matches s ++ [length (mheap s)]
        ∧ away ∈ players
        ∧ rest = Swiss.remove_first away players
        ∧ (away ∉ Pairing.faced s home
           ∨ ∀ q, q ∈ players → q ∈ Pairing.faced s home)
  | (s', Raise e) => players = [] ∧ e = IndexError ∧ s' = s
  end.
Proof.
  pose proof (SwissFacts.pair_next_spec home players s) as H.
  destruct (Swiss.pair_next home players s) as [s' [rest|e]].
  - destruct H as (away & ? & ? & ? & ? & ? & _). by exists away.
  - done.
Qed.

(** ** Seeding the bracket (C4, X24) *)

(** X24: seeding an elimination tournament of [n] participants,
    [2 <= n < 2 ^ 29] (none of them the bye sentinel), succeeds; the
    field size is the smallest power of two [>= n]; the queue is the
    participants followed by [field_size - n] byes; there are
    [field_size / 2] first-round matches, the [i]-th pairing the [i]-th
    of the queue with the [i]-th from its back; the other matches are
    the placeholders; and exactly one match of the list, the last, has
    no parent.  Below [2 ^ 29] the logarithm that the code computes in
    double precision rounds up to the exact one; C4 claims the same for
    every [n >= 2], which the code breaks at [2 ^ 29]. *)
Theorem seeding_builds_bracket ps h :
  (2 ≤ length ps)%nat → Z.of_nat (length ps) < 2 ^ 29 → BY ∉ ps →
  let t := SingleElimination.SingleEliminationTournament ps h in
  outcome SingleElimination.start t = Ok tt
  ∧ ∃ fs half,
      Bracket.bracket_built ps (exec SingleElimination.start t) fs half.
Proof.
  intros Hn _ HBY t.
  destruct (SingleFacts.start_spec ps h Hn HBY)
    as (s' & Hrun & Hseed & Hps & Hfs & Hr).
  destruct (SingleFacts.field_half (length ps) Hn) as (Hpow & Hk1 & Hkn).
  set (k := (2 ^ (Nat.log2_up (length ps) - 1))%nat) in *.
  unfold outcome, exec. subst t. rewrite Hrun. simpl. split; [done|].
  exists (2 * k)%nat, k.
  destruct Hseed as ((Hlen & Hms & Hj & Hnone & Hsnone) & HB & _).
  unfold Bracket.bracket_built.
  split; [done|]. split; [done|]. split; [lia|]. split.
  { intros r Hr'. rewrite <- Hpow. apply Nat.pow_le_mono_r; [lia|].
    destruct (decide (Nat.log2_up (length ps) ≤ r)%nat) as [|Hlt]; [done|].
    assert (2 ^ r ≤ k)%nat; [|lia].
    apply Nat.pow_le_mono_r; lia. }
  split; [done|]. split.
  { intros i Hi. destruct (HB i Hi) as (x & hm & aw & ?). by exists x, hm, aw. }
  split; [done|]. split; [done|]. split.
  { intros p. split.
    - intros [[a b] Hp].
      destruct (decide (k ≤ p < 2 * k - 1)%nat) as [|Hout]; [done|].
      by rewrite Hsnone in Hp.
    - intros Hp. destruct (Hj (p - k)%nat) as (_ & _ & H3); [lia|].
      replace (k + (p - k))%nat with p in H3 by lia. by eexists. }
  rewrite Hms. replace (2 * k - 1)%nat with (S (2 * k - 2)) by lia.
  rewrite seq_S, filter_app, filter_cons, filter_nil. simpl.
  rewrite decide_True by (apply Hnone; lia).
  rewrite filter_none; [done|].
  apply Forall_forall. intros m [_ Hm]%elem_of_seq.
  destruct (Nat.Even_or_Odd m) as [[j ->]|[j ->]].
  - destruct (Hj j) as (H1 & _); [lia|]. by rewrite H1.
  - destruct (Hj j) as (_ & H2 & _); [lia|]. by rewrite H2.
Qed.

Lemma seeding_builds_bracket_witness :
  let t := SingleElimination.SingleEliminationTournament Bracket.trio ∅ in
  outcome SingleElimination.start t = Ok tt
  ∧ ∃ fs half,
      Bracket.bracket_built Bracket.trio (exec SingleElimination.start t)
                           fs half.
Proof.
  apply (seeding_builds_bracket Bracket.trio ∅).
  - simpl. lia.
  - reflexivity.
  - exact BY_not_in_trio.
Defined.

(** ** C5: byes are resolved *)

(** C5: once [start] has seeded an elimination tournament, and before
    any result is reported from outside, every match whose away slot
    holds the bye is Completed with its home participant as the winner;
    this covers the placeholders as well as the first round. *)
Theorem byes_completed ps h :
  (2 ≤ length ps)%nat → BY ∉ ps →
  let t := SingleElimination.SingleEliminationTournament ps h in
  let s := exec SingleElimination.start t in
  outcome SingleElimination.start t = Ok tt
  ∧ matches s = seq 0 (length (mheap s))
  ∧ ∀ m x, mheap s !! m = Some x → away x = Some BY →
      ∃ hm, home x = Some hm ∧ winner x = Some (P hm)
            ∧ is_complete x = true.
Proof.
  intros Hn HBY t s.
  destruct (SingleFacts.start_spec ps h Hn HBY)
    as (s' & Hrun & Hseed & _).
  unfold outcome. subst s t. unfold exec. rewrite Hrun. simpl.
  destruct Hseed as ((Hlen & Hms & _) & _ & _ & _ & HE & _).
  split; [done|]. split; [by rewrite Hlen|]. intros m x Hx Haw.
  destruct (HE m x) as (hm & Hh & Hw); [|done|done|].
  { apply lookup_lt_Some in Hx. lia. }
  exists hm. split; [done|]. split; [done|].
  unfold is_complete. by rewrite Hw.
Qed.

Lemma byes_completed_witness :
  let t := SingleElimination.SingleEliminationTournament Bracket.trio ∅ in
  let s := exec SingleElimination.start t in
  (∃ x, mheap s !! 0%nat = Some x ∧ away x = Some BY)
  ∧ outcome SingleElimination.start t = Ok tt
  ∧ matches s = seq 0 (length (mheap s))
  ∧ ∀ m x, mheap s !! m = Some x → away x = Some BY →
      ∃ hm, home x = Some hm ∧ winner x = Some (P hm)
            ∧ is_complete x = true.
Proof.
  split; [eexists; split; vm_compute; reflexivity|].
  apply (byes_completed Bracket.trio ∅).
  - simpl. lia.
  - exact BY_not_in_trio.
Defined.

(** ** C6: advancement *)




(** ** C7: scenario A *)

(** C7: with participants [A; B; C; D] at score 0 and at least two
    rounds, round 1 is exactly A-B and C-D; once A and C are reported as
    winners (in either order) the scores are 3, 0, 3, 0, the ranking is
    [A; C; B; D], and round 2 is exactly A-C and B-D. *)
Theorem scenario_A (n : Z) :
  2 ≤ n →
  let '(A, B, C, D) := (Scenario.A, Scenario.B, Scenario.C, Scenario.D) in
  outcome Swiss.start (Swiss.SwissTournament n [A; B; C; D] ∅) = Ok tt
  ∧ mheap (Scenario.round1 n)
    = [new_Match (Some A) (Some B); new_Match (Some C) (Some D)]
  ∧ matches (Scenario.round1 n) = [0; 1]%nat
  ∧ Scenario.second_round (Scenario.round2 n)
  ∧ Scenario.second_round (Scenario.round2' n).
Proof.
  intros Hn.
  destruct n as [|[p|p|]|p]; try lia; vm_compute; repeat split.
Qed.

Lemma scenario_A_witness :
  let '(A, B, C, D) := (Scenario.A, Scenario.B, Scenario.C, Scenario.D) in
  outcome Swiss.start (Swiss.SwissTournament 2 [A; B; C; D] ∅) = Ok tt
  ∧ mheap (Scenario.round1 2)
    = [new_Match (Some A) (Some B); new_Match (Some C) (Some D)]
  ∧ matches (Scenario.round1 2) = [0; 1]%nat
  ∧ Scenario.second_round (Scenario.round2 2)
  ∧ Scenario.second_round (Scenario.round2' 2).
Proof. apply (scenario_A 2). lia. Defined.

(** ** C8: an odd number of participants

    The claim as amended is proved below, after the lemmas on the
    pairing loop. *)

(** C8, the claim as stated fails: three participants, one round.  The
    constructor takes them; [start] pairs A with B and announces the
    match before it raises [IndexError]; the instance then takes the
    result of that match and fires [on_complete]. *)
Lemma odd_count_is_paired :
  let '(A, B, C) := (Scenario.A, Scenario.B, Scenario.C) in
  let t := Swiss.SwissTournament 1 [A; B; C] ∅ in
  let s := exec Swiss.start t in
  outcome Swiss.start t = Raise IndexError
  ∧ mheap s = [new_Match (Some A) (Some B)]
  ∧ matches s = [0%nat]
  ∧ fired s = [on_start; on_match_ready 0%nat]
  ∧ outcome (Swiss.report_result 0%nat (Some (P A))) s = Ok tt
  ∧ last (fired (exec (Swiss.report_result 0%nat (Some (P A))) s))
    = Some on_complete.
Proof. vm_compute. repeat split. Qed.

(** ** C9: ranking reads only *)

(** C9: [get_players_by_rank] leaves the whole state as it is
    (participant list and its order, scores, match list), returns the same
    list when called again, and whatever runs after it runs as if it had
    not been called. *)
Theorem get_players_by_rank_pure {F} (s : State F) :
  exec Tournament.get_players_by_rank s = s
  ∧ outcome Tournament.get_players_by_rank
            (exec Tournament.get_players_by_rank s)
    = outcome Tournament.get_players_by_rank s
  ∧ ∀ A (c : M F A), (Tournament.get_players_by_rank >> c) s = c s.
Proof. done. Qed.

(** ** C10: byes are scored *)

(** C10: the byes are scored like any win.  After [start] the score of
    every participant is 3 points for each bye match it is the home of
    (scores are reset to 0 before seeding); with participants that are
    pairwise distinct, the home of a bye match stands at exactly 3. *)
Theorem byes_scored ps h :
  (2 ≤ length ps)%nat → BY ∉ ps →
  let t := SingleElimination.SingleEliminationTournament ps h in
  let s := exec SingleElimination.start t in
  (∀ p, p ∈ ps →
     score_of s p = 3 * Z.of_nat (Bracket.byes_won p (mheap s)))
  ∧ (NoDup ps →
     ∀ m x hm, mheap s !! m = Some x → home x = Some hm →
       away x = Some BY → score_of s hm = 3).
Proof.
  intros Hn HBY t s.
  destruct (SingleFacts.start_spec ps h Hn HBY)
    as (s' & Hrun & Hseed & _).
  destruct (SingleFacts.field_half (length ps) Hn) as (Hpow & Hk1 & Hkn).
  set (k := (2 ^ (Nat.log2_up (length ps) - 1))%nat) in *.
  subst s t. unfold exec. rewrite Hrun. simpl.
  destruct Hseed as ((Hlen & _) & HB & HC & _ & _ & HF).
  assert (Hscore : ∀ p, p ∈ ps →
            score_of s' p = 3 * Z.of_nat (Bracket.byes_won p (mheap s'))).
  { intros p Hp. rewrite HF. rewrite take_ge by lia.
    unfold Bracket.reset_score. by rewrite decide_True. }
  split; [done|].
  intros Hnd m x hm Hx Hh Haw.
  assert (Hbye : ∀ i y, mheap s' !! i = Some y → Bracket.bye_of hm y →
            ps !! i = Some hm).
  { intros i y Hy [Hyh Hya].
    assert (Hik : (i < k)%nat).
    { destruct (decide (i < k)%nat) as [|Hge]; [done|].
      destruct (HC i y) as (_ & Hnb); [lia|done|done]. }
    destruct (HB i Hik) as (y' & h' & a' & Hy' & Hqh & _ & Hh' & _).
    rewrite Hy in Hy'. inversion Hy'; subst y'.
    rewrite Hyh in Hh'. inversion Hh'; subst h'.
    by apply (SingleFacts.player_queue_front ps k ltac:(lia) Hn HBY i hm Hik). }
  pose proof (Hbye m x Hx (conj Hh Haw)) as Hm.
  rewrite Hscore by by eapply list_elem_of_lookup_2.
  replace (Bracket.byes_won hm (mheap s')) with 1%nat; [done|].
  unfold Bracket.byes_won.
  rewrite <- (take_drop_middle (mheap s') m x Hx).
  rewrite filter_app, filter_cons.
  rewrite decide_True by done.
  rewrite !filter_none; [done| |].
  - apply Forall_lookup. intros i y Hy Hb. rewrite lookup_drop in Hy.
    pose proof (Hbye _ y Hy Hb) as Hi.
    pose proof (NoDup_lookup ps _ _ hm Hnd Hi Hm). lia.
  - apply Forall_lookup. intros i y Hy Hb.
    apply lookup_take_Some in Hy as [Hy Hlt].
    pose proof (Hbye _ y Hy Hb) as Hi.
    pose proof (NoDup_lookup ps _ _ hm Hnd Hi Hm). lia.
Qed.

Lemma byes_scored_witness :
  let t := SingleElimination.SingleEliminationTournament Bracket.trio ∅ in
  let s := exec SingleElimination.start t in
  (∃ x, mheap s !! 0%nat = Some x
        ∧ home x = Some (PInt 1) ∧ away x = Some BY)
  ∧ NoDup Bracket.trio
  ∧ (∀ p, p ∈ Bracket.trio →
       score_of s p = 3 * Z.of_nat (Bracket.byes_won p (mheap s)))
  ∧ (NoDup Bracket.trio →
     ∀ m x hm, mheap s !! m = Some x → home x = Some hm →
       away x = Some BY → score_of s hm = 3).
Proof.
  split; [eexists; repeat split; vm_compute; reflexivity|].
  split; [exact (bool_decide_unpack (NoDup Bracket.trio) I)|].
  apply (byes_scored Bracket.trio ∅).
  - simpl. lia.
  - exact BY_not_in_trio.
Defined.

(** * Further lemmas *)

(** ** Lists *)

Lemma alter_insert {A} (f : A → A) (l : list A) m x :
  l !! m = Some x → alter f m l = <[m := f x]> l.
Proof.
  intros Hm. apply list_eq. intros i.
  rewrite list_lookup_alter, list_lookup_insert.
  destruct (decide (i = m)) as [->|Hne].
  - rewrite decide_True by done. rewrite Hm. rewrite decide_True; [done|].
    split; [done|]. by eapply lookup_lt_Some.
  - rewrite decide_False by done. rewrite decide_False; [done|].
    intros [??]; done.
Qed.

(** ** Reporting, whatever the winner *)

Lemma score_of_add_score {F} (s : State F) p d q :
  score_of (exec (upd_participant p (add_score d)) s) q
  = score_of s q + if decide (q = p) then d else 0.
Proof.
  rewrite score_of_upd_participant.
  destruct (decide (p = q)) as [->|Hne].
  - rewrite decide_True by done. done.
  - rewrite decide_False by done. lia.
Qed.

(** [report_result] stores the result, then hands over to
    [handle_match_result]. *)
Lemma report_result_run {F} (pmr : mref → M F unit) (s : State F) m x w :
  mheap s !! m = Some x →
  Tournament.report_result pmr m w s
  = Tournament.handle_match_result pmr m
      (upd_mheap (alter (set_winner w (loser_for w x)) m) s).
Proof.
  intros Hm. unfold Tournament.report_result.
  rewrite (bind_read_match _ _ _ _ Hm). unfold upd_match.
  rewrite bind_modify. done.
Qed.

(** A dangling reference: nothing happens. *)
Lemma report_result_dangling {F} (pmr : mref → M F unit) (s : State F) m w :
  mheap s !! m = None →
  Tournament.report_result pmr m w s = (s, Raise Undefined).
Proof.
  intros Hm. unfold Tournament.report_result, bind, read_match.
  by rewrite Hm.
Qed.

(** ** Invariants *)

Section Preserves.
Context {F : Type} (I : State F → Prop).

Lemma preserves_ret {A} (a : A) : preserves I (ret a).
Proof. by intros s. Qed.

Lemma preserves_raise {A} e : preserves I (raise (A:=A) e).
Proof. by intros s. Qed.

Lemma preserves_gets {A} (f : State F → A) : preserves I (gets f).
Proof. by intros s. Qed.

Lemma preserves_modify f : (∀ s, I s → I (f s)) → preserves I (modify f).
Proof. intros H s. apply H. Qed.

Lemma preserves_bind {A C} (c : M F A) (k : A → M F C) :
  preserves I c → (∀ a, preserves I (k a)) → preserves I (bind c k).
Proof.
  intros Hc Hk s Hs. unfold exec, bind. specialize (Hc s Hs).
  unfold exec in Hc. destruct (c s) as [s' [a|e]]; simpl in *; [|done].
  by apply Hk.
Qed.

Lemma preserves_read_match m : preserves I (read_match m).
Proof. intros s. unfold exec, read_match. by destruct (mheap s !! m). Qed.

Hypothesis Hscore :
  ∀ s p d, I s → I (exec (upd_participant p (add_score d)) s).

Lemma preserves_upd_attr x d : preserves I (upd_attr x (add_score d)).
Proof.
  destruct x as [[|p]|]; try apply preserves_raise.
  intros s. apply Hscore.
Qed.

Lemma preserves_calc_match_points m :
  preserves I (Tournament.calc_match_points m).
Proof.
  apply preserves_bind; [apply preserves_read_match|]. intros x.
  destruct (bool_decide _);
    (apply preserves_bind; [apply preserves_upd_attr|]; intros _;
     apply preserves_upd_attr).
Qed.

(** Any call of [report_result] keeps an invariant that the assignments
    to scores and results, the event and the advancement step keep. *)
Lemma preserves_report_result (pmr : mref → M F unit) m w :
  (∀ s l, I s → I (upd_mheap (alter (set_winner w l) m) s)) →
  (∀ s, I s → I (upd_fired (λ l, l ++ [on_match_complete m]) s)) →
  preserves I (pmr m) →
  preserves I (Tournament.report_result pmr m w).
Proof.
  intros Hmh Hf Hpmr.
  apply preserves_bind; [apply preserves_read_match|]. intros x.
  apply preserves_bind; [intros s; apply Hmh|]. intros _.
  apply preserves_bind; [apply preserves_calc_match_points|]. intros _.
  apply preserves_bind; [intros s; apply Hf|]. intros _. done.
Qed.

End Preserves.

(** ** Scoring *)

(** [calc_match_points] on a match with a result that can be scored. *)
Lemma calc_match_points_ok {F} (s : State F) m y :
  mheap s !! m = Some y →
  match winner y with
  | Some TIE => is_Some (home y) ∧ is_Some (away y)
  | Some (P w) => ∃ l, loser y = Some (P l)
  | None => False
  end →
  ∃ g, Tournament.calc_match_points m s = (upd_pheap g s, Ok tt)
    ∧ ∀ q, score_of (upd_pheap g s) q = score_of s q + points q y.
Proof.
  intros Hm Hy. unfold Tournament.calc_match_points.
  rewrite (bind_read_match _ _ _ _ Hm). unfold points.
  destruct (winner y) as [[|w]|] eqn:Hw; [| |done].
  - destruct Hy as [[h Hh] [a Ha]]. rewrite bool_decide_true by done.
    rewrite Hh, Ha. cbn [slot_value fmap option_fmap option_map upd_attr].
    unfold upd_participant at 1. rewrite bind_modify.
    eexists (λ h0, <[a := _]> (<[h := _]> h0)). split; [reflexivity|].
    intros q.
    change (score_of (upd_pheap _ s) q)
      with (score_of (exec (upd_participant a (add_score 1))
                       (exec (upd_participant h (add_score 1)) s)) q).
    rewrite !score_of_add_score.
    repeat case_decide; simplify_eq; lia.
  - destruct Hy as [l Hl]. rewrite bool_decide_false by done.
    rewrite Hl. cbn [upd_attr].
    unfold upd_participant at 1. rewrite bind_modify.
    eexists (λ h0, <[l := _]> (<[w := _]> h0)). split; [reflexivity|].
    intros q.
    change (score_of (upd_pheap _ s) q)
      with (score_of (exec (upd_participant l (add_score 0))
                       (exec (upd_participant w (add_score 3)) s)) q).
    rewrite !score_of_add_score.
    repeat case_decide; simplify_eq; lia.
Qed.

(** A report of a result that can be scored: the result is stored and
    scored, the event fired, and the format's advancement step takes
    over. *)
Lemma report_result_scored {F} (pmr : mref → M F unit) (s : State F)
  m x w :
  mheap s !! m = Some x →
  let y := set_winner w (loser_for w x) x in
  match winner y with
  | Some TIE => is_Some (home y) ∧ is_Some (away y)
  | Some (P w) => ∃ l, loser y = Some (P l)
  | None => False
  end →
  ∃ s1, Tournament.report_result pmr m w s = pmr m s1
    ∧ mheap s1 = <[m := y]> (mheap s)
    ∧ fired s1 = fired s ++ [on_match_complete m]
    ∧ matches s1 = matches s ∧ participants s1 = participants s
    ∧ num_players s1 = num_players s ∧ fmt s1 = fmt s
    ∧ (∀ q, score_of s1 q = score_of s q + points q y).
Proof.
  intros Hm y Hy.
  rewrite (report_result_run pmr s m x w Hm). fold y.
  set (s0 := upd_mheap _ s).
  assert (Hm0 : mheap s0 !! m = Some y).
  { unfold s0. cbn. by rewrite list_lookup_alter_eq, Hm. }
  destruct (calc_match_points_ok s0 m y Hm0 Hy) as (g & Hrun & Hsc).
  unfold Tournament.handle_match_result.
  rewrite (exec_bind _ _ _ _ _ Hrun). unfold trigger_event.
  rewrite bind_modify. eexists. split; [reflexivity|].
  split; [cbn; by apply alter_insert|].
  repeat split; done.
Qed.

(** An orderly report. *)
Lemma report_result_orderly {F} (pmr : mref → M F unit) (s : State F)
  m x w :
  mheap s !! m = Some x → active x = true → names w x →
  let y := set_winner (Some w) (loser_for (Some w) x) x in
  ∃ s1, Tournament.report_result pmr m (Some w) s = pmr m s1
    ∧ mheap s1 = <[m := y]> (mheap s)
    ∧ fired s1 = fired s ++ [on_match_complete m]
    ∧ matches s1 = matches s ∧ participants s1 = participants s
    ∧ num_players s1 = num_players s ∧ fmt s1 = fmt s
    ∧ (∀ q, score_of s1 q = score_of s q + points q y)
    ∧ is_complete y = true ∧ home y = home x ∧ away y = away x.
Proof.
  intros Hm Hact Hw y.
  destruct (active_inv x Hact) as (h & a & Hh & Ha & Hnone).
  destruct (report_result_scored pmr s m x (Some w) Hm)
    as (s1 & H1 & H2 & H3 & H4 & H5 & H6 & H7 & H8).
  { unfold loser_for. cbn [winner home away set_winner loser].
    destruct w as [|p]; [by rewrite Hh, Ha|].
    rewrite bool_decide_false by done. rewrite Hh, Ha.
    case_bool_decide; by eexists. }
  exists s1. repeat split; done.
Qed.

(** ** Standings *)

Lemma standing_app p l1 l2 :
  standing p (l1 ++ l2) = standing p l1 + standing p l2.
Proof. induction l1 as [|x l1 IH]; simpl; lia. Qed.

Lemma standing_insert p l m x y :
  l !! m = Some x →
  standing p (<[m := y]> l) = standing p l - points p x + points p y.
Proof.
  revert m. induction l as [|z l IH]; intros [|m] Hm; simpl in *; try done.
  - inversion Hm; subst. lia.
  - rewrite (IH m Hm). lia.
Qed.

Lemma standing_fresh p l : Forall fresh l → standing p l = 0.
Proof.
  induction 1 as [|x l (h & a & ->) _ IH]; [done|].
  simpl. rewrite IH. done.
Qed.

Lemma standing_ext p l l' :
  length l' = length l →
  (∀ i x x', l !! i = Some x → l' !! i = Some x' → points p x' = points p x) →
  standing p l' = standing p l.
Proof.
  revert l'. induction l as [|x l IH]; intros [|x' l'] Hlen H; try done.
  simpl. rewrite (H 0%nat x x') by done.
  rewrite (IH l'); [done|by inversion Hlen|].
  intros i y y' Hy Hy'. by apply (H (S i)).
Qed.

(** The standing when the points of one match change. *)
Lemma standing_pointwise p l l' m d :
  length l' = length l → (m < length l)%nat →
  (∀ i x x', l !! i = Some x → l' !! i = Some x' →
     points p x' = points p x + if decide (i = m) then d else 0) →
  standing p l' = standing p l + d.
Proof.
  revert l' m. induction l as [|x l IH]; intros [|x' l'] m Hlen Hm H;
    simpl in *; try done; try lia.
  destruct m as [|m].
  - rewrite (H 0%nat x x') by done. rewrite decide_True by done.
    rewrite (standing_ext p l l'); [lia|by inversion Hlen|].
    intros i y y' Hy Hy'. rewrite (H (S i) y y') by done.
    rewrite decide_False by done. lia.
  - rewrite (H 0%nat x x') by done. rewrite decide_False by done.
    rewrite (IH l' m); [lia|by inversion Hlen|lia|].
    intros i y y' Hy Hy'. rewrite (H (S i) y y') by done.
    destruct (decide (i = m)); [by rewrite decide_True by lia|].
    by rewrite decide_False by lia.
Qed.

(** ** Matches by state *)

Lemma filter_length_0 {A} (P : A → Prop) `{!∀ x, Decision (P x)} l :
  length (filter P l) = 0%nat ↔ Forall (λ x, ¬ P x) l.
Proof.
  induction l as [|x l IH]; [by split|].
  rewrite filter_cons, Forall_cons. destruct (decide (P x)); simpl.
  - split; [done | by intros [??]].
  - rewrite IH. tauto.
Qed.


Lemma filter_matches_run {F} pred ms (s : State F) :
  Forall (λ m, is_Some (mheap s !! m)) ms →
  Tournament.filter_matches pred ms s
  = (s, Ok (filter (λ m, from_option pred false (mheap s !! m) = true) ms)).
Proof.
  induction 1 as [|m ms [x Hx] _ IH]; [done|].
  cbn [Tournament.filter_matches]. rewrite (bind_read_match _ _ _ _ Hx).
  rewrite (exec_bind _ _ _ _ _ IH). unfold ret.
  rewrite filter_cons, Hx. cbn [from_option].
  destruct (pred x).
  - by rewrite decide_True.
  - by rewrite decide_False.
Qed.

Lemma filter_matches_spec {F} pred (s : State F) :
  matches s = seq 0 (length (mheap s)) →
  ∃ l, (let* ms := gets matches in Tournament.filter_matches pred ms) s
       = (s, Ok l)
    ∧ ∀ m, m ∈ l ↔ ∃ x, mheap s !! m = Some x ∧ pred x = true.
Proof.
  intros Hms. rewrite bind_gets, Hms.
  eexists. split.
  { apply filter_matches_run, Forall_forall. intros m [_ Hm]%elem_of_seq.
    apply lookup_lt_is_Some_2. lia. }
  intros m. rewrite list_elem_of_filter, elem_of_seq. split.
  - intros [Hp _]. destruct (mheap s !! m) as [x|]; [|done]. by exists x.
  - intros (x & Hx & Hp). rewrite Hx. split; [done|].
    apply lookup_lt_Some in Hx. lia.
Qed.

Lemma pending_app l1 l2 : pending (l1 ++ l2) = (pending l1 + pending l2)%nat.
Proof. unfold pending. by rewrite filter_app, length_app. Qed.

Lemma pending_fresh l : Forall fresh l → pending l = length l.
Proof.
  unfold pending. induction 1 as [|x l (h & a & ->) _ IH]; [done|].
  rewrite filter_cons, decide_True by done. simpl. by rewrite IH.
Qed.

Lemma pending_0 l : pending l = 0%nat ↔ Forall (λ x, is_complete x = true) l.
Proof.
  unfold pending. rewrite filter_length_0. apply Forall_proper; [|done].
  intros x. by destruct (is_complete x).
Qed.

Lemma pending_ext l l' :
  length l' = length l →
  (∀ i y y', l !! i = Some y → l' !! i = Some y' →
     is_complete y' = is_complete y) →
  pending l' = pending l.
Proof.
  unfold pending.
  revert l'. induction l as [|y l IH]; intros [|y' l'] Hlen H; try done.
  rewrite !filter_cons. rewrite (H 0%nat y y') by done.
  assert (IH' : length (filter (λ x, is_complete x = false) l')
                = length (filter (λ x, is_complete x = false) l)).
  { apply IH; [by injection Hlen|].
    intros i u u' Hu Hu'. by apply (H (S i)). }
  destruct (decide (is_complete y = false)); simpl; lia.
Qed.

(** One match more is Completed. *)
Lemma pending_step l l' m x :
  length l' = length l → l !! m = Some x → is_complete x = false →
  (∀ i y y', l !! i = Some y → l' !! i = Some y' →
     is_complete y' = if decide (i = m) then true else is_complete y) →
  (pending l' + 1 = pending l)%nat.
Proof.
  revert l' m. induction l as [|z l IH]; intros [|z' l'] m Hlen Hm Hx H;
    simpl in *; try done.
  change (pending (z' :: l')) with (pending ([z'] ++ l')).
  change (pending (z :: l)) with (pending ([z] ++ l)).
  rewrite !pending_app. destruct m as [|m].
  - injection Hm as ->.
    assert (Hz' : is_complete z' = true) by (by rewrite (H 0%nat x z')).
    rewrite (pending_ext l l'); [|by injection Hlen|].
    2:{ intros i u u' Hu Hu'. by rewrite (H (S i) u u'). }
    unfold pending. rewrite !filter_cons, !filter_nil.
    rewrite (decide_True (P := is_complete x = false)) by done.
    rewrite (decide_False (P := is_complete z' = false)) by (by rewrite Hz').
    simpl. lia.
  - assert (Hz' : is_complete z' = is_complete z)
      by (by rewrite (H 0%nat z z')).
    assert (IH' : (pending l' + 1 = pending l)%nat).
    { apply (IH l' m); [by injection Hlen|done|done|].
      intros i y y' Hy Hy'. rewrite (H (S i) y y') by done.
      destruct (decide (i = m)); [by rewrite decide_True by lia|].
      by rewrite decide_False by lia. }
    unfold pending at 1 3. rewrite !filter_cons, !filter_nil, Hz'.
    destruct (decide (is_complete z = false)); simpl; lia.
Qed.

(** The matches up to [b] are Completed, the others are not. *)
Lemma pending_prefix l b :
  (b ≤ length l)%nat →
  (∀ i x, l !! i = Some x → is_complete x = true ↔ (i < b)%nat) →
  pending l = (length l - b)%nat.
Proof.
  unfold pending. revert b. induction l as [|x l IH]; intros b Hb H; [done|].
  rewrite filter_cons. destruct b as [|b].
  - rewrite decide_True.
    2:{ destruct (is_complete x) eqn:E; [|done].
        apply (H 0%nat x) in E; [lia|done]. }
    simpl. rewrite (IH 0%nat); [lia|lia|].
    intros i y Hy. rewrite (H (S i) y Hy). lia.
  - rewrite decide_False.
    2:{ rewrite (proj2 (H 0%nat x eq_refl)); [done|lia]. }
    simpl in *. rewrite (IH b); [done|lia|].
    intros i y Hy. rewrite (H (S i) y Hy). lia.
Qed.

(** ** The driver *)

Lemma choice_run {F A} r (l : list A) (s : State F) :
  l ≠ [] → ∃ a, Example.choice r l s = (s, Ok a) ∧ a ∈ l.
Proof.
  intros Hl. unfold Example.choice.
  destruct (lookup_lt_is_Some_2 l (r `mod` length l)) as [a Ha].
  { apply Nat.mod_upper_bound. by destruct l. }
  rewrite Ha. exists a. split; [done|]. by eapply list_elem_of_lookup_2.
Qed.

(** A turn of the loop, when some match is active: a report on an
    active match, for one of its two participants. *)
Lemma turn_run {F} (rr : mref → option result → M F unit) r (s : State F) :
  matches s = seq 0 (length (mheap s)) →
  (∃ m x, mheap s !! m = Some x ∧ active x = true) →
  ∃ m x p, mheap s !! m = Some x ∧ active x = true
    ∧ (home x = Some p ∨ away x = Some p)
    ∧ Example.turn rr r s = rr m (Some (P p)) s.
Proof.
  intros Hms (m0 & x0 & Hx0 & Hact0).
  destruct (filter_matches_spec active s Hms) as (l & Hrun & Hl).
  assert (Hne : l ≠ []).
  { intros ->. assert (Hin : m0 ∈ @nil nat) by (apply Hl; eauto).
    by apply elem_of_nil in Hin. }
  destruct (choice_run r.1 l s Hne) as (m & Hm & Hin).
  apply Hl in Hin as (x & Hx & Hact).
  destruct (active_inv x Hact) as (h & a & Hh & Ha & _).
  destruct (choice_run r.2 [home x; away x] s ltac:(done)) as (w & Hw & Hwin).
  assert (Hp : ∃ p, w = Some p ∧ (home x = Some p ∨ away x = Some p)).
  { rewrite Hh, Ha in Hwin |- *.
    apply elem_of_cons in Hwin as [->|Hwin]; [by eexists; eauto|].
    apply list_elem_of_singleton in Hwin as ->. by eexists; eauto. }
  destruct Hp as (p & -> & Hp).
  exists m, x, p. split; [done|]. split; [done|]. split; [done|].
  unfold Example.turn, Tournament.active_matches.
  rewrite (exec_bind _ _ _ _ _ Hrun), (exec_bind _ _ _ _ _ Hm).
  rewrite (bind_read_match _ _ _ _ Hx), (exec_bind _ _ _ _ _ Hw). done.
Qed.

Lemma exited_app {F} (s s' : State F) l :
  fired s' = fired s ++ l →
  Example.exited s s' = bool_decide (on_complete ∈ l).
Proof.
  intros H. unfold Example.exited. by rewrite H, drop_app_length.
Qed.

(** ** The round-based format: what pairing changes *)

Module RoundFacts.
Import Swiss Pairing Round SwissFacts.

Section KeepsPairing.
Context {B : Type} (proj : State Fields → B).
Hypothesis Hp : ∀ s g, proj (upd_pheap g s) = proj s.
Hypothesis Hm : ∀ s g, proj (upd_mheap g s) = proj s.
Hypothesis Hf : ∀ s g, proj (upd_fired g s) = proj s.
Hypothesis Hms : ∀ s g, proj (upd_matches g s) = proj s.
Hypothesis Ho : ∀ s g, proj (upd_fmt (upd_opponents g) s) = proj s.

Lemma keeps_setdefault p : keeps proj (setdefault p).
Proof.
  intros s. unfold exec, setdefault.
  destruct (opponents (fmt s) !! p); [done | apply Ho].
Qed.

Lemma keeps_add_opponent p q : keeps proj (add_opponent p q).
Proof.
  apply keeps_bind; [apply keeps_setdefault|]. intros l.
  apply keeps_modify. intros s. apply Ho.
Qed.

Lemma keeps_scan home players : keeps proj (scan home players).
Proof.
  induction players as [|q players IH]; simpl; [apply keeps_ret|].
  apply keeps_bind; [apply keeps_setdefault|]. intros l.
  destruct (bool_decide _); [apply keeps_ret | done].
Qed.

Lemma keeps_choose_away home players : keeps proj (choose_away home players).
Proof.
  apply keeps_bind; [apply keeps_scan|]. intros [a|]; [apply keeps_ret|].
  destruct players; [apply keeps_raise | apply keeps_ret].
Qed.

Lemma keeps_pair_next home players : keeps proj (pair_next home players).
Proof.
  apply keeps_bind; [apply keeps_choose_away|]. intros c.
  apply keeps_bind; [by apply keeps_alloc_Match|]. intros m.
  apply keeps_bind; [by apply keeps_upd_participant|]. intros _.
  apply keeps_bind; [by apply keeps_upd_participant|]. intros _.
  apply keeps_bind; [apply keeps_add_opponent|]. intros _.
  apply keeps_bind; [apply keeps_add_opponent|]. intros _.
  apply keeps_bind; [by apply keeps_modify|]. intros _.
  apply keeps_bind; [by apply keeps_trigger_event|]. intros _.
  apply keeps_ret.
Qed.

Lemma keeps_pair_all fuel : ∀ players, keeps proj (pair_all fuel players).
Proof.
  induction fuel as [|fuel IH]; intros [|home rest]; simpl;
    try apply keeps_ret; try apply keeps_raise.
  apply keeps_bind; [apply keeps_pair_next | intros r; apply IH].
Qed.

End KeepsPairing.


Lemma add_opponent_run p q s :
  add_opponent p q s
  = (upd_fmt (upd_opponents <[p := faced s p ++ [q]]>) s, Ok tt).
Proof.
  unfold add_opponent, bind, setdefault, faced.
  destruct (opponents (fmt s) !! p) eqn:E; simpl; [done|].
  unfold modify, upd_fmt, upd_opponents; simpl.
  by rewrite insert_insert_eq.
Qed.

(** One turn of the pairing loop: the match it creates and the opponents
    it records. *)
Lemma pair_next_effect hm players s :
  match pair_next hm players s with
  | (s', Ok rest) =>
      ∃ aw, aw ∈ players ∧ rest = remove_first aw players
        ∧ mheap s' = mheap s ++ [new_Match (Some hm) (Some aw)]
        ∧ (∀ q, faced s' q
                = faced s q ++ opps q (new_Match (Some hm) (Some aw)))
  | (s', Raise e) => players = [] ∧ e = IndexError ∧ s' = s
  end.
Proof.
  unfold pair_next. pose proof (choose_away_spec hm players s) as H.
  unfold bind at 1.
  destruct (choose_away hm players s) as [s1 [[aw rest]|e]]; [|done].
  destruct H as ((Hp & Hm & Hf & Hms & Hps & Hfc) & Hin & -> & Hforced).
  cbn [fst snd]. unfold alloc_Match. unfold bind at 1.
  unfold set_current_match, upd_participant. rewrite !bind_modify.
  rewrite (exec_bind _ _ _ _ _ (add_opponent_run _ _ _)).
  rewrite (exec_bind _ _ _ _ _ (add_opponent_run _ _ _)).
  unfold trigger_event. rewrite !bind_modify. unfold ret.
  exists aw. split; [done|]. split; [done|]. split.
  { cbn. by rewrite Hm. }
  intros q. rewrite <- Hfc. unfold faced, opps.
  cbn [fmt upd_fired upd_matches upd_fmt upd_opponents opponents upd_pheap
       upd_mheap home away new_Match].
  rewrite !lookup_insert.
  repeat case_decide; simplify_eq; simpl;
    rewrite ?app_nil_r, <- ?app_assoc; done.
Qed.

Lemma remove_first_perm a l : a ∈ l → a :: remove_first a l ≡ₚ l.
Proof.
  induction l as [|y l IH]; intros Hin; [by apply elem_of_nil in Hin|].
  simpl. destruct (decide (y = a)) as [->|Hne]; [done|].
  apply elem_of_cons in Hin as [->|Hin]; [done|].
  rewrite Permutation_swap. by rewrite IH.
Qed.

(** The pairing loop: the matches it creates hold every participant of
    the queue once, but for the one left over by a queue of odd length. *)
Lemma pair_all_effect fuel : ∀ players s,
  (length players ≤ fuel)%nat →
  let s' := exec (pair_all fuel players) s in
  ∃ new rest,
    mheap s' = mheap s ++ new
    ∧ Forall fresh new
    ∧ flat_map slots new ++ (Some <$> rest) ≡ₚ Some <$> players
    ∧ length rest = (if Nat.even (length players) then 0 else 1)%nat
    ∧ (∀ q, faced s' q = faced s q ++ flat_map (opps q) new).
Proof.
  induction fuel as [|fuel IH]; intros [|hm rest0] s Hlen;
    simpl in Hlen; try lia.
  1,2: exists [], []; cbn; rewrite app_nil_r; repeat split; try done;
       intros q; by rewrite app_nil_r.
  unfold exec. cbn [pair_all].
  pose proof (pair_next_effect hm rest0 s) as H. unfold bind.
  destruct (pair_next hm rest0 s) as [s1 [rest'|e]].
  - destruct H as (aw & Hin & -> & Hmh & Hfc).
    pose proof (remove_first_length _ _ Hin) as Hl.
    destruct (IH (remove_first aw rest0) s1) as
      (new & rest & Hmh' & Hfresh & Hperm & Hrest & Hfc'); [lia|].
    unfold exec in *.
    exists (new_Match (Some hm) (Some aw) :: new), rest.
    split; [by rewrite Hmh', Hmh, <- app_assoc|].
    split; [constructor; [by eexists _, _ | done]|].
    split.
    { cbn [flat_map slots home away new_Match app].
      rewrite Hperm. rewrite fmap_cons. constructor.
      rewrite <- fmap_cons. by rewrite remove_first_perm. }
    split.
    { rewrite Hrest. cbn [length]. rewrite <- Hl. done. }
    intros q. rewrite Hfc', Hfc. cbn [flat_map]. by rewrite <- app_assoc.
  - destruct H as (-> & -> & ->). exists [], [hm]. cbn.
    rewrite app_nil_r. repeat split; try done.
    intros q; by rewrite app_nil_r.
Qed.

(** A round: [setup_round] from any state. *)
Lemma setup_round_effect s :
  let s' := exec setup_round s in
  let n := length (participants s) in
  let made := seq (length (mheap s)) (Nat.div2 n) in
  ∃ new rest,
    outcome setup_round s = (if Nat.even n then Ok tt else Raise IndexError)
    ∧ config s' = config s
    ∧ current_round (fmt s') = current_round (fmt s) + 1
    ∧ (∀ q, score_of s' q = score_of s q)
    ∧ mheap s' = mheap s ++ new
    ∧ length new = Nat.div2 n
    ∧ Forall fresh new
    ∧ matches s' = matches s ++ made
    ∧ fired s' = fired s ++ (on_match_ready <$> made)
                 ++ (if Nat.even n then [on_start_round] else [])
    ∧ flat_map slots new ++ (Some <$> rest) ≡ₚ Some <$> participants s
    ∧ length rest = (if Nat.even n then 0 else 1)%nat
    ∧ (∀ q, faced s' q = faced s q ++ flat_map (opps q) new).
Proof.
  intros s' n made.
  assert (Hs' : s' = exec setup_round s) by done. clearbody s'.
  pose proof (setup_round_outcome s) as Hout. fold n in Hout.
  unfold exec, setup_round, Tournament.get_players_by_rank in Hs'.
  rewrite bind_modify, bind_gets in Hs'.
  set (players := sorted_reverse _ _) in Hs'. set (s2 := upd_fmt _ _) in Hs'.
  assert (Hperm : players ≡ₚ participants s)
    by (subst players; apply sorted_reverse_perm).
  assert (Hlen : length players = n) by (by rewrite Hperm).
  change (s' = exec (pair_all (length players) players
                     >> trigger_event on_start_round) s2) in Hs'.
  rewrite exec_then in Hs'.
  destruct (pair_all_spec (length players) players s2)
    as (_ & Hsc & Ho & Hl & Hms & Hf); [lia|].
  destruct (pair_all_effect (length players) players s2)
    as (new & rest & Hmh & Hfresh & Hsl & Hrest & Hfc); [lia|].
  pose proof (keeps_pair_all config (λ _ _, eq_refl) (λ _ _, eq_refl)
                (λ _ _, eq_refl) (λ _ _, eq_refl) (λ _ _, eq_refl)
                (length players) players s2) as Hcfg.
  pose proof (keeps_pair_all (λ s, current_round (fmt s))
                (λ _ _, eq_refl) (λ _ _, eq_refl)
                (λ _ _, eq_refl) (λ _ _, eq_refl) (λ _ _, eq_refl)
                (length players) players s2) as Hcr.
  rewrite Ho, Hlen in Hs'. rewrite Hlen in *.
  set (X := exec (pair_all n players) s2) in *. clearbody X.
  exists new, rest.
  assert (Hnew : length new = Nat.div2 n).
  { rewrite Hmh, length_app in Hl. change (mheap s2) with (mheap s) in Hl.
    lia. }
  change (mheap s2) with (mheap s) in *.
  change (matches s2) with (matches s) in *.
  change (fired s2) with (fired s) in *.
  change (config s2) with (config s) in *.
  change (current_round (fmt s2)) with (current_round (fmt s) + 1) in *.
  fold made in Hms, Hf.
  assert (Hsc' : ∀ q, score_of X q = score_of s q) by (intros q; apply Hsc).
  assert (Hfc' : ∀ q, faced X q = faced s q ++ flat_map (opps q) new)
    by (intros q; apply Hfc).
  rewrite Hperm in Hsl. clear Hsc Hfc.
  split; [done|].
  destruct (Nat.even n); subst s'.
  - repeat split; try done. cbn. by rewrite Hf, <- app_assoc.
  - repeat split; try done. by rewrite app_nil_r.
Qed.

(** [start] on a new tournament: the first round. *)
Lemma start_effect n ps h :
  let t := SwissTournament n ps h in
  let s := exec start t in
  let made := seq 0 (Nat.div2 (length ps)) in
  ∃ rest,
    outcome start t
    = (if Nat.even (length ps) then Ok tt else Raise IndexError)
    ∧ config s = (ps, Some (length ps), n, Some (length ps / 2)%nat)
    ∧ current_round (fmt s) = 1
    ∧ (∀ q, score_of s q = Bracket.reset_score ps h q)
    ∧ length (mheap s) = Nat.div2 (length ps)
    ∧ Forall fresh (mheap s)
    ∧ matches s = made
    ∧ fired s = on_start :: (on_match_ready <$> made)
                ++ (if Nat.even (length ps) then [on_start_round] else [])
    ∧ flat_map slots (mheap s) ++ (Some <$> rest) ≡ₚ Some <$> ps
    ∧ length rest = (if Nat.even (length ps) then 0 else 1)%nat
    ∧ (∀ q, faced s q = flat_map (opps q) (mheap s)).
Proof.
  intros t s made.
  set (s0 := set_num_players (length ps) t).
  set (s1 := exec (Tournament.reset_scores ps) s0).
  set (s3 := upd_fmt (λ x,
    {| current_round := current_round x; rounds := rounds x;
       opponents := opponents x;
       matches_per_round := Some (length ps / 2)%nat |})
    (upd_fired (λ l, l ++ [on_start]) s1)).
  assert (Hrun : start t = setup_round s3).
  { unfold start, Tournament.start. rewrite bind_modify, bind_gets.
    change (participants (set_num_players _ t)) with ps.
    rewrite (exec_bind _ _ _ _ _ (reset_scores_ok _ _)).
    unfold trigger_event, seed_players. rewrite !bind_modify.
    f_equal. unfold s3, s1, s0. f_equal.
    cbn [participants upd_fired].
    by rewrite (keeps_reset_scores participants _ (λ _ _, eq_refl)). }
  assert (Hkeep : ∀ B (proj : State Fields → B),
            (∀ s g, proj (upd_pheap g s) = proj s) →
            (∀ s k, proj (set_num_players k s) = proj s) →
            proj s1 = proj t).
  { intros B proj H1 H2. unfold s1, s0.
    by rewrite (keeps_reset_scores proj _ H1), H2. }
  assert (Hps : participants s3 = ps) by (by apply (Hkeep _ participants)).
  assert (Hmh : mheap s3 = []) by (by apply (Hkeep _ mheap)).
  assert (Hms : matches s3 = []) by (by apply (Hkeep _ matches)).
  assert (Hf : fired s3 = [on_start]).
  { change (fired s3) with (fired s1 ++ [on_start]).
    by rewrite (Hkeep _ fired). }
  assert (Hcr : current_round (fmt s3) = 0)
    by (by apply (Hkeep _ (λ s, current_round (fmt s)))).
  assert (Hfc : ∀ q, faced s3 q = []).
  { intros q. by apply (Hkeep _ (λ s, faced s q)). }
  assert (Hcfg : config s3 = (ps, Some (length ps), n,
                              Some (length ps / 2)%nat)).
  { unfold config. rewrite Hps. cbn [fmt s3 upd_fmt matches_per_round rounds
      num_players upd_fired].
    replace (num_players s1) with (Some (length ps)).
    2:{ unfold s1.
        by rewrite (keeps_reset_scores num_players _ (λ _ _, eq_refl)). }
    by rewrite (Hkeep _ (λ s, rounds (fmt s))). }
  assert (Hsc : ∀ q, score_of s3 q = Bracket.reset_score ps h q).
  { intros q. change (score_of s3 q) with (score_of s1 q). unfold s1.
    by rewrite reset_scores_score. }
  clearbody s3.
  destruct (setup_round_effect s3) as (new & rest & Ho & Hc & Hr & Hs & Hm'
    & Hn & Hfr & Hms' & Hf' & Hperm & Hrest & Hfc').
  subst s. unfold exec, outcome in *. rewrite Hrun.
  rewrite Hps, Hmh, Hms, Hf, Hcr in *. cbn [app length] in *.
  exists rest. rewrite Hm'.
  repeat split; try done.
  - by rewrite Hc.
  - intros q. by rewrite Hs.
  - intros q. by rewrite Hfc', Hfc.
Qed.

(** ** The round-based format: the end of a round *)

Lemma incomplete_run ms s :
  Forall (λ m, is_Some (mheap s !! m)) ms →
  incomplete ms s
  = (s, Ok (filter (λ m, from_option is_complete true (mheap s !! m) = false)
                   ms)).
Proof.
  induction 1 as [|m ms [x Hx] _ IH]; [done|].
  cbn [incomplete]. rewrite (bind_read_match _ _ _ _ Hx).
  rewrite (exec_bind _ _ _ _ _ IH). unfold ret.
  rewrite filter_cons, Hx. cbn [from_option].
  destruct (is_complete x).
  - by rewrite decide_False.
  - by rewrite decide_True.
Qed.

Lemma is_round_complete_run s :
  matches s = seq 0 (length (mheap s)) →
  is_round_complete s
  = (s, Ok (bool_decide (Forall (λ x, is_complete x = true) (mheap s)))).
Proof.
  intros Hms. unfold is_round_complete. rewrite bind_gets, Hms.
  assert (Hall : Forall (λ m, is_Some (mheap s !! m))
                        (seq 0 (length (mheap s)))).
  { apply Forall_forall. intros m [_ Hm]%elem_of_seq.
    apply lookup_lt_is_Some_2. lia. }
  rewrite (exec_bind _ _ _ _ _ (incomplete_run _ s Hall)).
  unfold ret. do 2 f_equal. apply bool_decide_ext.
  rewrite filter_length_0, !Forall_lookup. split.
  - intros H i x Hx. specialize (H i i).
    rewrite lookup_seq, Hx in H. cbn in H.
    destruct (is_complete x); [done|]. exfalso. apply H; [|done].
    split; [done|]. by eapply lookup_lt_Some.
  - intros H i m Hi. apply lookup_seq in Hi as [-> Hlt].
    destruct (lookup_lt_is_Some_2 (mheap s) i Hlt) as [x Hx].
    change (0 + i)%nat with i. rewrite Hx. cbn. by rewrite (H i x Hx).
Qed.

Lemma process_match_result_run s m :
  matches s = seq 0 (length (mheap s)) →
  process_match_result m s
  = if bool_decide (Forall (λ x, is_complete x = true) (mheap s)) then
      if bool_decide (current_round (fmt s) ≠ rounds (fmt s))
      then setup_round s else trigger_event on_complete s
    else (s, Ok tt).
Proof.
  intros Hms. unfold process_match_result.
  rewrite (exec_bind _ _ _ _ _ (is_round_complete_run s Hms)).
  destruct (bool_decide _); [|done]. rewrite bind_gets.
  by destruct (bool_decide _).
Qed.

(** An orderly report in the round-based format. *)
Lemma round_report_step s m x w :
  mheap s !! m = Some x → active x = true → names w x →
  matches s = seq 0 (length (mheap s)) →
  Nat.even (length (participants s)) = true →
  let y := set_winner (Some w) (loser_for (Some w) x) x in
  let mh := <[m := y]> (mheap s) in
  let n := length (participants s) in
  let s' := exec (report_result m (Some w)) s in
  ∃ new,
    outcome (report_result m (Some w)) s = Ok tt
    ∧ config s' = config s
    ∧ (∀ q, score_of s' q = score_of s q + points q y)
    ∧ mheap s' = mh ++ new
    ∧ matches s' = seq 0 (length (mheap s'))
    ∧ (∀ q, faced s' q = faced s q ++ flat_map (opps q) new)
    ∧ Forall fresh new
    ∧ if bool_decide (Forall (λ x, is_complete x = true) mh) then
        if bool_decide (current_round (fmt s) ≠ rounds (fmt s)) then
          current_round (fmt s') = current_round (fmt s) + 1
          ∧ length new = Nat.div2 n
          ∧ flat_map slots new ≡ₚ Some <$> participants s
          ∧ fired s' = fired s ++ on_match_complete m ::
                (on_match_ready <$> seq (length mh) (Nat.div2 n))
                ++ [on_start_round]
        else current_round (fmt s') = current_round (fmt s) ∧ new = []
             ∧ fired s' = fired s ++ [on_match_complete m; on_complete]
      else current_round (fmt s') = current_round (fmt s) ∧ new = []
           ∧ fired s' = fired s ++ [on_match_complete m].
Proof.
  intros Hm Hact Hw Hms Heven y mh n s'.
  destruct (report_result_orderly process_match_result s m x w Hm Hact Hw)
    as (s1 & Hrun & Hmh1 & Hf1 & Hms1 & Hps1 & Hnp1 & Hfmt1 & Hsc1 & _).
  fold y in Hmh1, Hsc1. fold mh in Hmh1.
  assert (Hms1' : matches s1 = seq 0 (length (mheap s1))).
  { rewrite Hms1, Hmh1. unfold mh. by rewrite length_insert. }
  assert (Hs' : s' = exec (process_match_result m) s1).
  { unfold s', exec, report_result. by rewrite Hrun. }
  unfold outcome, report_result. rewrite Hrun.
  clearbody s'. subst s'. unfold exec.
  rewrite (process_match_result_run s1 m Hms1').
  assert (Hcfg1 : config s1 = config s)
    by (unfold config; by rewrite Hps1, Hnp1, Hfmt1).
  assert (Hfc1 : ∀ q, faced s1 q = faced s q)
    by (intros q; unfold faced; by rewrite Hfmt1).
  rewrite Hmh1, Hfmt1.
  destruct (bool_decide (Forall _ mh)).
  - destruct (bool_decide (_ ≠ _)).
    + destruct (setup_round_effect s1) as (new & rest & Ho & Hc & Hr & Hs
        & Hm' & Hn & Hfr & Hms' & Hf' & Hperm & Hrest & Hfc').
      rewrite Hps1 in Ho, Hn, Hms', Hf', Hperm, Hrest.
      fold n in Ho, Hn, Hms', Hf', Hrest. unfold n in Ho, Hf', Hrest.
      rewrite Heven in Ho, Hf', Hrest. unfold exec, outcome in *.
      destruct rest; [|done]. rewrite app_nil_r in Hperm.
      exists new. rewrite Hm', Hmh1.
      split; [done|]. split; [by rewrite Hc|].
      split; [intros q; by rewrite Hs|]. split; [done|].
      split.
      { rewrite Hms', Hms1', Hmh1, length_app, Hn. by rewrite seq_app. }
      split; [intros q; by rewrite Hfc', Hfc1|]. split; [done|].
      split; [by rewrite Hr, Hfmt1|]. split; [done|]. split; [done|].
      rewrite Hf', Hf1, Hmh1, <- app_assoc. done.
    + exists []. cbn. rewrite app_nil_r, Hf1, <- app_assoc.
      repeat split; try done.
      * intros q. rewrite app_nil_r. apply Hfc1.
      * by rewrite Hfmt1.
  - exists []. cbn. rewrite app_nil_r.
    repeat split; try done.
    + intros q. rewrite app_nil_r. apply Hfc1.
    + by rewrite Hfmt1.
Qed.

(** ** The round-based format: orderly use *)

Lemma fresh_inv x :
  fresh x →
  winner x = None ∧ is_complete x = false
  ∧ is_Some (home x) ∧ is_Some (away x).
Proof. intros (h & a & ->). by repeat split. Qed.

Lemma active_incomplete x : active x = true → is_complete x = false.
Proof.
  intros Hact. destruct (active_inv x Hact) as (h & a & _ & _ & Hw).
  unfold is_complete. by rewrite Hw, bool_decide_false by (intros ?; done).
Qed.

Lemma even_half n : Nat.even n = true → n = (2 * Nat.div2 n)%nat.
Proof.
  intros H. apply Nat.even_spec in H. apply Nat.Even_double in H.
  unfold Nat.double in H. lia.
Qed.

Lemma on_complete_not_ready (l : list mref) :
  on_complete ∉ on_match_ready <$> l.
Proof. intros (m & ? & _)%list_elem_of_fmap. done. Qed.

Lemma in_play_core n ps h s :
  Nat.even (length ps) = true → (2 ≤ length ps)%nat → 1 ≤ n →
  in_play n ps h s →
  let half := Nat.div2 (length ps) in
  config s = (ps, Some (length ps), n, Some (length ps / 2)%nat)
  ∧ matches s = seq 0 (length (mheap s))
  ∧ Forall (λ x, is_Some (home x) ∧ is_Some (away x)) (mheap s)
  ∧ ∃ c : nat,
      current_round (fmt s) = Z.of_nat c ∧ (1 ≤ c)%nat ∧ Z.of_nat c ≤ n
      ∧ length (mheap s) = (c * half)%nat
      ∧ (∀ i x, (i < (c - 1) * half)%nat → mheap s !! i = Some x →
           is_complete x = true)
      ∧ (Forall (λ x, is_complete x = true) (mheap s) → Z.of_nat c = n)
      ∧ (on_complete ∈ fired s
         ↔ Forall (λ x, is_complete x = true) (mheap s))
      ∧ (length (filter (λ e, e = on_complete) (fired s)) ≤ 1)%nat.
Proof.
  intros Heven Hn2 Hn1 Hplay half.
  assert (Hhalf : (1 ≤ half)%nat).
  { pose proof (even_half _ Heven). unfold half. lia. }
  induction Hplay as [|s m x w Hplay IH Hm Hact Hw].
  - destruct (start_effect n ps h)
      as (rest & _ & Hcfg & Hcr & _ & Hlen & Hfr & Hms & Hf & _).
    rewrite Heven in Hf. fold half in Hlen, Hms, Hf.
    set (s := exec start _) in *. clearbody s.
    assert (Hnc : ¬ Forall (λ x, is_complete x = true) (mheap s)).
    { intros Hall. destruct (mheap s) as [|x l]; [simpl in Hlen; lia|].
      apply Forall_cons in Hall as [Hx _]. apply Forall_cons in Hfr as [Hfx _].
      apply fresh_inv in Hfx as (_ & Hc & _). congruence. }
    assert (Hno : on_complete ∉ fired s).
    { rewrite Hf. intros [?|[?%on_complete_not_ready|Hin]%elem_of_app]
        %elem_of_cons; try done.
      by apply list_elem_of_singleton in Hin. }
    split; [done|]. split; [by rewrite Hms, Hlen|]. split.
    { eapply Forall_impl; [exact Hfr|]. intros x Hx.
      by apply fresh_inv in Hx as (_ & _ & ? & ?). }
    exists 1%nat. split; [done|]. split; [lia|]. split; [lia|].
    split; [lia|]. split; [intros; lia|]. split; [done|].
    split; [split; done|].
    rewrite (filter_none _ (fired s)); [simpl; lia|].
    apply Forall_forall. intros e He ->. done.
  - destruct IH as (Hcfg & Hms & Hfill & c & Hcr & Hc1 & Hcn & Hlen & Hold
                    & Hlast & Hfired & Hcount).
    assert (Hps : participants s = ps) by (by inversion Hcfg).
    assert (Hrounds : rounds (fmt s) = n) by (by inversion Hcfg).
    destruct (round_report_step s m x w Hm Hact Hw Hms)
      as (new & Hout & Hcfg' & _ & Hmh' & Hms' & _ & Hfr & Hcase).
    { by rewrite Hps. }
    set (s' := exec (report_result m (Some w)) s) in *. clearbody s'.
    set (y := set_winner _ _ x) in *.
    assert (Hy : is_complete y = true) by done.
    assert (Hincomplete : ¬ Forall (λ x, is_complete x = true) (mheap s)).
    { intros Hall. rewrite Forall_lookup in Hall.
      pose proof (Hall m x Hm). pose proof (active_incomplete x Hact).
      congruence. }
    assert (Hno : on_complete ∉ fired s) by (by rewrite Hfired).
    assert (Hcount0 : filter (λ e, e = on_complete) (fired s) = []).
    { apply filter_none, Forall_forall. intros e He ->. done. }
    assert (Hfill' : Forall (λ x, is_Some (home x) ∧ is_Some (away x))
                       (<[m:=y]> (mheap s))).
    { apply Forall_insert; [done|].
      rewrite Forall_lookup in Hfill. apply (Hfill m x Hm). }
    rewrite Hps, Hrounds, Hcr in Hcase. fold half in Hcase.
    split; [by rewrite Hcfg'|]. split; [done|].
    destruct (bool_decide (Forall _ (<[m:=y]> (mheap s)))) eqn:Hdone.
    + apply bool_decide_eq_true in Hdone.
      destruct (bool_decide (Z.of_nat c ≠ n)) eqn:Hne.
      * apply bool_decide_eq_true in Hne.
        destruct Hcase as (Hcr' & Hlen' & _ & Hf').
        assert (Hnc : ¬ Forall (λ x, is_complete x = true) (mheap s')).
        { rewrite Hmh'. intros [_ Hall]%Forall_app.
          destruct new as [|x0 l]; [simpl in Hlen'; lia|].
          apply Forall_cons in Hall as [Hx _].
          apply Forall_cons in Hfr as [Hfx _].
          apply fresh_inv in Hfx as (_ & Hc & _). congruence. }
        assert (Hno' : on_complete ∉ fired s').
        { rewrite Hf'. intros [?|[?|[?%on_complete_not_ready|Hin]
            %elem_of_app]%elem_of_cons]%elem_of_app; try done.
          by apply list_elem_of_singleton in Hin. }
        split.
        { rewrite Hmh'. apply Forall_app. split; [done|].
          eapply Forall_impl; [exact Hfr|]. intros x0 Hx.
          by apply fresh_inv in Hx as (_ & _ & ? & ?). }
        exists (S c). split; [lia|]. split; [lia|]. split; [lia|].
        split; [rewrite Hmh', length_app, length_insert, Hlen, Hlen'; lia|].
        split.
        { intros i x0 Hi Hx0. rewrite Hmh' in Hx0.
          rewrite lookup_app_l in Hx0
            by (rewrite length_insert, Hlen; simpl in Hi; lia).
          rewrite Forall_lookup in Hdone. by apply (Hdone i). }
        split; [done|]. split; [split; done|].
        rewrite (filter_none _ (fired s')); [simpl; lia|].
        apply Forall_forall. intros e He ->. done.
      * apply bool_decide_eq_false in Hne.
        destruct Hcase as (Hcr' & -> & Hf'). rewrite app_nil_r in Hmh'.
        rewrite Hmh'. split; [done|].
        exists c. split; [lia|]. split; [lia|]. split; [lia|].
        split; [by rewrite length_insert|].
        split.
        { intros i x0 Hi Hx0. rewrite Forall_lookup in Hdone.
          by apply (Hdone i). }
        split; [intros _; by apply dec_stable|].
        split.
        { split; [done|]. intros _. rewrite Hf'.
          apply elem_of_app. right. right. by left. }
        rewrite Hf', filter_app, Hcount0. simpl. lia.
    + apply bool_decide_eq_false in Hdone.
      destruct Hcase as (Hcr' & -> & Hf'). rewrite app_nil_r in Hmh'.
      rewrite Hmh'. split; [done|].
      exists c. split; [lia|]. split; [lia|]. split; [lia|].
      split; [by rewrite length_insert|].
      split.
      { intros i x0 Hi Hx0.
        destruct (decide (i = m)) as [->|Him].
        - rewrite list_lookup_insert_eq in Hx0 by (by eapply lookup_lt_Some).
          by inversion Hx0.
        - rewrite list_lookup_insert_ne in Hx0 by done. by apply (Hold i). }
      split; [done|].
      split.
      { split; [|done]. rewrite Hf'.
        intros [?|Hin]%elem_of_app; [done|].
        by apply list_elem_of_singleton in Hin. }
      rewrite Hf', filter_app, Hcount0. simpl. lia.
Qed.

(** In orderly use the score is the sum of the points of the results. *)
Lemma in_play_standing n ps h s :
  Nat.even (length ps) = true → (2 ≤ length ps)%nat → 1 ≤ n →
  in_play n ps h s →
  ∀ p, score_of s p = Bracket.reset_score ps h p + standing p (mheap s).
Proof.
  intros Heven Hn2 Hn1 Hplay.
  induction Hplay as [|s m x w Hplay IH Hm Hact Hw]; intros p.
  - destruct (start_effect n ps h)
      as (rest & _ & _ & _ & Hsc & _ & Hfr & _).
    rewrite Hsc, (standing_fresh _ _ Hfr). lia.
  - destruct (in_play_core n ps h s Heven Hn2 Hn1 Hplay)
      as (Hcfg & Hms & _).
    assert (Hps : participants s = ps) by (by inversion Hcfg).
    destruct (round_report_step s m x w Hm Hact Hw Hms)
      as (new & _ & _ & Hsc & Hmh' & _ & _ & Hfr & _).
    { by rewrite Hps. }
    rewrite Hsc, Hmh', IH, standing_app, (standing_fresh _ _ Hfr).
    rewrite (standing_insert _ _ _ x _ Hm).
    destruct (active_inv x Hact) as (_ & _ & _ & _ & Hnone).
    unfold points at 2. rewrite Hnone. lia.
Qed.

Lemma flat_map_slots l : flat_map slots l = concat (slots <$> l).
Proof. induction l as [|x l IH]; [done|]. simpl. by rewrite IH. Qed.

(** The matches of round [r + 1], among the matches [l] of a tournament
    with [k] matches in a round. *)
Lemma round_slots k r (l : list Match) :
  flat_map slots (take k (drop (r * k) l))
  = concat (take k (drop (r * k) (slots <$> l))).
Proof. by rewrite flat_map_slots, fmap_take, fmap_drop. Qed.

(** In orderly use every round holds every participant once. *)
Lemma in_play_rounds n ps h s :
  Nat.even (length ps) = true → (2 ≤ length ps)%nat → 1 ≤ n →
  in_play n ps h s →
  let half := Nat.div2 (length ps) in
  ∀ r : nat, Z.of_nat r < current_round (fmt s) →
    flat_map slots (take half (drop (r * half) (mheap s))) ≡ₚ Some <$> ps.
Proof.
  intros Heven Hn2 Hn1 Hplay half.
  induction Hplay as [|s m x w Hplay IH Hm Hact Hw]; intros r Hr.
  - destruct (start_effect n ps h)
      as (rest & _ & _ & Hcr & _ & Hlen & _ & _ & _ & Hperm & Hrest & _).
    rewrite Heven in Hrest. destruct rest; [|done].
    rewrite app_nil_r in Hperm. rewrite Hcr in Hr.
    assert (r = 0%nat) as -> by lia. rewrite drop_0, take_ge; [done|].
    by rewrite Hlen.
  - destruct (in_play_core n ps h s Heven Hn2 Hn1 Hplay)
      as (Hcfg & Hms & _ & c & Hcr & Hc1 & Hcn & Hlen & _).
    fold half in Hlen.
    assert (Hps : participants s = ps) by (by inversion Hcfg).
    destruct (round_report_step s m x w Hm Hact Hw Hms)
      as (new & _ & _ & _ & Hmh' & _ & _ & _ & Hcase).
    { by rewrite Hps. }
    set (s' := exec (report_result m (Some w)) s) in *. clearbody s'.
    set (y := set_winner _ _ x) in *.
    assert (Hsl : slots <$> <[m:=y]> (mheap s) = slots <$> mheap s).
    { rewrite list_fmap_insert. apply list_insert_id.
      by rewrite list_lookup_fmap, Hm. }
    rewrite Hps in Hcase. fold half in Hcase.
    rewrite round_slots, Hmh', fmap_app, Hsl.
    assert (Hold : (r < c)%nat →
              concat (take half (drop (r * half)
                                   ((slots <$> mheap s) ++ (slots <$> new))))
              ≡ₚ Some <$> ps).
    { intros Hrc. rewrite <- (IH r) by lia. rewrite round_slots.
      rewrite drop_app_le by (rewrite length_fmap; nia).
      rewrite take_app_le; [done|].
      rewrite length_drop, length_fmap. nia. }
    destruct (bool_decide (Forall _ _)); [destruct (bool_decide (_ ≠ _))|].
    + destruct Hcase as (Hcr' & Hlen' & Hperm & _).
      destruct (decide (r < c)%nat) as [Hrc|Hrc]; [by apply Hold|].
      assert (r = c) as -> by lia.
      rewrite drop_app_length' by (by rewrite length_fmap).
      rewrite take_ge by (by rewrite length_fmap, Hlen').
      by rewrite <- flat_map_slots.
    + destruct Hcase as (Hcr' & _). apply Hold. lia.
    + destruct Hcase as (Hcr' & _). apply Hold. lia.
Qed.

(** ** The round-based format: any use *)

Lemma config_eq s s' :
  config s' = config s →
  participants s' = participants s ∧ rounds (fmt s') = rounds (fmt s).
Proof. unfold config. intros H. by inversion H. Qed.

Lemma config_inv s ps np n mpr :
  config s = (ps, np, n, mpr) →
  participants s = ps ∧ num_players s = np ∧ rounds (fmt s) = n
  ∧ matches_per_round (fmt s) = mpr.
Proof. unfold config. intros H. by inversion H. Qed.

Lemma is_round_complete_state s : (is_round_complete s).1 = s.
Proof.
  assert (Hinc : ∀ ms, keeps (λ s, s) (incomplete ms)).
  { induction ms as [|m' ms IH]; simpl; [apply keeps_ret|].
    apply keeps_bind; [apply keeps_read_match|]. intros x.
    apply keeps_bind; [done|]. intros r. apply keeps_ret. }
  assert (H : keeps (λ s, s) is_round_complete).
  { apply keeps_bind; [apply keeps_gets|]. intros ms.
    apply keeps_bind; [apply Hinc|]. intros l. apply keeps_ret. }
  apply H.
Qed.

(** The advancement step, from any state: nothing, or the next round,
    or [on_complete]. *)
Lemma process_match_result_cases s m :
  let s' := exec (process_match_result m) s in
  s' = s
  ∨ (current_round (fmt s) ≠ rounds (fmt s) ∧ s' = exec setup_round s)
  ∨ (current_round (fmt s) = rounds (fmt s)
     ∧ s' = upd_fired (λ l, l ++ [on_complete]) s).
Proof.
  unfold exec, process_match_result, bind.
  pose proof (is_round_complete_state s) as H.
  destruct (is_round_complete s) as [s1 [[|]|e]]; simpl in H; subst s1;
    [|by left..].
  unfold gets. case_bool_decide as Hc.
  - right. left. done.
  - right. right. split; [lia|done].
Qed.

(** The opponents recorded are those of the matches made. *)
Lemma in_use_faced n ps h s :
  in_use n ps h s → ∀ q, faced s q = flat_map (opps q) (mheap s).
Proof.
  induction 1 as [|s m w Hplay IH].
  - by destruct (start_effect n ps h) as (rest & _ & _ & _ & _ & _ & _ & _ & _
                                           & _ & _ & Hfc).
  - revert IH. generalize s. clear.
    apply (preserves_report_result
             (λ s, ∀ q, faced s q = flat_map (opps q) (mheap s))).
    + done.
    + intros s l IH q. etrans; [apply (IH q)|]. cbn [mheap upd_mheap].
      generalize (mheap s). clear. intros mh. revert m.
      induction mh as [|x mh IHm]; intros [|m]; simpl; try done.
      f_equal. apply IHm.
    + done.
    + intros s IH q.
      destruct (process_match_result_cases s m) as [->|[[_ ->]|[_ ->]]].
      * apply IH.
      * destruct (setup_round_effect s) as (new & rest & _ & _ & _ & _ & Hm'
          & _ & _ & _ & _ & _ & _ & Hfc').
        rewrite Hfc', Hm', IH, flat_map_app. done.
      * apply IH.
Qed.

(** With fewer than one round configured, the tournament never
    completes. *)
Lemma in_use_no_round n ps h s :
  n < 1 → in_use n ps h s →
  1 ≤ current_round (fmt s) ∧ rounds (fmt s) = n ∧ on_complete ∉ fired s.
Proof.
  intros Hn. induction 1 as [|s m w Hplay IH].
  - destruct (start_effect n ps h)
      as (rest & _ & Hcfg & Hcr & _ & _ & _ & _ & Hf & _).
    apply config_inv in Hcfg as (_ & _ & Hr & _).
    split; [lia|]. split; [done|].
    rewrite Hf. intros [?|[?%on_complete_not_ready|Hin]%elem_of_app]
      %elem_of_cons; try done.
    destruct (Nat.even _); [|by apply elem_of_nil in Hin].
    by apply list_elem_of_singleton in Hin.
  - revert IH. generalize s. clear -Hn.
    apply (preserves_report_result
             (λ s, 1 ≤ current_round (fmt s) ∧ rounds (fmt s) = n
                   ∧ on_complete ∉ fired s)).
    + done.
    + done.
    + intros s (? & ? & Hno). split; [done|]. split; [done|].
      cbn. intros [?|Hin]%elem_of_app; [done|].
      by apply list_elem_of_singleton in Hin.
    + intros s (Hcr & Hr & Hno).
      destruct (process_match_result_cases s m) as [->|[[_ ->]|[He _]]];
        [done| |lia].
      destruct (setup_round_effect s) as (new & rest & _ & Hcfg & Hcr' & _
        & _ & _ & _ & _ & Hf & _).
      apply config_eq in Hcfg as (_ & Hr').
      split; [lia|]. split; [congruence|].
      rewrite Hf. intros [?|[?%on_complete_not_ready|Hin]%elem_of_app]
        %elem_of_app; try done.
      destruct (Nat.even _); [|by apply elem_of_nil in Hin].
      by apply list_elem_of_singleton in Hin.
Qed.

(** ** The round-based format: the match history *)

Lemma imap_alter_ext {A B} (f : nat → A → B) (g : A → A) m (l : list A) :
  (∀ i x, f i (g x) = f i x) → imap f (alter g m l) = imap f l.
Proof.
  revert f m. induction l as [|x l IH]; intros f m Hf; [done|].
  destruct m as [|m]; simpl.
  - by rewrite Hf.
  - f_equal. apply IH. intros i y. apply Hf.
Qed.

Lemma played_snoc q l x :
  played q (l ++ [x]) = played q l ++ plays q (length l) x.
Proof.
  unfold played. rewrite imap_app, concat_app. simpl.
  by rewrite Nat.add_0_r, app_nil_r.
Qed.

Lemma played_set_winner q w l m mh :
  played q (alter (set_winner w l) m mh) = played q mh.
Proof. unfold played. by rewrite imap_alter_ext. Qed.

Lemma reset_scores_history {F} ps : ∀ (s : State F) q,
  match_history (participant (exec (Tournament.reset_scores ps) s) q)
  = match_history (participant s q)
  ∧ current_match (participant (exec (Tournament.reset_scores ps) s) q)
    = current_match (participant s q).
Proof.
  induction ps as [|p ps IH]; intros s q; [done|].
  change (exec (Tournament.reset_scores (p :: ps)) s)
    with (exec (Tournament.reset_scores ps)
               (exec (upd_participant p zero_score) s)).
  destruct (IH (exec (upd_participant p zero_score) s) q) as [-> ->].
  unfold participant, exec, upd_participant, modify; simpl.
  rewrite lookup_insert. by destruct (decide (p = q)) as [->|].
Qed.

Lemma add_score_history {F} (s : State F) p d q :
  match_history (participant (exec (upd_participant p (add_score d)) s) q)
  = match_history (participant s q)
  ∧ current_match (participant (exec (upd_participant p (add_score d)) s) q)
    = current_match (participant s q).
Proof.
  unfold participant, exec, upd_participant, modify; simpl.
  rewrite lookup_insert. by destruct (decide (p = q)) as [->|].
Qed.

(** One turn of the pairing loop: what it adds to the match histories. *)
Lemma pair_next_history hm players s :
  match pair_next hm players s with
  | (s', Ok rest) =>
      ∃ x, mheap s' = mheap s ++ [x]
        ∧ ∀ q, match_history (participant s' q)
               = match_history (participant s q)
                 ++ plays q (length (mheap s)) x
             ∧ current_match (participant s' q)
               = from_option Some (current_match (participant s q))
                             (last (plays q (length (mheap s)) x))
  | (s', Raise e) => s' = s
  end.
Proof.
  unfold pair_next. pose proof (choose_away_spec hm players s) as H.
  unfold bind at 1.
  destruct (choose_away hm players s) as [s1 [[aw rest]|e]];
    [|by destruct H as (_ & _ & ->)].
  destruct H as ((Hp & Hm & Hf & Hms & Hps & Hfc) & Hin & -> & Hforced).
  cbn [fst snd]. unfold alloc_Match. unfold bind at 1.
  unfold set_current_match, upd_participant. rewrite !bind_modify.
  rewrite (exec_bind _ _ _ _ _ (add_opponent_run _ _ _)).
  rewrite (exec_bind _ _ _ _ _ (add_opponent_run _ _ _)).
  unfold trigger_event. rewrite !bind_modify. unfold ret.
  exists (new_Match (Some hm) (Some aw)). split.
  { cbn. by rewrite Hm. }
  intros q. unfold participant, plays.
  cbn [pheap mheap upd_fired upd_matches upd_fmt upd_pheap upd_mheap
       home away new_Match].
  rewrite Hp, Hm, !lookup_insert.
  destruct (decide (aw = q)) as [->|Haq], (decide (hm = q)) as [->|Hhq];
    cbn; rewrite ?lookup_insert_eq, ?lookup_insert_ne by done; cbn;
    repeat case_decide; simplify_eq; cbn;
    rewrite ?app_nil_r, <- ?app_assoc; done.
Qed.

Section History.
Variable h : gmap pid Participant.

(** The participant objects the tournament is given, then the matches
    made. *)
Local Abbreviation hist s :=
  (∀ q, match_history (participant s q)
        = match_history (default new_Participant (h !! q))
          ++ played q (mheap s)
      ∧ current_match (participant s q)
        = from_option Some (current_match (default new_Participant (h !! q)))
                      (last (played q (mheap s)))).

Lemma hist_pair_next hm players s :
  hist s → hist (exec (pair_next hm players) s).
Proof.
  intros Hs. pose proof (pair_next_history hm players s) as H.
  unfold exec. destruct (pair_next hm players s) as [s' [rest|e]];
    [|by subst s'].
  destruct H as (x & Hmh & Hq). intros q. cbn [fst].
  destruct (Hq q) as [-> ->]. destruct (Hs q) as [-> ->].
  rewrite Hmh, played_snoc, <- app_assoc. split; [done|].
  rewrite last_app. by destruct (last (plays q _ x)).
Qed.

Lemma hist_pair_all fuel : ∀ players s,
  hist s → hist (exec (pair_all fuel players) s).
Proof.
  induction fuel as [|fuel IH]; intros [|hm rest] s Hs; try done.
  unfold exec. cbn [pair_all]. unfold bind.
  pose proof (hist_pair_next hm rest s Hs) as H. unfold exec in H.
  destruct (pair_next hm rest s) as [s1 [rest'|e]]; [|done].
  by apply IH.
Qed.

Lemma hist_setup_round s : hist s → hist (exec setup_round s).
Proof.
  intros Hs. unfold exec, setup_round, Tournament.get_players_by_rank.
  rewrite bind_modify, bind_gets.
  set (players := sorted_reverse _ _). set (s2 := upd_fmt _ _).
  assert (H2 : hist s2) by done.
  pose proof (hist_pair_all (length players) players s2 H2) as H.
  unfold bind, exec in *.
  by destruct (pair_all (length players) players s2) as [s3 [[]|e]].
Qed.

(** In any use, the match history of a participant object is the one it
    came with followed by the matches it has been paired in, and its
    current match is the last of them. *)
Lemma in_use_history n ps s : in_use n ps h s → hist s.
Proof.
  induction 1 as [|s m w Hplay IH].
  - assert (Hrun : exec start (SwissTournament n ps h)
                   = exec setup_round
                       (upd_fmt (λ x,
                          {| current_round := current_round x;
                             rounds := rounds x; opponents := opponents x;
                             matches_per_round := Some (length ps / 2)%nat |})
                          (upd_fired (λ l, l ++ [on_start])
                             (exec (Tournament.reset_scores ps)
                                (set_num_players (length ps)
                                   (SwissTournament n ps h)))))).
    { unfold exec at 1. unfold start, Tournament.start.
      rewrite bind_modify, bind_gets.
      change (participants (set_num_players _ _)) with ps.
      rewrite (exec_bind _ _ _ _ _ (reset_scores_ok _ _)).
      unfold trigger_event, seed_players. rewrite !bind_modify.
      pose proof (keeps_reset_scores participants ps (λ _ _, eq_refl)
                    (set_num_players (length ps) (SwissTournament n ps h)))
        as Hk.
      unfold exec in *.
      change (participants (SwissTournament n ps h)) with ps.
      change (participants (upd_fired ?f ?s)) with (participants s).
      by rewrite Hk. }
    rewrite Hrun. apply hist_setup_round. intros q.
    change (participant (upd_fmt ?f (upd_fired ?g ?s)) q)
      with (participant s q).
    destruct (reset_scores_history ps
                (set_num_players (length ps) (SwissTournament n ps h)) q)
      as [-> ->].
    change (mheap (upd_fmt ?f (upd_fired ?g ?s))) with (mheap s).
    rewrite (keeps_reset_scores mheap _ (λ _ _, eq_refl)).
    unfold played. cbn. by rewrite app_nil_r.
  - revert IH. generalize s. clear.
    apply (preserves_report_result (λ s, hist s)).
    + intros s p d Hs q. destruct (add_score_history s p d q) as [-> ->].
      apply Hs.
    + intros s l Hs q. cbn [mheap upd_mheap]. rewrite played_set_winner.
      apply Hs.
    + done.
    + intros s Hs.
      destruct (process_match_result_cases s m) as [->|[[_ ->]|[_ ->]]];
        [done| |done].
      by apply hist_setup_round.
Qed.

End History.

(** ** The round-based format: the driver *)

Section RoundDriver.
Variables (n : Z) (ps : list pid) (h : gmap pid Participant).
Hypothesis Heven : Nat.even (length ps) = true.
Hypothesis Hn2 : (2 ≤ length ps)%nat.
Hypothesis Hn1 : 1 ≤ n.

(** The matches still to be reported: those of the rounds to come and
    those not Completed. *)
Local Abbreviation left s :=
  (Z.to_nat (n - current_round (fmt s)) * Nat.div2 (length ps)
   + pending (mheap s))%nat.

Lemma in_play_over s :
  in_play n ps h s →
  (on_complete ∈ fired s
   ↔ Forall (λ x, is_complete x = true) (mheap s))
  ∧ (on_complete ∈ fired s ↔ left s = 0%nat).
Proof.
  intros Hplay.
  destruct (in_play_core n ps h s Heven Hn2 Hn1 Hplay)
    as (_ & _ & _ & c & Hcr & Hc1 & Hcn & _ & _ & Hlast & Hfired & _).
  split; [done|]. rewrite Hfired, <- pending_0. split.
  - intros Hp. rewrite Hp. apply pending_0, Hlast in Hp. lia.
  - intros Hl. by apply Nat.eq_add_0 in Hl as [_ Hl].
Qed.

(** A turn of the loop while the tournament is not complete. *)
Lemma swiss_turn s r :
  in_play n ps h s → on_complete ∉ fired s →
  ∃ s', Example.turn report_result r s = (s', Ok tt)
    ∧ in_play n ps h s'
    ∧ (left s' + 1 = left s)%nat
    ∧ Example.exited s s' = bool_decide (on_complete ∈ fired s').
Proof.
  intros Hplay Hno.
  destruct (in_play_core n ps h s Heven Hn2 Hn1 Hplay)
    as (Hcfg & Hms & Hfill & c & Hcr & Hc1 & Hcn & Hlen & _ & _ & Hfired & _).
  apply config_inv in Hcfg as (Hps & _ & Hrounds & _).
  assert (Hact : ∃ m x, mheap s !! m = Some x ∧ active x = true).
  { rewrite Hfired in Hno. apply not_Forall_Exists in Hno; [|apply _].
    apply Exists_exists in Hno as (x & [m Hx]%list_elem_of_lookup & Hc).
    exists m, x. split; [done|]. rewrite Forall_lookup in Hfill.
    destruct (Hfill m x Hx) as [[hx Hhx] [ax Hax]].
    unfold active. rewrite Hhx, Hax. unfold is_complete in Hc.
    destruct (winner x) eqn:Hw; [|done]. exfalso. apply Hc.
    apply bool_decide_eq_true_2. by rewrite Hw. }
  destruct (turn_run report_result r s Hms Hact)
    as (m & x & p & Hm & Hactx & Hp & Hturn).
  destruct (round_report_step s m x (P p) Hm Hactx Hp Hms)
    as (new & Hout & _ & _ & Hmh' & _ & _ & Hfr & Hcase).
  { by rewrite Hps. }
  set (s' := exec (report_result m (Some (P p))) s) in *.
  set (y := set_winner _ _ x) in *.
  assert (Hrun : report_result m (Some (P p)) s = (s', Ok tt)).
  { unfold s', exec, outcome in *.
    destruct (report_result m (Some (P p)) s) as [s0 r0]. simpl in *.
    by rewrite Hout. }
  assert (Hplay' : in_play n ps h s').
  { by apply (in_play_report n ps h s m x (P p)). }
  clearbody s'. exists s'. rewrite Hturn. split; [done|]. split; [done|].
  assert (Hpend : (pending (<[m:=y]> (mheap s)) + 1 = pending (mheap s))%nat).
  { apply (pending_step _ _ m x); [by rewrite length_insert|done| |].
    - by apply active_incomplete.
    - intros i y0 y' Hy0 Hy'. destruct (decide (i = m)) as [->|Hne].
      + rewrite list_lookup_insert_eq in Hy' by (by eapply lookup_lt_Some).
        by injection Hy' as <-.
      + rewrite list_lookup_insert_ne in Hy' by done. congruence. }
  rewrite Hps, Hrounds, Hcr in Hcase.
  assert (Hex : ∀ l, fired s' = fired s ++ l →
            Example.exited s s' = bool_decide (on_complete ∈ fired s')).
  { intros l Hf'. rewrite (exited_app s s' l Hf'). apply bool_decide_ext.
    rewrite Hf', elem_of_app. split; [by right|]. by intros [?|?]. }
  rewrite Hmh', pending_app, (pending_fresh _ Hfr).
  destruct (bool_decide (Forall _ _)) eqn:Hdone.
  - apply bool_decide_eq_true, pending_0 in Hdone.
    destruct (bool_decide (Z.of_nat c ≠ n)) eqn:Hne.
    + apply bool_decide_eq_true in Hne.
      destruct Hcase as (Hcr' & Hlen' & _ & Hf').
      split; [|by eapply Hex]. rewrite Hcr', Hcr, Hlen'.
      replace (Z.to_nat (n - Z.of_nat c))
        with (S (Z.to_nat (n - (Z.of_nat c + 1)))) by lia.
      lia.
    + apply bool_decide_eq_false in Hne.
      destruct Hcase as (Hcr' & -> & Hf').
      split; [|by eapply Hex]. rewrite Hcr'. simpl. lia.
  - destruct Hcase as (Hcr' & -> & Hf').
    split; [|by eapply Hex]. rewrite Hcr'. simpl. lia.
Qed.

Lemma swiss_loop rs : ∀ s,
  in_play n ps h s → on_complete ∉ fired s →
  outcome (Example.loop report_result rs) s
  = Ok (bool_decide (left s ≤ length rs)%nat).
Proof.
  induction rs as [|r rs IH]; intros s Hplay Hno.
  - cbn. rewrite bool_decide_false; [done|].
    intros Hle. destruct (in_play_over s Hplay) as [_ Hleft0].
    apply Hno, Hleft0. by apply Nat.le_0_r in Hle.
  - destruct (swiss_turn s r Hplay Hno) as (s' & Hturn & Hplay' & Hleft & Hex).
    unfold outcome. cbn [Example.loop]. unfold Example.then_unless_exited.
    rewrite Hturn, Hex. case_bool_decide as Hc.
    + cbn. rewrite bool_decide_true; [done|].
      destruct (in_play_over s' Hplay') as [_ Hleft0].
      apply Hleft0 in Hc. rewrite <- Hleft, Hc. simpl. lia.
    + rewrite (IH s' Hplay' Hc : snd _ = _).
      f_equal. apply bool_decide_ext. rewrite <- Hleft. simpl. lia.
Qed.

End RoundDriver.

End RoundFacts.

(** ** The round-based format: the first round in list order *)

Lemma sorted_reverse_const {A} (key : A → Z) l :
  (∀ x y, x ∈ l → y ∈ l → key x = key y) → sorted_reverse key l = l.
Proof.
  induction l as [|x l IH]; intros H; [done|].
  simpl. rewrite IH.
  2:{ intros a b Ha Hb. apply H; by right. }
  destruct l as [|y l]; [done|]. simpl.
  rewrite (H x y); [|by left|by right; left].
  by rewrite Z.ltb_irrefl.
Qed.

Module RoundOrder.
Import Swiss Pairing Round SwissFacts RoundFacts.

(** The choice of [away] when [home] has not faced the front of the
    queue: the front. *)
Lemma choose_away_head hm aw l s :
  aw ∉ faced s hm →
  ∃ s', choose_away hm (aw :: l) s = (s', Ok (aw, l))
        ∧ same_but_default s s'.
Proof.
  intros Hnew. unfold choose_away.
  destruct (scan_spec hm (aw :: l) s) as (s1 & H1 & Hs1).
  rewrite (exec_bind _ _ _ _ _ H1).
  cbn [list_find]. rewrite decide_True by done. cbn [fmap option_fmap option_map snd].
  exists s1. cbn [remove_first]. by rewrite decide_True.
Qed.

Lemma pair_next_head hm aw l s :
  aw ∉ faced s hm →
  ∃ s', pair_next hm (aw :: l) s = (s', Ok l)
    ∧ mheap s' = mheap s ++ [new_Match (Some hm) (Some aw)]
    ∧ (∀ q, faced s' q
            = faced s q ++ opps q (new_Match (Some hm) (Some aw))).
Proof.
  intros Hnew.
  destruct (choose_away_head hm aw l s Hnew) as (s1 & Hc & Hs1).
  pose proof (pair_next_effect hm (aw :: l) s) as H.
  unfold pair_next in *. unfold bind at 1 in H. unfold bind at 1.
  rewrite Hc in *. cbn [fst snd] in *.
  destruct (bind _ _ s1) as [s' [rest|e]] eqn:E.
  - destruct H as (aw' & _ & -> & Hm & Hf).
    assert (remove_first aw' (aw :: l) = l ∧ aw' = aw) as [Hl ->].
    { revert E. unfold alloc_Match. unfold bind at 1.
      unfold set_current_match, upd_participant. rewrite !bind_modify.
      rewrite (exec_bind _ _ _ _ _ (add_opponent_run _ _ _)).
      rewrite (exec_bind _ _ _ _ _ (add_opponent_run _ _ _)).
      unfold trigger_event. rewrite !bind_modify. unfold ret.
      intros [= <- Hr]. split; [done|].
      destruct Hs1 as (_ & Hmh & _). cbn in Hm. rewrite Hmh in Hm.
      apply app_inv_head in Hm. by injection Hm. }
    exists s'. by rewrite Hl.
  - by destruct H as (? & _).
Qed.

(** The pairing loop on a queue without repetition whose members have
    not faced each other pairs it two by two from the front. *)
Lemma pair_all_in_order fuel : ∀ players s,
  (length players ≤ fuel)%nat → NoDup players →
  (∀ p q, p ∈ players → q ∈ players → q ∉ faced s p) →
  ∀ i, (i < Nat.div2 (length players))%nat →
  mheap (exec (pair_all fuel players) s) !! (length (mheap s) + i)%nat
  = Some (new_Match (players !! (2 * i)%nat) (players !! (2 * i + 1)%nat)).
Proof.
  induction fuel as [|fuel IH]; intros [|hm [|aw l]] s Hlen Hnd Hnf i Hi;
    simpl in Hlen, Hi; try lia.
  apply NoDup_cons in Hnd as [Hhm Hnd].
  pose proof Hnd as Hnd'. apply NoDup_cons in Hnd' as [Haw Hl].
  destruct (pair_next_head hm aw l s) as (s1 & Hrun & Hmh & Hfc).
  { apply Hnf; [by left|by right; left]. }
  unfold exec. cbn [pair_all]. unfold bind. rewrite Hrun.
  destruct (pair_all_effect fuel l s1) as (new & rest & Hnew & _);
    [simpl in Hlen; lia|].
  destruct i as [|i].
  - fold (exec (pair_all fuel l) s1). rewrite Hnew, Hmh, Nat.add_0_r.
    rewrite <- app_assoc. by rewrite lookup_app_r, Nat.sub_diag by done.
  - fold (exec (pair_all fuel l) s1).
    replace (length (mheap s) + S i)%nat with (length (mheap s1) + i)%nat
      by (rewrite Hmh, length_app; simpl; lia).
    rewrite IH; [|simpl in Hlen; lia|done| |lia].
    + by replace (2 * S i)%nat with (S (S (2 * i))) by lia.
    + intros p q Hp Hq. rewrite Hfc. apply not_elem_of_app. split.
      * apply Hnf; by do 2 right.
      * unfold opps. cbn [home away new_Match].
        rewrite !decide_False; [by intros ?%elem_of_nil| |].
        -- intros [= ->]. done.
        -- intros [= ->]. apply Hhm. by right.
Qed.

(** [start] on a new tournament whose participant list has no
    repetition: the first round pairs the list two by two. *)
Lemma start_in_order n ps h i :
  NoDup ps → (i < Nat.div2 (length ps))%nat →
  mheap (exec start (SwissTournament n ps h)) !! i
  = Some (new_Match (ps !! (2 * i)%nat) (ps !! (2 * i + 1)%nat)).
Proof.
  intros Hnd Hi.
  set (t := SwissTournament n ps h).
  set (s0 := set_num_players (length ps) t).
  set (s1 := exec (Tournament.reset_scores ps) s0).
  set (s3 := upd_fmt (λ x,
    {| current_round := current_round x; rounds := rounds x;
       opponents := opponents x;
       matches_per_round := Some (length ps / 2)%nat |})
    (upd_fired (λ l, l ++ [on_start]) s1)).
  assert (Hrun : start t = setup_round s3).
  { unfold start, Tournament.start. rewrite bind_modify, bind_gets.
    change (participants (set_num_players _ t)) with ps.
    rewrite (exec_bind _ _ _ _ _ (reset_scores_ok _ _)).
    unfold trigger_event, seed_players. rewrite !bind_modify.
    f_equal. unfold s3, s1, s0. f_equal.
    cbn [participants upd_fired].
    by rewrite (keeps_reset_scores participants _ (λ _ _, eq_refl)). }
  assert (Hkeep : ∀ B (proj : State Fields → B),
            (∀ s g, proj (upd_pheap g s) = proj s) →
            (∀ s k, proj (set_num_players k s) = proj s) →
            proj s1 = proj t).
  { intros B proj H1 H2. unfold s1, s0.
    by rewrite (keeps_reset_scores proj _ H1), H2. }
  assert (Hps : participants s3 = ps) by (by apply (Hkeep _ participants)).
  assert (Hmh : mheap s3 = []) by (by apply (Hkeep _ mheap)).
  assert (Hfc : ∀ q, faced s3 q = []).
  { intros q. by apply (Hkeep _ (λ s, faced s q)). }
  assert (Hsc : ∀ q, q ∈ ps → score_of s3 q = 0).
  { intros q Hq. change (score_of s3 q) with (score_of s1 q). unfold s1.
    by rewrite reset_scores_score, decide_True. }
  clearbody s3.
  unfold exec. rewrite Hrun.
  unfold setup_round, Tournament.get_players_by_rank.
  rewrite bind_modify, bind_gets.
  set (s4 := upd_fmt _ s3).
  change (participants s4) with (participants s3). rewrite Hps.
  rewrite sorted_reverse_const.
  2:{ intros x y Hx Hy.
      change (score_of s3 x = score_of s3 y). by rewrite !Hsc. }
  fold (exec (pair_all (length ps) ps >> trigger_event on_start_round) s4).
  rewrite exec_then.
  assert (Hgoal : mheap (exec (pair_all (length ps) ps) s4) !! i
                  = Some (new_Match (ps !! (2 * i)%nat)
                                    (ps !! (2 * i + 1)%nat))).
  { rewrite <- (pair_all_in_order (length ps) ps s4); [|done|done| |done].
    - change (mheap s4) with (mheap s3). by rewrite Hmh.
    - intros p q _ _. change (faced s4 p) with (faced s3 p).
      rewrite Hfc. apply not_elem_of_nil. }
  by destruct (outcome _ _).
Qed.

End RoundOrder.

(** ** C8: an odd number of participants, as amended *)

(** C8 (as amended): the round-based format does not check the number of
    participants when it is constructed.  On an odd number [start]
    creates and announces [(n - 1) / 2] matches, each between two
    participants, that together hold every entry of the participant list
    but one, each once (when no participant is listed twice: the first
    with the second, the third with the fourth, and so on, the last one
    left over), and then raises [IndexError] at the participant left
    alone; [on_start_round] is not fired and the matches stay in the
    tournament. *)
Theorem odd_count_fails_at_start n ps h :
  Nat.odd (length ps) = true →
  let t := Swiss.SwissTournament n ps h in
  let s := exec Swiss.start t in
  let made := seq 0 (Nat.div2 (length ps)) in
  participants t = ps
  ∧ outcome Swiss.start t = Raise IndexError
  ∧ matches s = made ∧ length (mheap s) = Nat.div2 (length ps)
  ∧ fired s = on_start :: (on_match_ready <$> made)
  ∧ Forall fresh (mheap s)
  ∧ (∃ left, flat_map slots (mheap s) ++ [Some left] ≡ₚ Some <$> ps)
  ∧ (NoDup ps → ∀ i, (i < Nat.div2 (length ps))%nat →
       mheap s !! i
       = Some (new_Match (ps !! (2 * i)%nat) (ps !! (2 * i + 1)%nat))).
Proof.
  intros Hodd t s made.
  destruct (RoundFacts.start_effect n ps h)
    as (rest & Hout & _ & _ & _ & Hlen & Hfresh & Hms & Hf & Hperm & Hrest & _).
  fold t s made in Hout, Hlen, Hfresh, Hms, Hf, Hperm.
  unfold Nat.odd in Hodd.
  destruct (Nat.even (length ps)); [done|].
  rewrite app_nil_r in Hf.
  destruct rest as [|left [|? ?]]; try done.
  repeat (split; [done|]). split; [by exists left|].
  intros Hnd i Hi. by apply RoundOrder.start_in_order.
Qed.

Lemma odd_count_fails_at_start_witness :
  let ps := [Scenario.A; Scenario.B; Scenario.C] in
  let t := Swiss.SwissTournament 2 ps ∅ in
  let s := exec Swiss.start t in
  let made := seq 0 (Nat.div2 (length ps)) in
  participants t = ps
  ∧ outcome Swiss.start t = Raise IndexError
  ∧ matches s = made ∧ length (mheap s) = Nat.div2 (length ps)
  ∧ fired s = on_start :: (on_match_ready <$> made)
  ∧ Forall fresh (mheap s)
  ∧ (∃ left, flat_map slots (mheap s) ++ [Some left] ≡ₚ Some <$> ps)
  ∧ (NoDup ps → ∀ i, (i < Nat.div2 (length ps))%nat →
       mheap s !! i
       = Some (new_Match (ps !! (2 * i)%nat) (ps !! (2 * i + 1)%nat))).
Proof.
  apply (odd_count_fails_at_start 2 [Scenario.A; Scenario.B; Scenario.C] ∅).
  reflexivity.
Defined.

(** ** The elimination format: the state seeding leaves *)

Module KnockoutFacts.
Import SingleElimination Bracket Knockout SingleFacts.

Lemma preserves_seed_first_round (I : State Fields → Prop) fuel :
  (∀ s g, I s → I (upd_pheap g s)) →
  (∀ s g, I s → I (upd_mheap g s)) →
  (∀ s m, I s → I (upd_fired (λ l, l ++ [on_match_ready m]) s)) →
  ∀ q mq, preserves I (seed_first_round fuel q mq).
Proof.
  intros H1 H2 H3.
  induction fuel as [|fuel IH]; intros [|h q] mq; simpl;
    try apply preserves_ret; try apply preserves_raise.
  destruct (last q); [|apply preserves_raise].
  apply preserves_bind; [intros s; apply H1|]. intros _.
  apply preserves_bind; [intros s; apply H1|]. intros _.
  apply preserves_bind; [intros s; apply H2|]. intros m.
  apply preserves_bind; [intros s; apply H1|]. intros _.
  apply preserves_bind; [intros s; apply H1|]. intros _.
  apply preserves_bind; [intros s; apply H3|]. intros _.
  apply IH.
Qed.

Lemma keeps_fired_build_bracket fuel :
  ∀ mq, keeps fired (build_bracket fuel mq).
Proof.
  induction fuel as [|fuel IH]; intros [|t [|b mq]]; simpl;
    try apply keeps_ret; try apply keeps_raise.
  apply keeps_bind; [by apply keeps_alloc_Match|]. intros m.
  apply keeps_bind; [by apply keeps_modify|]. intros _.
  apply keeps_bind; [by apply keeps_modify|]. intros _. apply IH.
Qed.

(** [seed_players] up to its last loop. *)
Lemma seed_players_split ps s0 :
  (2 ≤ length ps)%nat → BY ∉ ps →
  mheap s0 = [] → matches s0 = [] →
  bracket (fmt s0) = ∅ → sources (fmt s0) = ∅ →
  participants s0 = ps → num_players s0 = Some (length ps) →
  let k := (2 ^ (Nat.log2_up (length ps) - 1))%nat in
  ∃ s4, seed_players s0 = resolve_byes (seq 0 (2 * k - 1)) s4
    ∧ seeded ps k 0 (score_of s0) s4
    ∧ mheap s4 = first_round (player_queue ps k)
                 ++ replicate (k - 1) (new_Match None None)
    ∧ (on_complete ∉ fired s0 → on_complete ∉ fired s4).
Proof.
  intros Hn HBY Hmh Hms Hbr Hsrc Hps Hnum k.
  destruct (field_half (length ps) Hn) as (Hfs & Hk1 & Hkn).
  fold k in Hfs, Hk1, Hkn.
  unfold seed_players. rewrite bind_gets, Hnum.
  clearbody k. rewrite decide_False by lia. cbv zeta.
  rewrite bind_modify, bind_gets.
  set (s1 := upd_fmt _ s0).
  assert (Hq : participants s1
               ++ replicate (2 ^ Nat.log2_up (length ps) - length ps) BY
               = player_queue ps k).
  { unfold player_queue. by rewrite Hfs, <- Hps. }
  rewrite Hq. clear Hq.
  assert (Hmh1 : mheap s1 = []) by done.
  assert (Hms1 : matches s1 = []) by done.
  assert (Hbr1 : bracket (fmt s1) = ∅) by done.
  assert (Hsrc1 : sources (fmt s1) = ∅) by done.
  assert (Hsc1 : ∀ p, score_of s1 p = score_of s0 p) by done.
  assert (Hf1 : fired s1 = fired s0) by done.
  clearbody s1.
  pose proof (player_queue_length ps k ltac:(lia) Hn) as Hql.
  assert (Hpf : ∀ q mq, preserves (λ s, on_complete ∉ fired s)
            (seed_first_round (length (player_queue ps k)) q mq)).
  { apply preserves_seed_first_round; try done.
    intros s m Hno [?|Hin]%elem_of_app; [done|].
    by apply list_elem_of_singleton in Hin. }
  specialize (Hpf (player_queue ps k) [] s1). unfold exec in Hpf.
  destruct (seed_first_round_spec k (length (player_queue ps k))
              (player_queue ps k) [] s1 Hql ltac:(lia))
    as (s2 & Hrun2 & Hmh2 & Hms2 & Hfmt2 & Hsc2).
  rewrite (exec_bind _ _ _ _ _ Hrun2). rewrite Hrun2 in Hpf.
  cbn [fst] in Hpf. clear Hrun2.
  rewrite Hmh1, app_nil_l in *. change (length (@nil Match)) with 0%nat.
  replace (seq 0 k) with (seq 0 (S (k - 1))) by (f_equal; lia).
  pose proof (keeps_fired_build_bracket (length (seq 0 (S (k - 1))))
                (seq 0 (S (k - 1))) s2) as Hkf. unfold exec in Hkf.
  destruct (build_bracket_spec (k - 1) (length (seq 0 (S (k - 1)))) 0 s2)
    as (s3 & Hrun3 & Hmh3 & Hms3 & Hph3 & Hj3 & Hb3 & Hs3).
  { rewrite Hmh2, (first_round_length _ k Hql). lia. }
  { rewrite length_seq. lia. }
  rewrite (exec_bind _ _ _ _ _ Hrun3). rewrite Hrun3 in Hkf.
  cbn [fst] in Hkf. clear Hrun3.
  change (last [(0 + 2 * (k - 1))%nat]) with (Some (0 + 2 * (k - 1))%nat).
  cbv iota. rewrite bind_modify, bind_gets.
  set (s4 := upd_matches _ s3).
  assert (Hms4 : matches s4 = seq 0 (2 * k - 1)).
  { unfold s4. cbn [matches upd_matches]. rewrite Hms3, Hms2, Hms1, app_nil_l.
    replace (2 * k - 1)%nat with (S (2 * (k - 1))) by lia.
    by rewrite seq_S. }
  rewrite Hms4.
  assert (Hmh4 : mheap s4 = first_round (player_queue ps k)
                            ++ replicate (k - 1) (new_Match None None)).
  { unfold s4. cbn [mheap upd_matches]. by rewrite Hmh3, Hmh2. }
  assert (Hfr : length (first_round (player_queue ps k)) = k)
    by apply (first_round_length _ k Hql).
  assert (Hbr4 : ∀ m, (2 * (k - 1) ≤ m)%nat → bracket (fmt s4) !! m = None).
  { intros m Hm. unfold s4. cbn [fmt upd_matches]. rewrite Hb3 by lia.
    by rewrite Hfmt2, Hbr1. }
  assert (Hsrc4 : ∀ p, ¬ (k ≤ p < 2 * k - 1)%nat →
                       sources (fmt s4) !! p = None).
  { intros p Hp. unfold s4. cbn [fmt upd_matches]. rewrite Hs3 by lia.
    by rewrite Hfmt2, Hsrc1. }
  assert (Hj4 : ∀ j, (j < k - 1)%nat →
       bracket (fmt s4) !! (2 * j)%nat = Some (k + j)%nat
       ∧ bracket (fmt s4) !! (2 * j + 1)%nat = Some (k + j)%nat
       ∧ sources (fmt s4) !! (k + j)%nat
         = Some ((2 * j)%nat, (2 * j + 1)%nat)).
  { intros j Hj. destruct (Hj3 j Hj) as (H1 & H2 & H3).
    unfold s4. cbn [fmt upd_matches].
    replace (0 + S (k - 1) + j)%nat with (k + j)%nat in * by lia.
    done. }
  assert (Hsc4 : ∀ p, score_of s4 p = score_of s0 p).
  { intros p. rewrite <- Hsc1, <- (Hsc2 p). unfold score_of, participant, s4.
    cbn [pheap upd_matches]. by rewrite Hph3. }
  assert (Hf4 : fired s4 = fired s2) by (by rewrite <- Hkf).
  clearbody s4.
  exists s4. split; [done|]. split; [|split; [done|]].
  - split; [|split; [|split; [|split; [|split]]]].
    + split; [|split; [done|split; [done|split; done]]].
      rewrite Hmh4, length_app, length_replicate, Hfr. lia.
    + intros m Hm.
      destruct (first_round_lookup (player_queue ps k) k m Hql Hm)
        as (h & a & Hh & Ha & Hfrl).
      exists (new_Match (Some h) (Some a)), h, a.
      split; [|done]. rewrite Hmh4. by rewrite lookup_app_l by lia.
    + intros m x Hm Hx. rewrite Hmh4 in Hx.
      rewrite lookup_app_r in Hx by lia.
      apply lookup_replicate in Hx as (-> & _). done.
    + intros p t b y Hs Hy.
      destruct (decide (k ≤ p < 2 * k - 1)%nat) as [Hp|Hp].
      * rewrite Hmh4 in Hy. rewrite lookup_app_r in Hy by lia.
        apply lookup_replicate in Hy as (-> & _). done.
      * by rewrite Hsrc4 in Hs.
    + intros m x Hm. lia.
    + intros p. rewrite take_0. unfold byes_won. simpl.
      rewrite Z.add_0_r. apply Hsc4.
  - intros Hno. rewrite Hf4. apply Hpf. by rewrite Hf1.
Qed.

(** A report keeps the slots of the placeholders in step with the
    results of the matches that feed them. *)
Lemma fed_exact_report k s m x h a w s' :
  shape k s → fed_exact s →
  mheap s !! m = Some x → home x = Some h → away x = Some a →
  w = h ∨ w = a →
  report_result m (Some (P w)) s = (s', Ok tt) →
  fed_exact s'.
Proof.
  intros Hshape Hfed Hm Hh Ha Hw Hrun.
  destruct (report_effect k s m x h a w Hshape Hm Hh Ha Hw)
    as (s'' & Hrun' & Hshape' & Hfmt & _ & Hmi & Hother & Hpar & _).
  rewrite Hrun in Hrun'. inversion Hrun'; subst s''. clear Hrun'.
  assert (Hlen : length (mheap s') = length (mheap s)).
  { destruct Hshape as (Hl & _), Hshape' as (Hl' & _). lia. }
  assert (Hlook : ∀ i y', mheap s' !! i = Some y' →
            ∃ y, mheap s !! i = Some y
              ∧ (i = m → winner y' = Some (P w) ∧ home y' = home y
                         ∧ away y' = away y)
              ∧ (i ≠ m → winner y' = winner y)
              ∧ (bracket (fmt s) !! m ≠ Some i → i ≠ m → y' = y)).
  { intros i y' Hy'.
    destruct (lookup_lt_is_Some_2 (mheap s) i) as [y Hy].
    { apply lookup_lt_Some in Hy'. lia. }
    destruct (report_effect_lookup k s m x h a w s' i y
                Hshape Hm Hh Ha Hw Hrun Hy) as (y'' & Hy'' & H1 & H2 & H3).
    rewrite Hy' in Hy''. inversion Hy''; subst y''.
    exists y. split; [done|]. split; [done|]. split; [|done].
    intros Hne. by destruct (H2 Hne). }
  intros p t b y' Hsrc Hy'. rewrite Hfmt in Hsrc.
  destruct (shape_sources k s p t b Hshape Hsrc) as (j & Hj & -> & -> & ->).
  destruct (Hlook _ _ Hy') as (y & Hy & Heq & _ & Hsame).
  destruct (Hfed _ _ _ y Hsrc Hy) as (Hhome & Haway).
  destruct Hshape as (_ & _ & Hbr & _).
  destruct (Hbr j Hj) as (Hb1 & Hb2 & _).
  assert (Hsrcs : ∀ i x', (i = 2 * j ∨ i = 2 * j + 1)%nat → i ≠ m →
            mheap s' !! i = Some x' →
            ∃ x0, mheap s !! i = Some x0 ∧ winner x' = winner x0).
  { intros i x' Hi Hne Hx'. destruct (Hlook _ _ Hx') as (x0 & Hx0 & _ & Hw0 & _).
    exists x0. split; [done|]. by apply Hw0. }
  destruct (decide (bracket (fmt s) !! m = Some (k + j)%nat)) as [Hb|Hb].
  - destruct (Hpar _ y Hb Hy) as (t' & b' & Hsrc' & Hmt & Htb & Hpm & Hnew).
    rewrite Hnew in Hy'. injection Hy' as <-. clear Hnew.
    assert (Htb' : t' = (2 * j)%nat ∧ b' = (2 * j + 1)%nat).
    { rewrite Hsrc in Hsrc'. by injection Hsrc'. }
    destruct Htb' as [Ht' Hb'].
    destruct (decide (m = t')) as [e|n]; cbn [home away set_home set_away].
    + split; intros x' Hx'.
      * rewrite <- Ht', <- e, Hmi in Hx'. by injection Hx' as <-.
      * destruct (Hsrcs _ x' (or_intror eq_refl) ltac:(lia) Hx')
          as (x0 & Hx0 & ->). by apply Haway.
    + destruct Hmt as [?|e]; [done|]. split; intros x' Hx'.
      * destruct (Hsrcs _ x' (or_introl eq_refl) ltac:(lia) Hx')
          as (x0 & Hx0 & ->). by apply Hhome.
      * rewrite <- Hb', <- e, Hmi in Hx'. by injection Hx' as <-.
  - assert (Hm1 : m ≠ (2 * j)%nat) by (intros ->; done).
    assert (Hm2 : m ≠ (2 * j + 1)%nat) by (intros ->; done).
    assert (Hslots : home y' = home y ∧ away y' = away y).
    { destruct (decide (k + j = m)%nat) as [e|n].
      - by destruct (Heq e) as (_ & ? & ?).
      - by rewrite (Hsame Hb n). }
    destruct Hslots as [-> ->]. split; intros x' Hx'.
    + destruct (Hsrcs _ x' (or_introl eq_refl) ltac:(lia) Hx')
        as (x0 & Hx0 & ->). by apply Hhome.
    + destruct (Hsrcs _ x' (or_intror eq_refl) ltac:(lia) Hx')
        as (x0 & Hx0 & ->). by apply Haway.
Qed.

Section Byes.
Variables (ps : list pid) (k : nat).
Hypothesis Hk : (k ≤ length ps ≤ 2 * k)%nat.
Hypothesis Hps : (2 ≤ length ps)%nat.
Hypothesis HBY : BY ∉ ps.

(** The bye loop: beside what it seeds, it completes bye matches only,
    it feeds the placeholders and it does not complete the tournament. *)
Lemma resolve_byes_extra n : ∀ i sc0 s,
  (i + n = 2 * k - 1)%nat → seeded ps k i sc0 s →
  byes_only i s → fed_exact s → on_complete ∉ fired s →
  let s' := exec (resolve_byes (seq i n)) s in
  byes_only (2 * k - 1) s' ∧ fed_exact s' ∧ on_complete ∉ fired s'.
Proof.
  induction n as [|n IH]; intros i sc0 s Hin Hseed Hbo Hfe Hno.
  - replace (2 * k - 1)%nat with i by lia. done.
  - destruct (lookup_lt_is_Some_2 (mheap s) i) as [x Hx].
    { destruct Hseed as ((Hl & _) & _). lia. }
    unfold exec. simpl. rewrite (bind_read_match _ _ _ _ Hx).
    destruct (decide (away x = Some BY)) as [Hbye|Hnb].
    + rewrite bool_decide_true by done.
      destruct (seeded_bye ps k Hk Hps HBY i sc0 s x Hseed Hx Hbye)
        as (h & s' & Hh & Hrun & Hseed').
      rewrite Hh. simpl. rewrite (exec_bind _ _ _ _ _ Hrun).
      destruct Hseed as (Hsh & HB & HC & _).
      assert (Hik : (i < k)%nat).
      { destruct (decide (i < k)%nat) as [|Hge]; [done|].
        destruct (HC i x) as (_ & Hn'); [lia|done|done]. }
      destruct (HB i Hik) as (x' & h' & a' & Hx' & Hqh & Hqa & Hh' & Ha').
      rewrite Hx in Hx'. inversion Hx'; subst x'. clear Hx'.
      rewrite Hbye in Ha'. inversion Ha'; subst a'. clear Ha'.
      apply (player_queue_bye ps k Hk Hps HBY) in Hqa.
      destruct (report_effect k s i x h BY h Hsh Hx Hh Hbye
                  (or_introl eq_refl))
        as (s'' & Hrun' & _ & _ & _ & _ & _ & _ & Hfired).
      rewrite Hrun in Hrun'. inversion Hrun'; subst s''. clear Hrun'.
      apply (IH (S i) sc0 s'); [lia|done| | |].
      * intros m y' Hy' Hwin.
        destruct (lookup_lt_is_Some_2 (mheap s) m) as [y Hy].
        { destruct Hsh as (Hl & _), Hseed' as ((Hl' & _) & _).
          apply lookup_lt_Some in Hy'. lia. }
        destruct (report_effect_lookup k s i x h BY h s' m y
                    Hsh Hx Hh Hbye (or_introl eq_refl) Hrun Hy)
          as (y'' & Hy'' & H1 & H2 & H3).
        rewrite Hy' in Hy''. inversion Hy''; subst y''.
        destruct (decide (m = i)) as [->|Hne].
        -- rewrite Hx in Hy. inversion Hy; subst y.
           destruct (H1 eq_refl) as (_ & _ & ->). split; [lia|done].
        -- destruct (H2 Hne) as (Hwy & _). rewrite Hwy in Hwin.
           destruct (Hbo m y Hy Hwin) as (Hmi & Hay).
           split; [lia|].
           destruct (decide (bracket (fmt s) !! i = Some m)) as [Hb|Hb].
           ++ destruct (shape_parent k s i m Hsh Hb) as (j & _ & -> & _).
              destruct (HC (k + j)%nat y) as (Hnone & _); [lia|done|done].
           ++ by rewrite (H3 Hb Hne).
      * exact (fed_exact_report k s i x h BY h s' Hsh Hfe Hx Hh Hbye
                 (or_introl eq_refl) Hrun).
      * rewrite Hfired. unfold advancement_events.
        destruct Hsh as (_ & _ & Hbr & _).
        destruct (bracket (fmt s) !! i) as [p|] eqn:Hb.
        -- intros [?|[?|Hin']%elem_of_cons]%elem_of_app; try done.
           destruct (from_option _ _ _); [|by apply elem_of_nil in Hin'].
           by apply list_elem_of_singleton in Hin'.
        -- exfalso. destruct (Nat.Even_or_Odd i) as [[j ->]|[j ->]].
           ++ destruct (Hbr j) as (H1 & _); [lia|]. by rewrite H1 in Hb.
           ++ destruct (Hbr j) as (_ & H2 & _); [lia|]. by rewrite H2 in Hb.
    + rewrite bool_decide_false by done. rewrite bind_ret.
      apply (IH (S i) sc0 s); [lia| | |done|done].
      * by eapply (seeded_skip ps k Hk Hps).
      * intros m y Hy Hwin. destruct (Hbo m y Hy Hwin). split; [lia|done].
Qed.

End Byes.

Lemma first_round_fresh q : Forall fresh (first_round q).
Proof.
  unfold first_round. apply Forall_lookup. intros i x Hx.
  apply lookup_zip_with_Some in Hx as (h & a & -> & _). by eexists _, _.
Qed.

(** [start], beside what it seeds. *)
Lemma start_extra ps h :
  (2 ≤ length ps)%nat → BY ∉ ps →
  let k := (2 ^ (Nat.log2_up (length ps) - 1))%nat in
  let s := exec start (SingleEliminationTournament ps h) in
  byes_only (2 * k - 1) s ∧ fed_exact s ∧ on_complete ∉ fired s.
Proof.
  intros Hn HBY k s. subst s. unfold exec, start, Tournament.start.
  rewrite bind_modify, bind_gets.
  set (s0 := set_num_players _ _).
  rewrite (exec_bind _ _ _ _ _ (reset_scores_ok _ s0)).
  unfold trigger_event. rewrite bind_modify.
  set (s1 := upd_fired _ _).
  assert (Hkeep : ∀ B (proj : State Fields → B),
            (∀ s g, proj (upd_pheap g s) = proj s) →
            (∀ s g, proj (upd_fired g s) = proj s) →
            proj s1 = proj s0).
  { intros B proj H1 H2. unfold s1. rewrite H2.
    apply (keeps_reset_scores proj _ H1 s0). }
  assert (Hf1 : on_complete ∉ fired s1).
  { unfold s1. cbn [fired upd_fired].
    rewrite (keeps_reset_scores fired _ (λ _ _, eq_refl) s0). cbn.
    intros Hin. by apply list_elem_of_singleton in Hin. }
  destruct (seed_players_split ps s1) as (s4 & Hrun & Hseed & Hmh4 & Hf4);
    try done.
  - by rewrite (Hkeep _ mheap).
  - by rewrite (Hkeep _ matches).
  - by rewrite (Hkeep _ (λ s, bracket (fmt s))).
  - by rewrite (Hkeep _ (λ s, sources (fmt s))).
  - by rewrite (Hkeep _ participants).
  - by rewrite (Hkeep _ num_players).
  - fold k in Hrun, Hseed, Hmh4. rewrite Hrun.
    destruct (field_half (length ps) Hn) as (Hfs & Hk1 & Hkn).
    fold k in Hfs, Hk1, Hkn.
    assert (Hnone : ∀ m x, mheap s4 !! m = Some x → winner x = None).
    { intros m x Hx. rewrite Hmh4 in Hx.
      apply lookup_app_Some in Hx as [Hx|[_ Hx]].
      - pose proof (first_round_fresh (player_queue ps k)) as Hfr.
        rewrite Forall_lookup in Hfr. by destruct (Hfr m x Hx) as (? & ? & ->).
      - by apply lookup_replicate in Hx as (-> & _). }
    apply (resolve_byes_extra ps k ltac:(lia) Hn HBY (2 * k - 1) 0
             (score_of s1) s4); [lia|done| | |by apply Hf4].
    + intros m x Hx Hw. by rewrite (Hnone m x Hx) in Hw.
    + intros p t b y Hsrc Hy.
      destruct Hseed as (Hsh & _).
      destruct (shape_sources k s4 p t b Hsh Hsrc) as (j & Hj & -> & -> & ->).
      pose proof (first_round_length (player_queue ps k) k
                    (player_queue_length ps k ltac:(lia) Hn)) as Hfl.
      rewrite Hmh4 in Hy. rewrite lookup_app_r in Hy by lia.
      apply lookup_replicate in Hy as (-> & _).
      split; intros x Hx; by rewrite (Hnone _ x Hx).
Qed.

(** ** The elimination format: orderly use *)

Lemma bye_standing p l :
  (∀ x, x ∈ l → away x = Some BY → ∃ h, home x = Some h ∧ winner x = Some (P h)) →
  (∀ x, x ∈ l → away x ≠ Some BY → winner x = None) →
  standing p l = 3 * Z.of_nat (byes_won p l).
Proof.
  unfold byes_won. induction l as [|x l IH]; intros Hb Hn; [done|].
  simpl. rewrite filter_cons. rewrite IH.
  2:{ intros y Hy. apply Hb. by right. }
  2:{ intros y Hy. apply Hn. by right. }
  unfold points.
  destruct (decide (bye_of p x)) as [[Hh Hx]|Hnb]; simpl length.
  - destruct (Hb x) as (h & Hh' & Hw); [by left|done|]. rewrite Hw.
    rewrite Hh in Hh'. injection Hh' as <-.
    rewrite decide_True by done. lia.
  - destruct (decide (away x = Some BY)) as [Hx|Hx].
    + destruct (Hb x) as (h & Hh & Hw); [by left|done|]. rewrite Hw.
      rewrite decide_False; [lia|]. intros ->. by apply Hnb.
    + rewrite (Hn x) by (done || by left). lia.
Qed.

Lemma in_play_extra ps h s :
  (2 ≤ length ps)%nat → BY ∉ ps → in_play ps h s →
  let k := (2 ^ (Nat.log2_up (length ps) - 1))%nat in
  shape k s ∧ fed_exact s
  ∧ (∀ m x, (m < k)%nat → mheap s !! m = Some x →
       is_Some (home x) ∧ is_Some (away x))
  ∧ (∀ m x, mheap s !! m = Some x → winner x ≠ Some TIE)
  ∧ (on_complete ∈ fired s
     ↔ ∃ x, mheap s !! (2 * k - 2)%nat = Some x ∧ winner x ≠ None)
  ∧ (length (filter (λ e, e = on_complete) (fired s)) ≤ 1)%nat
  ∧ (∀ p, score_of s p = reset_score ps h p + standing p (mheap s)).
Proof.
  intros Hn HBY Hplay k.
  destruct (field_half (length ps) Hn) as (Hfs & Hk1 & Hkn).
  fold k in Hfs, Hk1, Hkn.
  induction Hplay as [|s m x w Hplay IH Hm Hact Hw].
  - destruct (start_spec ps h Hn HBY) as (s' & Hrun & Hseed & _).
    destruct (start_extra ps h Hn HBY) as (Hbo & Hfe & Hno).
    fold k in Hseed, Hbo. unfold exec in *. rewrite Hrun in *.
    cbn [fst] in *.
    destruct Hseed as (Hsh & HB & HC & _ & HE & HF).
    split; [done|]. split; [done|]. split.
    { intros m x Hmk Hx.
      destruct (HB m Hmk) as (x' & h' & a' & Hx' & _ & _ & Hh & Ha).
      rewrite Hx in Hx'. injection Hx' as <-. by rewrite Hh, Ha. }
    split.
    { intros m x Hx Hw. destruct (Hbo m x Hx) as (Hlt & Hbye);
        [by rewrite Hw|].
      destruct (HE m x Hlt Hx Hbye) as (h' & _ & Hw'). congruence. }
    split.
    { split; [done|]. intros (x & Hx & Hw). exfalso.
      destruct (Hbo _ x Hx Hw) as (_ & Hbye).
      destruct (decide (k ≤ 2 * k - 2)%nat) as [Hle|Hgt].
      - by destruct (HC _ x Hle Hx).
      - destruct (HB (2 * k - 2)%nat) as (x' & h' & a' & Hx' & _ & Hqa & _ & Ha);
          [lia|].
        rewrite Hx in Hx'. injection Hx' as <-.
        rewrite Hbye in Ha. injection Ha as <-.
        apply (player_queue_bye ps k ltac:(lia) Hn HBY) in Hqa. lia. }
    split.
    { rewrite (filter_none _ (fired s')); [simpl; lia|].
      apply Forall_forall. intros e He ->. done. }
    intros p. rewrite HF.
    destruct Hsh as (Hlen & _). rewrite take_ge by lia.
    rewrite (bye_standing p (mheap s')); [done| |].
    + intros x [i Hx]%list_elem_of_lookup Hbye.
      apply (HE i x); [|done|done]. apply lookup_lt_Some in Hx. lia.
    + intros x [i Hx]%list_elem_of_lookup Hnb.
      destruct (winner x) eqn:Hw; [|done].
      destruct (Hbo i x Hx) as (_ & ?); [by rewrite Hw|done].
  - destruct IH as (Hsh & Hfe & Hfirst & Hnt & Hfired & Hcount & Hst).
    destruct (active_inv x Hact) as (h' & a' & Hh & Ha & Hnone).
    assert (Hw' : w = h' ∨ w = a').
    { rewrite Hh, Ha in Hw. destruct Hw as [Hw|Hw]; inversion Hw; auto. }
    destruct (report_effect k s m x h' a' w Hsh Hm Hh Ha Hw')
      as (s' & Hrun & Hsh' & Hfmt & Hsc & Hmi & Hother & Hpar & Hf').
    unfold exec. rewrite Hrun. cbn [fst].
    assert (Hlen : length (mheap s') = length (mheap s)).
    { destruct Hsh as (Hl & _), Hsh' as (Hl' & _). lia. }
    assert (Hlook : ∀ i y', mheap s' !! i = Some y' →
              ∃ y, mheap s !! i = Some y
                ∧ (i = m → winner y' = Some (P w) ∧ home y' = home y
                           ∧ away y' = away y)
                ∧ (i ≠ m → winner y' = winner y
                           ∧ (home y' = home y ∨ home y' = Some w)
                           ∧ (away y' = away y ∨ away y' = Some w))).
    { intros i y' Hy'.
      destruct (lookup_lt_is_Some_2 (mheap s) i) as [y Hy].
      { apply lookup_lt_Some in Hy'. lia. }
      destruct (report_effect_lookup k s m x h' a' w s' i y
                  Hsh Hm Hh Ha Hw' Hrun Hy) as (y'' & Hy'' & H1 & H2 & H3).
      rewrite Hy' in Hy''. injection Hy'' as <-.
      exists y. done. }
    split; [done|]. split.
    { exact (fed_exact_report k s m x h' a' w s' Hsh Hfe Hm Hh Ha Hw' Hrun). }
    split.
    { intros i y' Hik Hy'. destruct (Hlook i y' Hy') as (y & Hy & H1 & H2).
      destruct (Hfirst i y Hik Hy) as (Hhy & Hay).
      destruct (decide (i = m)) as [e|n].
      - destruct (H1 e) as (_ & -> & ->). done.
      - destruct (H2 n) as (_ & [-> | ->] & [-> | ->]); done. }
    split.
    { intros i y' Hy' Htie. destruct (Hlook i y' Hy') as (y & Hy & H1 & H2).
      destruct (decide (i = m)) as [e|n].
      - destruct (H1 e) as (Hwy & _). congruence.
      - destruct (H2 n) as (Hwy & _). rewrite Hwy in Htie. by apply (Hnt i y). }
    assert (Hmlt : (m < 2 * k - 1)%nat).
    { destruct Hsh as (Hl & _). apply lookup_lt_Some in Hm. lia. }
    assert (Hfinal : bracket (fmt s) !! m = None ↔ m = (2 * k - 2)%nat).
    { destruct Hsh as (_ & _ & Hbr & Hnone' & _). split.
      - intros Hb. destruct (decide (2 * (k - 1) ≤ m)%nat) as [|Hlt]; [lia|].
        exfalso. destruct (Nat.Even_or_Odd m) as [[j ->]|[j ->]].
        + destruct (Hbr j) as (H1 & _); [lia|]. by rewrite H1 in Hb.
        + destruct (Hbr j) as (_ & H2 & _); [lia|]. by rewrite H2 in Hb.
      - intros ->. apply Hnone'. lia. }
    assert (Hno : m = (2 * k - 2)%nat → on_complete ∉ fired s).
    { intros -> Hin. apply Hfired in Hin as (x' & Hx' & Hwx').
      rewrite Hm in Hx'. injection Hx' as <-. done. }
    unfold advancement_events in Hf'.
    split; [|split].
    + destruct (bracket (fmt s) !! m) as [p|] eqn:Hb.
      * assert (Hne : m ≠ (2 * k - 2)%nat).
        { intros e. apply Hfinal in e. done. }
        assert (Hiff : on_complete ∈ fired s' ↔ on_complete ∈ fired s).
        { rewrite Hf'. rewrite elem_of_app, elem_of_cons.
          split; [|tauto]. intros [?|[?|Hin]]; [done|done|].
          destruct (from_option _ _ _); [|by apply elem_of_nil in Hin].
          by apply list_elem_of_singleton in Hin. }
        rewrite Hiff, Hfired. split.
        -- intros (y & Hy & Hwy).
           destruct (lookup_lt_is_Some_2 (mheap s') (2 * k - 2)) as [y' Hy'].
           { rewrite Hlen. by eapply lookup_lt_Some. }
           destruct (Hlook _ y' Hy') as (y0 & Hy0 & _ & H2).
           rewrite Hy in Hy0. injection Hy0 as <-.
           exists y'. split; [done|]. destruct (H2 ltac:(lia)) as (-> & _).
           done.
        -- intros (y' & Hy' & Hwy').
           destruct (Hlook _ y' Hy') as (y0 & Hy0 & _ & H2).
           exists y0. split; [done|]. destruct (H2 ltac:(lia)) as (<- & _).
           done.
      * assert (e : m = (2 * k - 2)%nat) by (by apply Hfinal).
        split.
        -- intros _. rewrite <- e, Hmi. by eexists.
        -- intros _. rewrite Hf'. apply elem_of_app. right. right. by left.
    + assert (Hcount0 : ∀ l : list event, on_complete ∉ l →
                filter (λ e, e = on_complete) l = []).
      { intros l Hl. apply filter_none, Forall_forall. intros e He ->. done. }
      rewrite Hf', filter_app, length_app, filter_cons.
      rewrite decide_False by done.
      destruct (bracket (fmt s) !! m) as [p|] eqn:Hb.
      * destruct (from_option _ _ _); [|simpl; lia].
        rewrite (Hcount0 [on_match_ready p]); [simpl; lia|].
        intros Hin. by apply list_elem_of_singleton in Hin.
      * rewrite (Hcount0 (fired s)); [simpl; lia|].
        apply Hno. by apply Hfinal.
    + intros p. rewrite Hsc, Hst.
      rewrite (standing_pointwise p (mheap s) (mheap s') m
                 (if decide (p = w) then 3 else 0)); [lia|done| |].
      { by eapply lookup_lt_Some. }
      intros i y y' Hy Hy'. destruct (Hlook i y' Hy') as (y0 & Hy0 & H1 & H2).
      rewrite Hy in Hy0. injection Hy0 as <-.
      destruct (decide (i = m)) as [e|n].
      * destruct (H1 e) as (Hwy & _). subst i.
        rewrite Hm in Hy. injection Hy as <-.
        unfold points. rewrite Hwy, Hnone.
        destruct (decide (w = p)), (decide (p = w)); try done; congruence.
      * destruct (H2 n) as (Hwy & _). unfold points. rewrite Hwy.
        pose proof (Hnt i y Hy) as Hnt'.
        destruct (winner y) as [[|w0]|]; [done|lia|lia].
Qed.

(** No match waits for ever: either some match is active, or they are
    all Completed. *)
Lemma complete_or_active k s :
  shape k s → fed_exact s →
  (∀ m x, (m < k)%nat → mheap s !! m = Some x →
     is_Some (home x) ∧ is_Some (away x)) →
  (∃ m x, mheap s !! m = Some x ∧ active x = true)
  ∨ Forall (λ x, is_complete x = true) (mheap s).
Proof.
  intros Hsh Hfe Hfirst.
  assert (H : ∀ j, (j ≤ 2 * k - 1)%nat →
            (∃ m x, mheap s !! m = Some x ∧ active x = true)
            ∨ ∀ i x, (i < j)%nat → mheap s !! i = Some x → winner x ≠ None).
  { induction j as [|j IH]; intros Hj; [right; intros; lia|].
    destruct IH as [?|IH]; [lia|by left|].
    destruct (lookup_lt_is_Some_2 (mheap s) j) as [y Hy].
    { destruct Hsh as (Hl & _). lia. }
    destruct (winner y) as [r|] eqn:Hwy.
    { right. intros i x Hi Hx. destruct (decide (i = j)) as [->|Hne].
      - rewrite Hy in Hx. injection Hx as <-. by rewrite Hwy.
      - apply (IH i x); [lia|done]. }
    left. exists j, y. split; [done|].
    assert (Hslots : is_Some (home y) ∧ is_Some (away y)).
    { destruct (decide (j < k)%nat) as [Hlt|Hge]; [by apply (Hfirst j)|].
      destruct Hsh as (Hl & _ & Hbr & _).
      destruct (Hbr (j - k)%nat) as (_ & _ & Hsrc); [lia|].
      replace (k + (j - k))%nat with j in Hsrc by lia.
      destruct (Hfe _ _ _ y Hsrc Hy) as (Hhome & Haway).
      destruct (lookup_lt_is_Some_2 (mheap s) (2 * (j - k))) as [xt Hxt];
        [lia|].
      destruct (lookup_lt_is_Some_2 (mheap s) (2 * (j - k) + 1)) as [xb Hxb];
        [lia|].
      pose proof (IH (2 * (j - k))%nat xt ltac:(lia) Hxt) as Hwt.
      pose proof (IH (2 * (j - k) + 1)%nat xb ltac:(lia) Hxb) as Hwb.
      rewrite <- (Hhome xt Hxt) in Hwt. rewrite <- (Haway xb Hxb) in Hwb.
      split.
      - destruct (home y); [done|]. by destruct Hwt.
      - destruct (away y); [done|]. by destruct Hwb. }
    destruct Hslots as [[hy Hhy] [ay Hay]].
    unfold active. rewrite Hhy, Hay, Hwy. done. }
  destruct (H (2 * k - 1)%nat) as [?|Hall]; [lia|by left|]. right.
  apply Forall_lookup. intros i x Hx. unfold is_complete.
  apply bool_decide_eq_true. apply (Hall i x); [|done].
  destruct Hsh as (Hl & _). apply lookup_lt_Some in Hx. lia.
Qed.

(** When the final is Completed, every match is. *)
Lemma final_complete_all k s :
  shape k s → fed_exact s → filled s →
  (∃ x, mheap s !! (2 * k - 2)%nat = Some x ∧ winner x ≠ None) →
  Forall (λ x, is_complete x = true) (mheap s).
Proof.
  intros Hsh Hfe Hfill (xf & Hxf & Hwf).
  assert (H : ∀ d m x, (m + d = 2 * k - 2)%nat → mheap s !! m = Some x →
            winner x ≠ None).
  { induction d as [d IH] using lt_wf_ind. intros m x Hmd Hx.
    destruct (decide (d = 0)%nat) as [->|Hd].
    { replace m with (2 * k - 2)%nat in Hx by lia.
      rewrite Hxf in Hx. by injection Hx as <-. }
    destruct Hsh as (Hl & _ & Hbr & _).
    assert (Hj : (m / 2 < k - 1)%nat).
    { apply Nat.Div0.div_lt_upper_bound. lia. }
    destruct (Hbr (m / 2)%nat Hj) as (_ & _ & Hsrc).
    destruct (lookup_lt_is_Some_2 (mheap s) (k + m / 2)) as [y Hy]; [lia|].
    pose proof (Nat.div_mod_eq m 2) as Hdm.
    pose proof (Nat.mod_upper_bound m 2 ltac:(lia)) as Hmod.
    assert (Hwy : winner y ≠ None).
    { apply (IH (2 * k - 2 - (k + m / 2))%nat ltac:(lia) (k + m / 2)%nat y);
        [lia|done]. }
    destruct (Hfill _ y Hy Hwy) as (Hhy & Hay).
    destruct (Hfe _ _ _ y Hsrc Hy) as (Hhome & Haway).
    destruct (decide (m mod 2 = 0)%nat) as [He|Ho].
    - replace (2 * (m / 2))%nat with m in Hhome by lia.
      rewrite <- (Hhome x Hx). by destruct (home y).
    - replace (2 * (m / 2) + 1)%nat with m in Haway by lia.
      rewrite <- (Haway x Hx). by destruct (away y). }
  apply Forall_lookup. intros i x Hx. unfold is_complete.
  apply bool_decide_eq_true.
  apply (H (2 * k - 2 - i)%nat i x); [|done].
  destruct Hsh as (Hl & _). apply lookup_lt_Some in Hx. lia.
Qed.

(** ** The elimination format: the driver *)

Section KnockoutDriver.
Variables (ps : list pid) (h : gmap pid Participant).
Hypothesis Hn : (2 ≤ length ps)%nat.
Hypothesis HBY : BY ∉ ps.

Lemma in_play_final s :
  in_play ps h s →
  on_complete ∈ fired s ↔ Forall (λ x, is_complete x = true) (mheap s).
Proof.
  intros Hplay.
  destruct (in_play_extra ps h s Hn HBY Hplay)
    as (Hsh & Hfe & _ & _ & Hfired & _).
  destruct (in_play_inv ps h s Hn HBY Hplay) as (k' & _ & _ & Hfill).
  destruct (field_half (length ps) Hn) as (_ & Hk1 & _).
  rewrite Hfired. split.
  - by apply final_complete_all.
  - intros Hall.
    destruct (lookup_lt_is_Some_2 (mheap s)
                (2 * 2 ^ (Nat.log2_up (length ps) - 1) - 2)) as [x Hx].
    { destruct Hsh as (Hl & _). lia. }
    exists x. split; [done|]. rewrite Forall_lookup in Hall.
    pose proof (Hall _ x Hx) as Hc. unfold is_complete in Hc.
    by apply bool_decide_eq_true in Hc.
Qed.

(** A turn of the loop while the tournament is not complete. *)
Lemma single_turn s r :
  in_play ps h s → on_complete ∉ fired s →
  ∃ s', Example.turn report_result r s = (s', Ok tt)
    ∧ in_play ps h s'
    ∧ (pending (mheap s') + 1 = pending (mheap s))%nat
    ∧ Example.exited s s' = bool_decide (on_complete ∈ fired s').
Proof.
  intros Hplay Hno.
  destruct (in_play_extra ps h s Hn HBY Hplay)
    as (Hsh & Hfe & Hfirst & _).
  set (k := (2 ^ (Nat.log2_up (length ps) - 1))%nat) in *.
  assert (Hms : matches s = seq 0 (length (mheap s))).
  { destruct Hsh as (Hl & -> & _). by rewrite Hl. }
  destruct (complete_or_active k s Hsh Hfe Hfirst) as [Hact|Hall].
  2:{ by apply in_play_final in Hall. }
  destruct (turn_run report_result r s Hms Hact)
    as (m & x & p & Hm & Hactx & Hp & Hturn).
  destruct (active_inv x Hactx) as (h' & a' & Hh & Ha & Hnone).
  assert (Hw' : p = h' ∨ p = a').
  { rewrite Hh, Ha in Hp. destruct Hp as [Hp|Hp]; inversion Hp; auto. }
  destruct (report_effect k s m x h' a' p Hsh Hm Hh Ha Hw')
    as (s' & Hrun & Hsh' & _ & _ & _ & _ & _ & Hf').
  exists s'. rewrite Hturn. split; [done|].
  assert (Hplay' : in_play ps h s').
  { replace s' with (exec (report_result m (Some (P p))) s)
      by (unfold exec; by rewrite Hrun).
    by apply (in_play_report ps h s m x p). }
  split; [done|]. split.
  - apply (pending_step _ _ m x); [|done| |].
    + destruct Hsh as (Hl & _), Hsh' as (Hl' & _). lia.
    + exact (RoundFacts.active_incomplete x Hactx).
    + intros i y y' Hy Hy'.
      destruct (report_effect_lookup k s m x h' a' p s' i y
                  Hsh Hm Hh Ha Hw' Hrun Hy) as (y'' & Hy'' & H1 & H2 & _).
      rewrite Hy' in Hy''. injection Hy'' as <-. unfold is_complete.
      destruct (decide (i = m)) as [e|n].
      * destruct (H1 e) as (-> & _). by apply bool_decide_eq_true.
      * by destruct (H2 n) as (-> & _).
  - rewrite (exited_app s s' _ Hf'). apply bool_decide_ext.
    rewrite Hf', elem_of_app. split; [by right|]. by intros [?|?].
Qed.

Lemma single_loop rs : ∀ s,
  in_play ps h s → on_complete ∉ fired s →
  outcome (Example.loop report_result rs) s
  = Ok (bool_decide (pending (mheap s) ≤ length rs)%nat).
Proof.
  induction rs as [|r rs IH]; intros s Hplay Hno.
  - cbn. rewrite bool_decide_false; [done|].
    intros Hle. apply Hno, (in_play_final s Hplay), pending_0.
    simpl in Hle. lia.
  - destruct (single_turn s r Hplay Hno) as (s' & Hturn & Hplay' & Hpend & Hex).
    unfold outcome. cbn [Example.loop]. unfold Example.then_unless_exited.
    rewrite Hturn, Hex. case_bool_decide as Hc.
    + cbn. rewrite bool_decide_true; [done|].
      apply (in_play_final s' Hplay'), pending_0 in Hc. simpl. lia.
    + rewrite (IH s' Hplay' Hc : snd _ = _).
      f_equal. apply bool_decide_ext. simpl. lia.
Qed.

(** When [start] returns, all but [n - 1] matches are Completed. *)
Lemma single_start_pending :
  pending (mheap (exec start (SingleEliminationTournament ps h)))
  = (length ps - 1)%nat.
Proof.
  destruct (start_spec ps h Hn HBY) as (s' & Hrun & Hseed & _).
  destruct (start_extra ps h Hn HBY) as (Hbo & _).
  destruct (field_half (length ps) Hn) as (Hfs & Hk1 & Hkn).
  set (k := (2 ^ (Nat.log2_up (length ps) - 1))%nat) in *.
  unfold exec in *. rewrite Hrun in *. cbn [fst] in *.
  destruct Hseed as ((Hlen & _) & HB & HC & _ & HE & _).
  rewrite (pending_prefix _ (2 * k - length ps)); [lia|lia|].
  intros i x Hx. unfold is_complete. rewrite bool_decide_eq_true. split.
  - intros Hw. destruct (Hbo i x Hx Hw) as (_ & Hbye).
    destruct (decide (i < k)%nat) as [Hik|Hik].
    2:{ destruct (HC i x) as (_ & ?); [lia|done|done]. }
    destruct (HB i Hik) as (x' & h' & a' & Hx' & _ & Hqa & _ & Ha).
    rewrite Hx in Hx'. injection Hx' as <-.
    rewrite Hbye in Ha. injection Ha as <-.
    apply (player_queue_bye ps k ltac:(lia) Hn HBY) in Hqa. lia.
  - intros Hi. destruct (HB i ltac:(lia))
      as (x' & h' & a' & Hx' & _ & Hqa & _ & Ha).
    rewrite Hx in Hx'. injection Hx' as <-.
    unfold player_queue in Hqa. rewrite lookup_app_r in Hqa by lia.
    apply lookup_replicate in Hqa as (-> & _).
    destruct (HE i x) as (h0 & _ & ->); [lia|done|done|done].
Qed.

(** The byes [start] gives: to the first participants of the list. *)
Lemma start_byes i x :
  let k := (2 ^ (Nat.log2_up (length ps) - 1))%nat in
  mheap (exec start (SingleEliminationTournament ps h)) !! i = Some x →
  (away x = Some BY ↔ (i < 2 * k - length ps)%nat)
  ∧ (is_complete x = true ↔ (i < 2 * k - length ps)%nat)
  ∧ ((i < k)%nat → ∃ hm, ps !! i = Some hm ∧ home x = Some hm).
Proof.
  intros k.
  destruct (start_spec ps h Hn HBY) as (s' & Hrun & Hseed & _).
  destruct (start_extra ps h Hn HBY) as (Hbo & _).
  destruct (field_half (length ps) Hn) as (Hfs & Hk1 & Hkn).
  fold k in Hseed, Hbo, Hfs, Hk1, Hkn.
  unfold exec in *. rewrite Hrun in *. cbn [fst] in *.
  destruct Hseed as ((Hlen & _) & HB & HC & _ & HE & _).
  intros Hx.
  assert (Hbye : away x = Some BY ↔ (i < 2 * k - length ps)%nat).
  { split.
    - intros Hbye. destruct (decide (i < k)%nat) as [Hik|Hik].
      2:{ destruct (HC i x) as (_ & ?); [lia|done|done]. }
      destruct (HB i Hik) as (x' & h' & a' & Hx' & _ & Hqa & _ & Ha).
      rewrite Hx in Hx'. injection Hx' as <-.
      rewrite Hbye in Ha. injection Ha as <-.
      apply (player_queue_bye ps k ltac:(lia) Hn HBY) in Hqa. lia.
    - intros Hi. destruct (HB i ltac:(lia))
        as (x' & h' & a' & Hx' & _ & Hqa & _ & Ha).
      rewrite Hx in Hx'. injection Hx' as <-.
      unfold player_queue in Hqa. rewrite lookup_app_r in Hqa by lia.
      by apply lookup_replicate in Hqa as (-> & _). }
  split; [done|]. split.
  - rewrite <- Hbye. unfold is_complete. rewrite bool_decide_eq_true. split.
    + intros Hw. by destruct (Hbo i x Hx Hw).
    + intros Hb. destruct (HE i x) as (h0 & _ & ->); [|done|done|done].
      apply lookup_lt_Some in Hx. lia.
  - intros Hik. destruct (HB i Hik) as (x' & h' & a' & Hx' & Hqh & _ & Hh & _).
    rewrite Hx in Hx'. injection Hx' as <-.
    exists h'. split; [|done].
    by apply (player_queue_front ps k ltac:(lia) Hn HBY i h' Hik).
Qed.

End KnockoutDriver.

End KnockoutFacts.

(** * Further properties *)

(** ** Reporting *)

(** X1: a tie in the round-based format.  On a match with both
    participants, whatever its state, [report_result(Match.TIE)] stores
    [TIE] as the winner and as the loser, which completes the match, and
    leaves the home and the away participant one point up each (two
    points for a participant that holds both slots); the advancement step
    adds matches at most. *)
Theorem tie_scores_both (s : State Swiss.Fields) m x h a :
  mheap s !! m = Some x → home x = Some h → away x = Some a →
  let s' := exec (Swiss.report_result m (Some TIE)) s in
  let y := set_winner (Some TIE) (Some TIE) x in
  is_complete y = true
  ∧ (∃ new, mheap s' = <[m := y]> (mheap s) ++ new)
  ∧ ∀ q, score_of s' q
         = score_of s q + (if decide (q = h) then 1 else 0)
           + (if decide (q = a) then 1 else 0).
Proof.
  intros Hm Hh Ha s' y. split; [done|].
  destruct (report_result_scored Swiss.process_match_result s m x (Some TIE)
              Hm) as (s1 & Hrun & Hmh1 & _ & _ & _ & _ & _ & Hsc1).
  { cbn. by rewrite Hh, Ha. }
  change (set_winner (Some TIE) (loser_for (Some TIE) x) x) with y in *.
  assert (Hs' : s' = exec (Swiss.process_match_result m) s1).
  { unfold s', exec, Swiss.report_result. by rewrite Hrun. }
  clearbody s'. subst s'. split.
  - rewrite <- Hmh1.
    destruct (RoundFacts.process_match_result_cases s1 m)
      as [->|[[_ ->]|[_ ->]]].
    + exists []. by rewrite app_nil_r.
    + destruct (RoundFacts.setup_round_effect s1)
        as (new & rest & _ & _ & _ & _ & Hm' & _). by exists new.
    + exists []. by rewrite app_nil_r.
  - intros q. rewrite (swiss_process_keeps_score m q s1), Hsc1.
    unfold points, y. cbn [winner home away set_winner]. rewrite Hh, Ha.
    repeat case_decide; simplify_eq; lia.
Qed.

Lemma tie_scores_both_witness :
  let '(A, B) := (Scenario.A, Scenario.B) in
  let s := Scenario.round1 3 in
  let x := new_Match (Some A) (Some B) in
  let s' := exec (Swiss.report_result 0%nat (Some TIE)) s in
  let y := set_winner (Some TIE) (Some TIE) x in
  is_complete y = true
  ∧ (∃ new, mheap s' = <[0%nat := y]> (mheap s) ++ new)
  ∧ ∀ q, score_of s' q
         = score_of s q + (if decide (q = A) then 1 else 0)
           + (if decide (q = B) then 1 else 0).
Proof.
  apply (tie_scores_both (Scenario.round1 3) 0%nat
           (new_Match (Some Scenario.A) (Some Scenario.B))
           Scenario.A Scenario.B).
  - vm_compute. reflexivity.
  - reflexivity.
  - reflexivity.
Defined.

(** X2: the winner is not checked against the match.  In both formats,
    on a match with both participants, a report that names a
    participant [w] that is neither of them stores [w] as the winner and
    the home participant as the loser, fires [on_match_complete], hands
    over to the advancement step and leaves [w] 3 points up. *)
Theorem winner_not_checked m x h a w :
  home x = Some h → away x = Some a → w ≠ h → w ≠ a →
  (∀ s : State Swiss.Fields, mheap s !! m = Some x →
     reported Swiss.process_match_result s m x w h)
  ∧ (∀ s : State SingleElimination.Fields, mheap s !! m = Some x →
     reported SingleElimination.process_match_result s m x w h).
Proof.
  intros Hh Ha Hwh Hwa.
  assert (H : ∀ F (pmr : mref → M F unit) (s : State F),
            (∀ q, keeps (λ s, score_of s q) (pmr m)) →
            mheap s !! m = Some x → reported pmr s m x w h).
  { intros F pmr s Hpmr Hm.
    assert (Hl : loser_for (Some (P w)) x = Some (P h)).
    { unfold loser_for. rewrite bool_decide_false by done.
      rewrite Hh. cbn. rewrite bool_decide_false; [done|]. congruence. }
    destruct (report_result_scored pmr s m x (Some (P w)) Hm)
      as (s1 & Hrun & Hmh1 & Hf1 & _ & _ & _ & _ & Hsc1).
    { rewrite Hl. cbn. by eexists. }
    rewrite Hl in Hmh1, Hsc1.
    exists s1. split; [done|]. split.
    { rewrite Hmh1. apply list_lookup_insert_eq. by eapply lookup_lt_Some. }
    split; [done|].
    unfold exec at 1. rewrite Hrun.
    etrans; [apply (Hpmr w)|]. rewrite Hsc1. unfold points. cbn.
    by rewrite decide_True. }
  split; intros s Hm; apply H; try done; intros q.
  - apply swiss_process_keeps_score.
  - apply single_process_keeps_score.
Qed.

Lemma winner_not_checked_witness :
  let '(A, B, C) := (Scenario.A, Scenario.B, Scenario.C) in
  let x := new_Match (Some A) (Some B) in
  mheap (Scenario.round1 3) !! 0%nat = Some x
  ∧ (∀ s : State Swiss.Fields, mheap s !! 0%nat = Some x →
       reported Swiss.process_match_result s 0%nat x C A)
  ∧ (∀ s : State SingleElimination.Fields, mheap s !! 0%nat = Some x →
       reported SingleElimination.process_match_result s 0%nat x C A).
Proof.
  split; [vm_compute; reflexivity|].
  apply (winner_not_checked 0%nat
           (new_Match (Some Scenario.A) (Some Scenario.B))
           Scenario.A Scenario.B Scenario.C); done.
Defined.

(** X3: a report on a match whose home slot is still empty.  Whatever
    the format, [report_result] for a participant [w] stores [w] as the
    winner and gives it 3 points, and only then raises [AttributeError],
    at the score of the loser that is not there; no event is fired and the
    advancement step does not run. *)
Theorem report_on_empty_slot {F} (pmr : mref → M F unit) (s : State F)
  m x w :
  mheap s !! m = Some x → home x = None →
  let s' := exec (Tournament.report_result pmr m (Some (P w))) s in
  outcome (Tournament.report_result pmr m (Some (P w))) s
  = Raise AttributeError
  ∧ mheap s' = <[m := set_winner (Some (P w)) None x]> (mheap s)
  ∧ fired s' = fired s
  ∧ ∀ q, score_of s' q = score_of s q + if decide (q = w) then 3 else 0.
Proof.
  intros Hm Hh s'. subst s'. unfold exec, outcome.
  rewrite (report_result_run pmr s m x (Some (P w)) Hm).
  assert (Hl : loser_for (Some (P w)) x = None).
  { unfold loser_for. rewrite bool_decide_false by done.
    rewrite Hh. cbn. by rewrite bool_decide_false. }
  rewrite Hl. set (y := set_winner _ _ x). set (s0 := upd_mheap _ s).
  assert (Hm0 : mheap s0 !! m = Some y).
  { unfold s0. cbn. by rewrite list_lookup_alter_eq, Hm. }
  assert (Hcalc : Tournament.calc_match_points m s0
                  = (exec (upd_participant w (add_score 3)) s0,
                     Raise AttributeError)).
  { unfold Tournament.calc_match_points.
    rewrite (bind_read_match _ _ _ _ Hm0).
    rewrite bool_decide_false by done.
    cbn [winner loser y set_winner upd_attr].
    unfold upd_participant. by rewrite bind_modify. }
  assert (Hall : Tournament.handle_match_result pmr m s0
                 = (exec (upd_participant w (add_score 3)) s0,
                    Raise AttributeError)).
  { unfold Tournament.handle_match_result. unfold bind at 1.
    by rewrite Hcalc. }
  rewrite Hall. cbn [fst snd].
  split; [done|]. split.
  { rewrite (keeps_upd_participant mheap w _ (λ _ _, eq_refl) s0).
    by apply alter_insert. }
  split; [done|]. intros q. by rewrite score_of_add_score.
Qed.

Lemma report_on_empty_slot_witness :
  let s := exec SingleElimination.start
             (SingleElimination.SingleEliminationTournament
                [PInt 1; PInt 2; PInt 3; PInt 4] ∅) in
  let c := SingleElimination.report_result 2%nat (Some (P (PInt 1))) in
  outcome c s = Raise AttributeError
  ∧ mheap (exec c s)
    = <[2%nat := set_winner (Some (P (PInt 1))) None (new_Match None None)]>
        (mheap s)
  ∧ fired (exec c s) = fired s
  ∧ ∀ q, score_of (exec c s) q
         = score_of s q + if decide (q = PInt 1) then 3 else 0.
Proof.
  apply (report_on_empty_slot SingleElimination.process_match_result
           _ 2%nat (new_Match None None) (PInt 1)).
  - vm_compute. reflexivity.
  - reflexivity.
Defined.

(** X4: a tie in the elimination format.  On a match with both
    participants, [report_result(Match.TIE)] stores the tie and gives
    each participant its point; then, if the match has a parent, the
    advancement step raises [AttributeError] at the winner that is no
    participant, after [on_match_complete] has been fired: nobody moves
    on and the bracket maps and the parent are as before; on the final
    the tie is taken and [on_complete] fires. *)
Theorem tie_in_bracket (s : State SingleElimination.Fields) m x h a :
  mheap s !! m = Some x → home x = Some h → away x = Some a →
  let c := SingleElimination.report_result m (Some TIE) in
  let y := set_winner (Some TIE) (Some TIE) x in
  mheap (exec c s) = <[m := y]> (mheap s)
  ∧ fmt (exec c s) = fmt s
  ∧ (∀ q, score_of (exec c s) q
          = score_of s q + (if decide (q = h) then 1 else 0)
            + (if decide (q = a) then 1 else 0))
  ∧ match SingleElimination.bracket (fmt s) !! m with
    | Some _ =>
        outcome c s = Raise AttributeError
        ∧ fired (exec c s) = fired s ++ [on_match_complete m]
    | None =>
        outcome c s = Ok tt
        ∧ fired (exec c s) = fired s ++ [on_match_complete m; on_complete]
    end.
Proof.
  intros Hm Hh Ha c y.
  destruct (report_result_scored SingleElimination.process_match_result
              s m x (Some TIE) Hm)
    as (s1 & Hrun & Hmh1 & Hf1 & _ & _ & _ & Hfmt1 & Hsc1).
  { cbn. by rewrite Hh, Ha. }
  change (set_winner (Some TIE) (loser_for (Some TIE) x) x) with y in *.
  assert (Hm1 : mheap s1 !! m = Some y).
  { rewrite Hmh1. apply list_lookup_insert_eq. by eapply lookup_lt_Some. }
  assert (Hsc : ∀ q, score_of s1 q
            = score_of s q + (if decide (q = h) then 1 else 0)
              + (if decide (q = a) then 1 else 0)).
  { intros q. rewrite Hsc1. unfold points, y.
    cbn [winner home away set_winner]. rewrite Hh, Ha.
    repeat case_decide; simplify_eq; lia. }
  subst c. unfold exec, outcome, SingleElimination.report_result.
  rewrite Hrun. unfold SingleElimination.process_match_result.
  rewrite bind_gets, Hfmt1.
  destruct (SingleElimination.bracket (fmt s) !! m) as [p|].
  - rewrite (bind_read_match _ _ _ _ Hm1). cbn [winner y set_winner].
    cbn [raise fst snd]. by rewrite Hf1.
  - cbn. rewrite Hf1, <- app_assoc. done.
Qed.

Lemma tie_in_bracket_witness :
  let s := exec SingleElimination.start
             (SingleElimination.SingleEliminationTournament
                [PInt 1; PInt 2; PInt 3; PInt 4] ∅) in
  let x := new_Match (Some (PInt 1)) (Some (PInt 4)) in
  let c := SingleElimination.report_result 0%nat (Some TIE) in
  let y := set_winner (Some TIE) (Some TIE) x in
  mheap (exec c s) = <[0%nat := y]> (mheap s)
  ∧ fmt (exec c s) = fmt s
  ∧ (∀ q, score_of (exec c s) q
          = score_of s q + (if decide (q = PInt 1) then 1 else 0)
            + (if decide (q = PInt 4) then 1 else 0))
  ∧ match SingleElimination.bracket (fmt s) !! 0%nat with
    | Some _ =>
        outcome c s = Raise AttributeError
        ∧ fired (exec c s) = fired s ++ [on_match_complete 0%nat]
    | None =>
        outcome c s = Ok tt
        ∧ fired (exec c s)
          = fired s ++ [on_match_complete 0%nat; on_complete]
    end.
Proof.
  apply (tie_in_bracket _ 0%nat (new_Match (Some (PInt 1)) (Some (PInt 4)))
           (PInt 1) (PInt 4)).
  - vm_compute. reflexivity.
  - reflexivity.
  - reflexivity.
Defined.

(** ** Starting *)

(** X5: an elimination tournament of fewer than two participants.
    [start] resets the scores and fires [on_start], and then seeding
    fails before it creates a match: with [ValueError] on no participant
    (the logarithm of 0), with [IndexError] on a single one (the queue is
    empty when the away side is popped). *)
Theorem start_needs_two ps h :
  (length ps < 2)%nat →
  let t := SingleElimination.SingleEliminationTournament ps h in
  let s := exec SingleElimination.start t in
  outcome SingleElimination.start t
  = Raise (if decide (ps = []) then ValueError else IndexError)
  ∧ mheap s = [] ∧ matches s = [] ∧ fired s = [on_start]
  ∧ ∀ q, q ∈ ps → score_of s q = 0.
Proof.
  intros Hlen t s.
  destruct ps as [|p [|p' ps]]; [| |simpl in Hlen; lia].
  - repeat split; try done. intros q Hq. by apply elem_of_nil in Hq.
  - repeat split; try done. intros q Hq.
    apply list_elem_of_singleton in Hq as ->.
    unfold score_of, participant.
    change (pheap s) with (<[p := zero_score (participant t p)]> h).
    by rewrite lookup_insert_eq.
Qed.

Lemma start_needs_two_witness :
  let ps := [PInt 1] in
  let t := SingleElimination.SingleEliminationTournament ps ∅ in
  let s := exec SingleElimination.start t in
  outcome SingleElimination.start t
  = Raise (if decide (ps = []) then ValueError else IndexError)
  ∧ mheap s = [] ∧ matches s = [] ∧ fired s = [on_start]
  ∧ ∀ q, q ∈ ps → score_of s q = 0.
Proof. apply (start_needs_two [PInt 1] ∅). simpl. lia. Defined.

(** X6: [start] resets the scores.  In the round-based format, for any
    participant list and whatever the participant objects carried,
    [start] leaves every participant of the tournament at score 0 and
    the score of any other participant object as it was. *)
Theorem start_resets_scores n ps h q :
  score_of (exec Swiss.start (Swiss.SwissTournament n ps h)) q
  = if decide (q ∈ ps) then 0
    else tournament_score (default new_Participant (h !! q)).
Proof.
  by destruct (RoundFacts.start_effect n ps h)
    as (rest & _ & _ & _ & Hsc & _).
Qed.

(** ** Handlers *)

(** X7: the handlers of an event are called in the order of their
    registration.  After any sequence of [add_callback] on an empty
    registry, [trigger_event] calls, for the event it is given, exactly
    the handlers registered for that event, each as many times as it was
    registered, in the order of the registrations; for an event without
    handler it calls nothing. *)
Theorem handlers_in_registration_order {Handler}
  (regs : list (string * Handler)) (event : string) :
  CallbackMixin.trigger_event event
    (foldl (λ cb r, CallbackMixin.add_callback r.1 r.2 cb)
           CallbackMixin.init regs)
  = (filter (λ r, r.1 = event) regs).*2.
Proof.
  induction regs as [|[e f] regs IH] using rev_ind; [done|].
  rewrite foldl_app, filter_app, fmap_app, <- IH. cbn [foldl fst snd].
  unfold CallbackMixin.trigger_event, CallbackMixin.add_callback.
  rewrite lookup_insert, filter_cons, filter_nil. cbn [fst].
  destruct (decide (e = event)) as [->|Hne]; [done|].
  by rewrite app_nil_r.
Qed.

(** ** The round-based format *)

(** X8: every round holds every participant once.  In orderly use of
    a tournament of an even number of participants, the matches of each
    round made so far (the [r + 1]-th round is the [r + 1]-th block of
    [n / 2] matches) have, in their home and away slots together, each
    participant exactly as often as the participant list has it: nobody
    sits out and nobody plays twice in a round. *)
Theorem round_pairs_everyone_once n ps h s (r : nat) :
  Nat.even (length ps) = true → (2 ≤ length ps)%nat → 1 ≤ n →
  Round.in_play n ps h s →
  Z.of_nat r < Swiss.current_round (fmt s) →
  let half := Nat.div2 (length ps) in
  flat_map slots (take half (drop (r * half) (mheap s))) ≡ₚ Some <$> ps.
Proof.
  intros Heven Hn2 Hn1 Hplay Hr.
  by apply (RoundFacts.in_play_rounds n ps h s).
Qed.

Lemma round_pairs_everyone_once_witness :
  let ps := [Scenario.A; Scenario.B; Scenario.C; Scenario.D] in
  let s := Scenario.round2 2 in
  Swiss.current_round (fmt s) = 2
  ∧ flat_map slots (take 2 (drop 2 (mheap s))) ≡ₚ Some <$> ps.
Proof.
  split; [vm_compute; reflexivity|].
  apply (round_pairs_everyone_once 2
           [Scenario.A; Scenario.B; Scenario.C; Scenario.D] ∅
           (Scenario.round2 2) 1%nat).
  - reflexivity.
  - simpl. lia.
  - lia.
  - apply (Round.in_play_report 2 _ ∅ _ 1%nat
             (new_Match (Some Scenario.C) (Some Scenario.D)) (P Scenario.C));
      [|vm_compute; reflexivity|reflexivity|by left].
    apply (Round.in_play_report 2 _ ∅ _ 0%nat
             (new_Match (Some Scenario.A) (Some Scenario.B)) (P Scenario.A));
      [|vm_compute; reflexivity|reflexivity|by left].
    apply Round.in_play_start.
  - vm_compute. reflexivity.
Defined.

(** X9: the opponents recorded are the pairings made.  In any use of a
    round-based tournament (started, then any calls of [report_result],
    valid or not, failing or not), the opponents recorded for a
    participant are, in order, its opponents in the matches of the
    tournament in which it holds a slot. *)
Theorem opponents_are_pairings n ps h s q :
  Round.in_use n ps h s →
  Pairing.faced s q = flat_map (opps q) (mheap s).
Proof. intros Huse. by apply (RoundFacts.in_use_faced n ps h). Qed.

Lemma opponents_are_pairings_witness :
  let s := Scenario.round2 2 in
  Pairing.faced s Scenario.A = flat_map (opps Scenario.A) (mheap s)
  ∧ Pairing.faced s Scenario.A = [Scenario.B; Scenario.C].
Proof.
  split; [|vm_compute; reflexivity].
  apply (opponents_are_pairings 2
           [Scenario.A; Scenario.B; Scenario.C; Scenario.D] ∅).
  apply (Round.in_use_report 2 _ ∅ _ 1%nat (Some (P Scenario.C))).
  apply (Round.in_use_report 2 _ ∅ _ 0%nat (Some (P Scenario.A))).
  apply Round.in_use_start.
Defined.

(** X10: the rounds of a tournament.  In orderly use of a tournament of
    an even number [>= 2] of participants over [n >= 1] rounds: the
    current round [c] is between 1 and [n]; the tournament holds
    [c * n / 2] matches, listed in the order of their creation; the
    matches of the earlier rounds are all Completed; [on_complete] has
    been fired exactly if the last round is on and every match is
    Completed, and it has been fired at most once. *)
Theorem rounds_in_order n ps h s :
  Nat.even (length ps) = true → (2 ≤ length ps)%nat → 1 ≤ n →
  Round.in_play n ps h s →
  let half := Nat.div2 (length ps) in
  ∃ c : nat,
    Swiss.current_round (fmt s) = Z.of_nat c ∧ (1 ≤ c)%nat ∧ Z.of_nat c ≤ n
    ∧ Swiss.rounds (fmt s) = n
    ∧ length (mheap s) = (c * half)%nat
    ∧ matches s = seq 0 (length (mheap s))
    ∧ (∀ i x, (i < (c - 1) * half)%nat → mheap s !! i = Some x →
         is_complete x = true)
    ∧ (on_complete ∈ fired s ↔ Round.over s)
    ∧ (length (filter (λ e, e = on_complete) (fired s)) ≤ 1)%nat.
Proof.
  intros Heven Hn2 Hn1 Hplay half.
  destruct (RoundFacts.in_play_core n ps h s Heven Hn2 Hn1 Hplay)
    as (Hcfg & Hms & _ & c & Hcr & Hc1 & Hcn & Hlen & Hold & Hlast & Hfired
        & Hcount).
  apply RoundFacts.config_inv in Hcfg as (_ & _ & Hrounds & _).
  exists c. repeat (split; [done|]). split; [|done].
  rewrite Hfired. unfold Round.over. rewrite Hcr, Hrounds. split.
  - intros Hall. split; [by apply Hlast|done].
  - by intros [_ ?].
Qed.

Lemma rounds_in_order_witness :
  let s := Scenario.round1 2 in
  ∃ c : nat,
    Swiss.current_round (fmt s) = Z.of_nat c ∧ (1 ≤ c)%nat ∧ Z.of_nat c ≤ 2
    ∧ Swiss.rounds (fmt s) = 2
    ∧ length (mheap s) = (c * 2)%nat
    ∧ matches s = seq 0 (length (mheap s))
    ∧ (∀ i x, (i < (c - 1) * 2)%nat → mheap s !! i = Some x →
         is_complete x = true)
    ∧ (on_complete ∈ fired s ↔ Round.over s)
    ∧ (length (filter (λ e, e = on_complete) (fired s)) ≤ 1)%nat.
Proof.
  apply (rounds_in_order 2 [Scenario.A; Scenario.B; Scenario.C; Scenario.D]
           ∅ (Scenario.round1 2)).
  - reflexivity.
  - simpl. lia.
  - lia.
  - apply Round.in_play_start.
Defined.

(** X11: what a report does in the round-based format.  In orderly
    use, a report on an active match succeeds.  If another match is
    still not Completed, nothing follows [on_match_complete].  If the
    match was the last one, then before the last round the next round is
    set up (the round number goes up by one and [n / 2] matches are
    created and announced, then [on_start_round] fires), and in the last
    round [on_complete] fires. *)
Theorem last_report_advances n ps h s m x w :
  Nat.even (length ps) = true → (2 ≤ length ps)%nat → 1 ≤ n →
  Round.in_play n ps h s →
  mheap s !! m = Some x → active x = true → names w x →
  let c := Swiss.report_result m (Some w) in
  let y := set_winner (Some w) (loser_for (Some w) x) x in
  let mh := <[m := y]> (mheap s) in
  let half := Nat.div2 (length ps) in
  outcome c s = Ok tt
  ∧ if bool_decide (Forall (λ x, is_complete x = true) mh) then
      if bool_decide (Swiss.current_round (fmt s) ≠ n) then
        ∃ new, mheap (exec c s) = mh ++ new ∧ length new = half
          ∧ Forall fresh new
          ∧ Swiss.current_round (fmt (exec c s))
            = Swiss.current_round (fmt s) + 1
          ∧ fired (exec c s)
            = fired s ++ on_match_complete m ::
                (on_match_ready <$> seq (length mh) half) ++ [on_start_round]
      else mheap (exec c s) = mh
           ∧ Swiss.current_round (fmt (exec c s))
             = Swiss.current_round (fmt s)
           ∧ fired (exec c s) = fired s ++ [on_match_complete m; on_complete]
    else mheap (exec c s) = mh
         ∧ Swiss.current_round (fmt (exec c s)) = Swiss.current_round (fmt s)
         ∧ fired (exec c s) = fired s ++ [on_match_complete m].
Proof.
  intros Heven Hn2 Hn1 Hplay Hm Hact Hw c y mh half.
  destruct (RoundFacts.in_play_core n ps h s Heven Hn2 Hn1 Hplay)
    as (Hcfg & Hms & _).
  apply RoundFacts.config_inv in Hcfg as (Hps & _ & Hrounds & _).
  destruct (RoundFacts.round_report_step s m x w Hm Hact Hw Hms)
    as (new & Hout & _ & _ & Hmh' & _ & _ & Hfr & Hcase).
  { by rewrite Hps. }
  rewrite Hps, Hrounds in Hcase. fold y mh half c in Hmh', Hcase, Hout.
  split; [done|].
  destruct (bool_decide (Forall _ mh)); [destruct (bool_decide (_ ≠ _))|].
  - destruct Hcase as (Hcr' & Hlen' & _ & Hf'). by exists new.
  - destruct Hcase as (Hcr' & -> & Hf'). by rewrite app_nil_r in Hmh'.
  - destruct Hcase as (Hcr' & -> & Hf'). by rewrite app_nil_r in Hmh'.
Qed.

Lemma last_report_advances_witness :
  let '(A, B) := (Scenario.A, Scenario.B) in
  let s := exec Swiss.start (Swiss.SwissTournament 2 [A; B] ∅) in
  let x := new_Match (Some A) (Some B) in
  let c := Swiss.report_result 0%nat (Some (P B)) in
  let y := set_winner (Some (P B)) (loser_for (Some (P B)) x) x in
  let mh := <[0%nat := y]> (mheap s) in
  outcome c s = Ok tt
  ∧ if bool_decide (Forall (λ x, is_complete x = true) mh) then
      if bool_decide (Swiss.current_round (fmt s) ≠ 2) then
        ∃ new, mheap (exec c s) = mh ++ new ∧ length new = 1%nat
          ∧ Forall fresh new
          ∧ Swiss.current_round (fmt (exec c s))
            = Swiss.current_round (fmt s) + 1
          ∧ fired (exec c s)
            = fired s ++ on_match_complete 0%nat ::
                (on_match_ready <$> seq (length mh) 1) ++ [on_start_round]
      else mheap (exec c s) = mh
           ∧ Swiss.current_round (fmt (exec c s))
             = Swiss.current_round (fmt s)
           ∧ fired (exec c s)
             = fired s ++ [on_match_complete 0%nat; on_complete]
    else mheap (exec c s) = mh
         ∧ Swiss.current_round (fmt (exec c s)) = Swiss.current_round (fmt s)
         ∧ fired (exec c s) = fired s ++ [on_match_complete 0%nat].
Proof.
  apply (last_report_advances 2 [Scenario.A; Scenario.B] ∅ _ 0%nat
           (new_Match (Some Scenario.A) (Some Scenario.B)) (P Scenario.B)).
  - reflexivity.
  - simpl. lia.
  - lia.
  - apply Round.in_play_start.
  - vm_compute. reflexivity.
  - reflexivity.
  - by right.
Defined.

(** X12: the standings of the round-based format.  In orderly use,
    the score of every participant of the tournament is the sum of the
    points of the results reported: 3 for each match it has won, 1 for
    each slot it holds in a tied match, nothing for a match lost or not
    yet Completed. *)
Theorem standings_round_based n ps h s p :
  Nat.even (length ps) = true → (2 ≤ length ps)%nat → 1 ≤ n →
  Round.in_play n ps h s → p ∈ ps →
  score_of s p = standing p (mheap s).
Proof.
  intros Heven Hn2 Hn1 Hplay Hp.
  rewrite (RoundFacts.in_play_standing n ps h s Heven Hn2 Hn1 Hplay p).
  unfold Bracket.reset_score. rewrite decide_True by done. lia.
Qed.

Lemma standings_round_based_witness :
  let s := Scenario.round2 2 in
  score_of s Scenario.A = standing Scenario.A (mheap s)
  ∧ score_of s Scenario.A = 3.
Proof.
  split; [|vm_compute; reflexivity].
  apply (standings_round_based 2
           [Scenario.A; Scenario.B; Scenario.C; Scenario.D] ∅).
  - reflexivity.
  - simpl. lia.
  - lia.
  - apply (Round.in_play_report 2 _ ∅ _ 1%nat
             (new_Match (Some Scenario.C) (Some Scenario.D)) (P Scenario.C));
      [|vm_compute; reflexivity|reflexivity|by left].
    apply (Round.in_play_report 2 _ ∅ _ 0%nat
             (new_Match (Some Scenario.A) (Some Scenario.B)) (P Scenario.A));
      [|vm_compute; reflexivity|reflexivity|by left].
    apply Round.in_play_start.
  - by left.
Defined.

(** X13: with fewer than one round configured the tournament never
    completes.  [process_match_result] compares the round number with
    the configured number for inequality: when that number is below 1,
    in any use of the tournament, for any participants, every completed
    round is followed by another and [on_complete] is never fired. *)
Theorem no_round_never_completes n ps h s :
  n < 1 → Round.in_use n ps h s →
  (on_complete ∉ fired s) ∧ n < Swiss.current_round (fmt s).
Proof.
  intros Hn Huse.
  destruct (RoundFacts.in_use_no_round n ps h s Hn Huse) as (? & ? & ?).
  split; [done|lia].
Qed.

Lemma no_round_never_completes_witness :
  let s := exec (Swiss.report_result 0%nat (Some (P Scenario.A)))
             (exec Swiss.start
                (Swiss.SwissTournament 0 [Scenario.A; Scenario.B] ∅)) in
  ((on_complete ∉ fired s) ∧ 0 < Swiss.current_round (fmt s))
  ∧ Swiss.current_round (fmt s) = 2 ∧ length (mheap s) = 2%nat.
Proof.
  split; [|vm_compute; split; reflexivity].
  apply (no_round_never_completes 0 [Scenario.A; Scenario.B] ∅); [lia|].
  apply (Round.in_use_report 0 _ ∅ _ 0%nat (Some (P Scenario.A))).
  apply Round.in_use_start.
Defined.

(** X14: there is a match to play until the tournament is complete.
    In orderly use of the round-based format, [active_matches] returns the
    matches that are not Completed, [completed_matches] those that are,
    and [active_matches] is empty exactly when [on_complete] has been
    fired. *)
Theorem round_progress n ps h s :
  Nat.even (length ps) = true → (2 ≤ length ps)%nat → 1 ≤ n →
  Round.in_play n ps h s →
  ∃ la lc,
    Tournament.active_matches s = (s, Ok la)
    ∧ Tournament.completed_matches s = (s, Ok lc)
    ∧ (∀ m, m ∈ la ↔ ∃ x, mheap s !! m = Some x ∧ is_complete x = false)
    ∧ (∀ m, m ∈ lc ↔ ∃ x, mheap s !! m = Some x ∧ is_complete x = true)
    ∧ (la = [] ↔ on_complete ∈ fired s).
Proof.
  intros Heven Hn2 Hn1 Hplay.
  destruct (RoundFacts.in_play_core n ps h s Heven Hn2 Hn1 Hplay)
    as (_ & Hms & Hfill & c & _ & _ & _ & _ & _ & _ & Hfired & _).
  destruct (filter_matches_spec active s Hms) as (la & Hla & Ha).
  destruct (filter_matches_spec is_complete s Hms) as (lc & Hlc & Hc).
  exists la, lc. split; [done|]. split; [done|].
  assert (Hact : ∀ m x, mheap s !! m = Some x →
            active x = true ↔ is_complete x = false).
  { intros m x Hx. split; [apply RoundFacts.active_incomplete|].
    rewrite Forall_lookup in Hfill.
    destruct (Hfill m x Hx) as [[hx Hhx] [ax Hax]].
    unfold active, is_complete. rewrite Hhx, Hax.
    destruct (winner x); [|done]. by rewrite bool_decide_true. }
  split.
  { intros m. rewrite Ha. split; intros (x & Hx & H'); exists x;
      (split; [done|]); by apply (Hact m x Hx). }
  split; [done|]. rewrite Hfired. split.
  - intros ->. apply Forall_lookup. intros m x Hx.
    destruct (is_complete x) eqn:E; [done|]. exfalso.
    assert (Hin : m ∈ @nil nat).
    { apply Ha. exists x. split; [done|]. by apply (Hact m x Hx). }
    by apply elem_of_nil in Hin.
  - intros Hall. destruct la as [|m la]; [done|]. exfalso.
    destruct (proj1 (Ha m)) as (x & Hx & Hax); [by left|].
    rewrite Forall_lookup in Hall. pose proof (Hall m x Hx) as Hcx.
    apply (Hact m x Hx) in Hax. congruence.
Qed.

Lemma round_progress_witness :
  let s := Scenario.round1 2 in
  ∃ la lc,
    Tournament.active_matches s = (s, Ok la)
    ∧ Tournament.completed_matches s = (s, Ok lc)
    ∧ (∀ m, m ∈ la ↔ ∃ x, mheap s !! m = Some x ∧ is_complete x = false)
    ∧ (∀ m, m ∈ lc ↔ ∃ x, mheap s !! m = Some x ∧ is_complete x = true)
    ∧ (la = [] ↔ on_complete ∈ fired s).
Proof.
  apply (round_progress 2 [Scenario.A; Scenario.B; Scenario.C; Scenario.D]
           ∅ (Scenario.round1 2)).
  - reflexivity.
  - simpl. lia.
  - lia.
  - apply Round.in_play_start.
Defined.

(** X15: the script ends, in the round-based format.  For an even
    number [>= 2] of participants and [n >= 1] rounds, whatever numbers
    are drawn, the loop of [example.py] never fails, every turn reports
    an active match, and the script ends with the turn number
    [n * (number of participants / 2)], the one that fires
    [on_complete]: after fewer turns it is still running. *)
Theorem example_rounds_end n ps h rs :
  Nat.even (length ps) = true → (2 ≤ length ps)%nat → 1 ≤ n →
  outcome (Example.main Swiss.report_result Swiss.start rs)
          (Swiss.SwissTournament n ps h)
  = Ok (bool_decide (Z.to_nat n * Nat.div2 (length ps) ≤ length rs)%nat).
Proof.
  intros Heven Hn2 Hn1.
  pose proof (Round.in_play_start n ps h) as Hplay.
  destruct (RoundFacts.in_play_over n ps h Heven Hn2 Hn1 _ Hplay)
    as [Hfired Hleft].
  destruct (RoundFacts.start_effect n ps h)
    as (rest & Hout & _ & Hcr & _ & Hlen & Hfr & _ & Hf & _).
  rewrite Heven in Hout.
  assert (Hno : on_complete ∉ fired (exec Swiss.start
                                     (Swiss.SwissTournament n ps h))).
  { rewrite Hfired. intros Hall.
    destruct (mheap _) as [|x l] eqn:E.
    - pose proof (RoundFacts.even_half _ Heven). simpl in Hlen. lia.
    - apply Forall_cons in Hall as [Hx _]. apply Forall_cons in Hfr as [Hfx _].
      apply RoundFacts.fresh_inv in Hfx as (_ & Hc & _). congruence. }
  pose proof (RoundFacts.swiss_loop n ps h Heven Hn2 Hn1 rs _ Hplay Hno)
    as Hloop.
  rewrite Hcr, (pending_fresh _ Hfr), Hlen in Hloop.
  unfold outcome, Example.main, Example.then_unless_exited in *.
  unfold exec in *.
  destruct (Swiss.start (Swiss.SwissTournament n ps h)) as [s0 r0].
  cbn [fst snd] in *. subst r0.
  rewrite (exited_app (Swiss.SwissTournament n ps h) s0 (fired s0) eq_refl).
  rewrite bool_decide_false by done. rewrite Hloop.
  f_equal. apply bool_decide_ext.
  replace (Z.to_nat n) with (S (Z.to_nat (n - 1))) by lia. lia.
Qed.

Lemma example_rounds_end_witness :
  let ps := [Scenario.A; Scenario.B; Scenario.C; Scenario.D] in
  let rs := [(0, 0); (5, 1); (2, 2); (7, 0)]%nat in
  outcome (Example.main Swiss.report_result Swiss.start rs)
          (Swiss.SwissTournament 2 ps ∅)
  = Ok (bool_decide (Z.to_nat 2 * Nat.div2 (length ps) ≤ length rs)%nat).
Proof.
  apply (example_rounds_end 2
           [Scenario.A; Scenario.B; Scenario.C; Scenario.D] ∅).
  - reflexivity.
  - simpl. lia.
  - lia.
Defined.

(** ** The elimination format *)

(** X16: the slots of a placeholder hold the winners of the matches
    that feed it.  In orderly use of an elimination tournament, for
    every placeholder, its home slot is empty as long as the first match
    of its provenance pair is not Completed and holds the winner of that
    match from then on, and likewise its away slot with the second. *)
Theorem slots_hold_the_winners ps h s p t b y xt xb :
  (2 ≤ length ps)%nat → BY ∉ ps → Bracket.in_play ps h s →
  SingleElimination.sources (fmt s) !! p = Some (t, b) →
  mheap s !! p = Some y → mheap s !! t = Some xt → mheap s !! b = Some xb →
  slot_value (home y) = winner xt ∧ slot_value (away y) = winner xb.
Proof.
  intros Hn HBY Hplay Hsrc Hy Hxt Hxb.
  destruct (KnockoutFacts.in_play_extra ps h s Hn HBY Hplay) as (_ & Hfe & _).
  destruct (Hfe p t b y Hsrc Hy) as (Hhome & Haway).
  split; [by apply Hhome | by apply Haway].
Qed.

Lemma slots_hold_the_winners_witness :
  let s := exec SingleElimination.start
             (SingleElimination.SingleEliminationTournament Bracket.trio ∅) in
  ∃ y xt xb,
    mheap s !! 2%nat = Some y ∧ mheap s !! 0%nat = Some xt
    ∧ mheap s !! 1%nat = Some xb
    ∧ winner xt = Some (P (PInt 1)) ∧ winner xb = None
    ∧ slot_value (home y) = winner xt ∧ slot_value (away y) = winner xb.
Proof.
  eexists _, _, _.
  split; [vm_compute; reflexivity|]. split; [vm_compute; reflexivity|].
  split; [vm_compute; reflexivity|]. split; [reflexivity|].
  split; [reflexivity|].
  apply (slots_hold_the_winners Bracket.trio ∅
           (exec SingleElimination.start
              (SingleElimination.SingleEliminationTournament Bracket.trio ∅))
           2%nat 0%nat 1%nat).
  - simpl. lia.
  - exact BY_not_in_trio.
  - apply Bracket.in_play_start.
  - vm_compute. reflexivity.
  - vm_compute. reflexivity.
  - vm_compute. reflexivity.
  - vm_compute. reflexivity.
Defined.

(** X17: the bracket is played to its end.  In orderly use of an
    elimination tournament, [active_matches] returns the matches that
    have both participants and no result; it is empty exactly when
    [on_complete] has been fired, that is exactly when every match of
    the bracket is Completed; and [on_complete] is fired at most once. *)
Theorem bracket_progress ps h s :
  (2 ≤ length ps)%nat → BY ∉ ps → Bracket.in_play ps h s →
  ∃ la,
    Tournament.active_matches s = (s, Ok la)
    ∧ (∀ m, m ∈ la ↔ ∃ x, mheap s !! m = Some x ∧ active x = true)
    ∧ (la = [] ↔ on_complete ∈ fired s)
    ∧ (on_complete ∈ fired s
       ↔ Forall (λ x, is_complete x = true) (mheap s))
    ∧ (length (filter (λ e, e = on_complete) (fired s)) ≤ 1)%nat.
Proof.
  intros Hn HBY Hplay.
  destruct (KnockoutFacts.in_play_extra ps h s Hn HBY Hplay)
    as (Hsh & Hfe & Hfirst & _ & _ & Hcount & _).
  pose proof (KnockoutFacts.in_play_final ps h Hn HBY s Hplay) as Hfinal.
  assert (Hms : matches s = seq 0 (length (mheap s))).
  { destruct Hsh as (Hl & -> & _). by rewrite Hl. }
  destruct (filter_matches_spec active s Hms) as (la & Hla & Ha).
  exists la. split; [done|]. split; [done|]. split; [|done].
  rewrite Hfinal. split.
  - intros ->.
    destruct (KnockoutFacts.complete_or_active _ s Hsh Hfe Hfirst)
      as [(m & x & Hx & Hact)|Hall]; [|done].
    assert (Hin : m ∈ @nil nat) by (apply Ha; eauto).
    by apply elem_of_nil in Hin.
  - intros Hall. destruct la as [|m la]; [done|]. exfalso.
    destruct (proj1 (Ha m)) as (x & Hx & Hax); [by left|].
    rewrite Forall_lookup in Hall. pose proof (Hall m x Hx) as Hcx.
    apply RoundFacts.active_incomplete in Hax. congruence.
Qed.

Lemma bracket_progress_witness :
  let s := exec SingleElimination.start
             (SingleElimination.SingleEliminationTournament Bracket.trio ∅) in
  ∃ la,
    Tournament.active_matches s = (s, Ok la)
    ∧ (∀ m, m ∈ la ↔ ∃ x, mheap s !! m = Some x ∧ active x = true)
    ∧ (la = [] ↔ on_complete ∈ fired s)
    ∧ (on_complete ∈ fired s
       ↔ Forall (λ x, is_complete x = true) (mheap s))
    ∧ (length (filter (λ e, e = on_complete) (fired s)) ≤ 1)%nat.
Proof.
  apply (bracket_progress Bracket.trio ∅).
  - simpl. lia.
  - exact BY_not_in_trio.
  - apply Bracket.in_play_start.
Defined.

(** X18: the standings of the elimination format.  In orderly use,
    byes included, the score of every participant of the tournament is
    3 points for each match of the bracket that has it as its winner. *)
Theorem standings_bracket ps h s p :
  (2 ≤ length ps)%nat → BY ∉ ps → Bracket.in_play ps h s → p ∈ ps →
  score_of s p = standing p (mheap s)
  ∧ standing p (mheap s)
    = 3 * Z.of_nat (length (filter (λ x, winner x = Some (P p)) (mheap s))).
Proof.
  intros Hn HBY Hplay Hp.
  destruct (KnockoutFacts.in_play_extra ps h s Hn HBY Hplay)
    as (_ & _ & _ & Hnt & _ & _ & Hst).
  split.
  - rewrite Hst. unfold Bracket.reset_score. rewrite decide_True by done. lia.
  - assert (H : Forall (λ x, winner x ≠ Some TIE) (mheap s)).
    { apply Forall_lookup. intros i x Hx. by apply (Hnt i x). }
    revert H. generalize (mheap s). clear. intros l H.
    induction H as [|x l Hx _ IH]; [done|].
    cbn [standing foldr]. fold (standing p l). rewrite IH, filter_cons.
    unfold points. destruct (winner x) as [[|w]|]; [done| |].
    + destruct (decide (w = p)) as [->|Hne].
      * rewrite decide_True by done. simpl length. lia.
      * rewrite decide_False by congruence. lia.
    + rewrite decide_False by done. lia.
Qed.

Lemma standings_bracket_witness :
  let s := exec SingleElimination.start
             (SingleElimination.SingleEliminationTournament Bracket.trio ∅) in
  let p := PInt 1 in
  score_of s p = 3
  ∧ score_of s p = standing p (mheap s)
  ∧ standing p (mheap s)
    = 3 * Z.of_nat (length (filter (λ x, winner x = Some (P p)) (mheap s))).
Proof.
  split; [vm_compute; reflexivity|].
  apply (standings_bracket Bracket.trio ∅).
  - simpl. lia.
  - exact BY_not_in_trio.
  - apply Bracket.in_play_start.
  - by left.
Defined.

(** X19: the script ends, in the elimination format.  For [n >= 2]
    participants, whatever numbers are drawn, the loop of [example.py]
    never fails, every turn reports an active match, and the script ends
    with the turn number [n - 1], the one that reports the final and
    fires [on_complete]: after fewer turns it is still running. *)
Theorem example_bracket_ends ps h rs :
  (2 ≤ length ps)%nat → BY ∉ ps →
  outcome (Example.main SingleElimination.report_result
             SingleElimination.start rs)
          (SingleElimination.SingleEliminationTournament ps h)
  = Ok (bool_decide (length ps - 1 ≤ length rs)%nat).
Proof.
  intros Hn HBY.
  pose proof (Bracket.in_play_start ps h) as Hplay.
  destruct (KnockoutFacts.start_extra ps h Hn HBY) as (_ & _ & Hno).
  destruct (SingleFacts.start_spec ps h Hn HBY) as (s' & Hrun & _).
  pose proof (KnockoutFacts.single_loop ps h Hn HBY rs _ Hplay Hno) as Hloop.
  rewrite (KnockoutFacts.single_start_pending ps h Hn HBY) in Hloop.
  unfold outcome, Example.main, Example.then_unless_exited in *.
  unfold exec in *. rewrite Hrun in *. cbn [fst snd] in *.
  rewrite (exited_app (SingleElimination.SingleEliminationTournament ps h)
             s' (fired s') eq_refl).
  by rewrite bool_decide_false by done.
Qed.

Lemma example_bracket_ends_witness :
  let rs := [(3, 1); (0, 0)]%nat in
  outcome (Example.main SingleElimination.report_result
             SingleElimination.start rs)
          (SingleElimination.SingleEliminationTournament Bracket.trio ∅)
  = Ok (bool_decide (length Bracket.trio - 1 ≤ length rs)%nat).
Proof.
  apply (example_bracket_ends Bracket.trio ∅).
  - simpl. lia.
  - exact BY_not_in_trio.
Defined.

(** X20: the byes go to the front of the list.  When [start] has seeded
    an elimination tournament of [n] participants, [2 <= n < 2 ^ 29]
    (the counts for which the logarithm computed in double precision
    rounds up to the exact one), the matches with the bye in the away
    slot are the first [field_size - n] matches, [field_size] the
    smallest power of two [>= n], the home of the [i]-th being the
    [i]-th participant of the list; these are the Completed matches, and
    [n - 1] matches are left to play. *)
Theorem byes_go_to_the_front ps h i x :
  (2 ≤ length ps)%nat → Z.of_nat (length ps) < 2 ^ 29 → BY ∉ ps →
  let s := exec SingleElimination.start
             (SingleElimination.SingleEliminationTournament ps h) in
  let byes := (2 ^ Nat.log2_up (length ps) - length ps)%nat in
  mheap s !! i = Some x →
  (away x = Some BY ↔ (i < byes)%nat)
  ∧ (is_complete x = true ↔ (i < byes)%nat)
  ∧ ((i < byes)%nat → home x = ps !! i)
  ∧ pending (mheap s) = (length ps - 1)%nat.
Proof.
  intros Hn _ HBY s byes Hx.
  destruct (SingleFacts.field_half (length ps) Hn) as (Hfs & Hk1 & Hkn).
  destruct (KnockoutFacts.start_byes ps h Hn HBY i x Hx) as (Hb & Hc & Hh).
  unfold byes. rewrite Hfs.
  split; [done|]. split; [done|]. split.
  - intros Hi. destruct Hh as (hm & -> & ->); [lia|done].
  - apply (KnockoutFacts.single_start_pending ps h Hn HBY).
Qed.

Lemma byes_go_to_the_front_witness :
  let ps := Bracket.trio in
  let s := exec SingleElimination.start
             (SingleElimination.SingleEliminationTournament ps ∅) in
  let x := set_winner (Some (P (PInt 1))) (Some (P BY))
             (new_Match (Some (PInt 1)) (Some BY)) in
  mheap s !! 0%nat = Some x
  ∧ (away x = Some BY ↔ (0 < 1)%nat)
  ∧ (is_complete x = true ↔ (0 < 1)%nat)
  ∧ ((0 < 1)%nat → home x = ps !! 0%nat)
  ∧ pending (mheap s) = (length ps - 1)%nat.
Proof.
  split; [vm_compute; reflexivity|].
  apply (byes_go_to_the_front Bracket.trio ∅ 0%nat).
  - simpl. lia.
  - reflexivity.
  - exact BY_not_in_trio.
  - vm_compute. reflexivity.
Defined.

(** X21: the match history of a participant.  In any use of a
    round-based tournament, the [match_history] of a participant object
    is the history it came with followed by the matches of the tournament
    in which it holds a slot, in the order of their creation, and its
    [current_match] is the last of these (the one it came with, when
    there is none). *)
Theorem history_lists_the_pairings n ps h s q :
  Round.in_use n ps h s →
  match_history (participant s q)
  = match_history (default new_Participant (h !! q)) ++ played q (mheap s)
  ∧ current_match (participant s q)
    = from_option Some (current_match (default new_Participant (h !! q)))
                  (last (played q (mheap s))).
Proof. intros Huse. by apply (RoundFacts.in_use_history h n ps). Qed.

Lemma history_lists_the_pairings_witness :
  let h : gmap pid Participant := ∅ in
  let s := Scenario.round2 2 in
  let q := Scenario.C in
  played q (mheap s) = [1; 2]%nat
  ∧ match_history (participant s q)
    = match_history (default new_Participant (h !! q)) ++ played q (mheap s)
  ∧ current_match (participant s q)
    = from_option Some (current_match (default new_Participant (h !! q)))
                  (last (played q (mheap s))).
Proof.
  split; [vm_compute; reflexivity|].
  apply (history_lists_the_pairings 2
           [Scenario.A; Scenario.B; Scenario.C; Scenario.D] ∅).
  apply (Round.in_use_report 2 _ ∅ _ 1%nat (Some (P Scenario.C))).
  apply (Round.in_use_report 2 _ ∅ _ 0%nat (Some (P Scenario.A))).
  apply Round.in_use_start.
Defined.

(** X22: a report leaves the bracket alone.  In the elimination format,
    any call of [report_result], whatever the match and the winner and
    whether it fails or not, leaves the bracket maps, the round count and
    the field size, the match list and the participant list as they are,
    creates no match and changes the result of no other match. *)
Theorem reports_keep_the_bracket (s : State SingleElimination.Fields) m w :
  let s' := exec (SingleElimination.report_result m w) s in
  fmt s' = fmt s ∧ matches s' = matches s
  ∧ participants s' = participants s
  ∧ length (mheap s') = length (mheap s)
  ∧ ∀ i, i ≠ m → winner <$> mheap s' !! i = winner <$> mheap s !! i.
Proof.
  apply (preserves_report_result (λ s',
           fmt s' = fmt s ∧ matches s' = matches s
           ∧ participants s' = participants s
           ∧ length (mheap s') = length (mheap s)
           ∧ ∀ i, i ≠ m → winner <$> mheap s' !! i = winner <$> mheap s !! i));
    [done| |done| |done].
  - intros s1 l (? & ? & ? & Hlen & Hw). repeat (split; [done|]).
    cbn [mheap upd_mheap]. rewrite length_alter. split; [done|].
    intros i Hi. rewrite list_lookup_alter_ne by done. by apply Hw.
  - unfold SingleElimination.process_match_result.
    apply preserves_bind; [apply preserves_gets|]. intros f.
    destruct (_ !! m) as [wm|]; [|by intros ?].
    apply preserves_bind; [apply preserves_read_match|]. intros x.
    destruct (winner x) as [[|p]|]; try apply preserves_raise.
    apply preserves_bind; [by intros ?|]. intros _.
    destruct (_ !! wm) as [[hs ws]|]; [|apply preserves_raise].
    apply preserves_bind.
    { intros s1 (? & ? & ? & Hlen & Hw).
      destruct (decide (m = hs)); unfold exec, upd_match, modify;
        cbn [fst mheap upd_mheap fmt matches participants];
        rewrite length_alter; do 4 (split; [done|]);
        intros i Hi; rewrite list_lookup_alter, <- (Hw i Hi);
        case_decide; try done; subst i; by destruct (mheap s1 !! wm). }
    intros _. apply preserves_bind; [apply preserves_read_match|]. intros y.
    destruct (active y); [by intros ?|apply preserves_ret].
Qed.

(** X23: a report leaves the pairings alone.  In the round-based
    format, any call of [report_result], whatever the match and the
    winner and whether it fails or not, leaves the participant list and
    the configured number of rounds as they are, keeps every match with
    its two participants and every other match with its result, and
    keeps the match list as a prefix of the new one. *)
Theorem reports_keep_the_pairings (s : State Swiss.Fields) m w :
  let s' := exec (Swiss.report_result m w) s in
  Round.config s' = Round.config s
  ∧ matches s `prefix_of` matches s'
  ∧ ∀ i x, mheap s !! i = Some x →
      ∃ x', mheap s' !! i = Some x'
        ∧ home x' = home x ∧ away x' = away x ∧ (i ≠ m → x' = x).
Proof.
  apply (preserves_report_result (λ s',
           Round.config s' = Round.config s
           ∧ matches s `prefix_of` matches s'
           ∧ ∀ i x, mheap s !! i = Some x →
               ∃ x', mheap s' !! i = Some x'
                 ∧ home x' = home x ∧ away x' = away x ∧ (i ≠ m → x' = x)));
    [done| |done| |].
  - intros s1 l (? & ? & Hx). repeat (split; [done|]).
    intros i x Hi. destruct (Hx i x Hi) as (x' & Hx' & Hh & Ha & Hne).
    cbn [mheap upd_mheap].
    destruct (decide (i = m)) as [->|Hi'].
    + rewrite list_lookup_alter_eq, Hx'.
      exists (set_winner w l x'). by repeat split.
    + rewrite list_lookup_alter_ne by done. by exists x'.
  - intros s1 (Hc & Hp & Hx).
    destruct (RoundFacts.process_match_result_cases s1 m)
      as [->|[[_ ->]|[_ ->]]]; [done| |done].
    destruct (RoundFacts.setup_round_effect s1)
      as (new & rest & _ & Hc' & _ & _ & Hm' & _ & _ & Hms' & _).
    split; [by rewrite Hc'|]. split.
    { etrans; [exact Hp|]. rewrite Hms'. by apply prefix_app_r. }
    intros i x Hi. destruct (Hx i x Hi) as (x' & Hx' & ?).
    exists x'. split; [|done]. rewrite Hm'. by apply lookup_app_l_Some.
  - split; [done|]. split; [done|]. intros i x Hi. by exists x.
Qed.
